(** * WebChord: note lifecycle, recording capture and timeline scheduling

    A shallow embedding of the chord-button handlers (ChordButtons), the
    pattern recorder (PatternRecorder) and the timeline playback interval
    (Timeline), with the properties their specification states about them.

    Modelling conventions.
    - A JavaScript [number] holding a time, a velocity or a tempo is an exact
      rational ([Qc]); MIDI notes are integers ([Z]); button degrees are
      naturals.  Rounding of doubles is not modelled.
    - The audio engine is observed through the ordered list of calls made on
      it.  Handlers take the state before and return the state after together
      with the calls they issued.
    - [performance.now()], [Date.now()] and [Math.random()] are inputs of the
      handler that reads them.
    - A [Map] or [Set] that the source only probes (has/get/set/delete/size)
      is a [gmap] or [gset]; one that the source iterates keeps its insertion
      order and is a list without duplicates.
    - A property that an object may lack at run time is an [option], [None]
      standing for [undefined]; a block of statements that can throw returns
      how it ended together with the state and the calls made until then. *)

From Stdlib Require Import ZArith QArith Qcanon Qcabs Qround List Lia Lqa.
From stdpp Require Import base decidable option numbers list gmap strings fin_maps fin_sets.

(** ** Numbers *)

Module Num.

Definition ofZ (z : Z) : Qc := Q2Qc (inject_Z z).

Definition ratio (n : Z) (d : positive) : Qc := Q2Qc (n # d).

(** [Math.floor]. *)
Definition Math_floor (x : Qc) : Z := Qfloor x.

(** Truncation towards zero, the quotient that the [%] operator uses. *)
Definition trunc (x : Qc) : Z :=
  if decide (0 ≤ x)%Qc then Qfloor x else Qceiling x.

(** [x % d] on numbers: the remainder takes the sign of the dividend. *)
Definition rem (x d : Qc) : Qc := (x - d * ofZ (trunc (x / d)))%Qc.

(** [Math.max] of two numbers. *)
Definition Math_max (x y : Qc) : Qc := if decide (x ≤ y)%Qc then y else x.

(** [Math.max(...xs)] for a list with head [x]. *)
Definition Math_max_list (x : Qc) (xs : list Qc) : Qc := fold_left Math_max xs x.

(** [Math.abs]. *)
Definition Math_abs (x : Qc) : Qc := Qcabs x.

Definition ltb (x y : Qc) : bool := bool_decide (x < y)%Qc.
Definition leb (x y : Qc) : bool := bool_decide (x ≤ y)%Qc.

End Num.

(** ** The audio voice engine, as the trace of calls it receives *)

Module Engine.

Inductive call : Type :=
| noteOn (midiNote : Z) (velocity : Qc)
| noteOff (midiNote : Z) (immediate : bool)
| timelineNoteOn (midiNote : Z) (velocity : Qc)
| timelineNoteOff (midiNote : Z)
| setWaveform (waveform : nat)
| setADSR (attack decay sustain release : Qc)
| setFilterCutoff (cutoff : option Qc)        (* None: called with undefined *)
| setFilterResonance (resonance : option Qc)
| setFilterMode (mode : option nat)
| setFilterEnabled (enabled : option bool)
| setLFORate (rate : Qc)
| setLFODepth (depth : Qc)
| setLFOWaveform (waveform : nat)
| setLFOToFilter (enabled : bool)
| setDetune (cents : Qc)
| setGlideTime (timeMs : Qc)
| setTremolo (enabled : bool) (rate depth : Qc)
| setFlanger (enabled : bool) (rate depth feedback mix : Qc)
| setDelay (enabled : bool) (time feedback mix : Qc)
| setReverb (enabled : bool) (size damping : Qc).

Definition is_noteOn (p : Z) (c : call) : bool :=
  match c with noteOn q _ => bool_decide (q = p) | _ => false end.

Definition is_noteOff (p : Z) (c : call) : bool :=
  match c with noteOff q _ => bool_decide (q = p) | _ => false end.

(** Number of live-pool note-on (resp. note-off) calls for pitch [p]. *)
Definition noteOns (p : Z) (tr : list call) : nat :=
  length (filter (λ c, is_noteOn p c = true) tr).

Definition noteOffs (p : Z) (tr : list call) : nat :=
  length (filter (λ c, is_noteOff p c = true) tr).

End Engine.

(** ** The application store (useAppStore) *)

Module Store.

Inductive WaveformType := sine | sawtooth | square | triangle | fm | piano.

Inductive PlaybackMode := play | arpeggiator | drum | autodrum.

Inductive ArpPattern := up | down | updown | random.

Inductive NoteType := TNoteOn | TNoteOff.

Record ADSR := { attack : Qc; decay : Qc; sustain : Qc; release : Qc }.

(** A [filter] object as it is found at run time.  The store's initial
    state has no [synthesis.filter], so an object built by spreading it has
    only the properties that were set since. *)
Record Filter := {
  cutoff : option Qc; resonance : option Qc; mode : option nat;
  filter_enabled : option bool }.

(** The object [{}]. *)
Definition emptyFilter : Filter :=
  {| cutoff := None; resonance := None; mode := None; filter_enabled := None |}.

Record LFO := {
  lfo_rate : Qc; lfo_depth : Qc; lfo_waveform : nat; lfo_enabled : bool }.

Record Glide := { glide_enabled : bool; glide_time : Qc }.
Record Tremolo := { tremolo_enabled : bool; tremolo_rate : Qc; tremolo_depth : Qc }.
Record Flanger := {
  flanger_enabled : bool; flanger_rate : Qc; flanger_depth : Qc;
  flanger_feedback : Qc; flanger_mix : Qc }.
Record Delay := {
  delay_enabled : bool; delay_time : Qc; delay_feedback : Qc; delay_mix : Qc }.
Record Reverb := {
  reverb_enabled : bool; reverb_size : Qc; reverb_damping : Qc; reverb_mix : Qc }.

Record Effects := {
  glide : Glide; tremolo : Tremolo; flanger : Flanger;
  delay : Delay; reverb : Reverb }.

(** The synthesis/effects configuration that the timeline applies: the
    [synthesis] and [effects] slices of the store, or what a pattern
    captured.  [filter] is [None] when the object has no such property, as
    the [synthesis] slice that the store creates and the parameters of a
    generated pattern. *)
Record Parameters := {
  waveform : WaveformType;
  adsr : ADSR;
  filter : option Filter;
  lfo : LFO;
  detune : Qc;
  effects : Effects }.

Record RecordedNote := {
  time : Qc;
  type : NoteType;
  midiNote : Z;
  velocity : Qc;
  degree : nat }.

Record Pattern := {
  id : string;
  name : string;
  notes : list RecordedNote;
  length : Qc;                       (* seconds *)
  color : string;
  capturedParameters : option Parameters }.

Record TimelineClip := {
  clip_id : string;
  patternId : string;
  startTime : Qc;                    (* beats *)
  track : nat }.

(** The [sequencer] slice: the fields the handlers below read or write. *)
Record Sequencer := {
  isRecording : bool;
  recordingStartTime : Qc;
  recordedNotes : list RecordedNote;
  patterns : list Pattern;
  timeline : list TimelineClip }.

Record ArpSettings := {
  pattern : ArpPattern;
  speed : Qc;
  octaves : nat;
  gate : Qc }.

#[global] Instance NoteType_eq_dec : EqDecision NoteType.
Proof. solve_decision. Defined.

#[global] Instance PlaybackMode_eq_dec : EqDecision PlaybackMode.
Proof. solve_decision. Defined.

#[global] Instance ArpPattern_eq_dec : EqDecision ArpPattern.
Proof. solve_decision. Defined.

Definition set_recording (q : Sequencer) (start : Qc) (ns : list RecordedNote) : Sequencer :=
  {| isRecording := isRecording q; recordingStartTime := start;
     recordedNotes := ns; patterns := patterns q; timeline := timeline q |}.

Definition set_recordedNotes (q : Sequencer) (ns : list RecordedNote) : Sequencer :=
  set_recording q (recordingStartTime q) ns.

End Store.

(** ** ChordButtons: the voice ownership manager and the arpeggiator *)

Module ChordButtons.
Import Engine.

(** What a render of the component closes over. *)
Record Config := {
  audioEngine : bool;                 (* false: the prop is null *)
  currentMode : Store.PlaybackMode;
  arpSettings : Store.ArpSettings;
  bpm : Qc }.

(** A pending [setTimeout] of [playNote], with the variables its callback
    closes over: the note of that step and the recording flags as
    [playNote] read them. *)
Record Timeout := {
  to_noteToPlay : Z;
  to_isRecording : bool;
  to_recordingStartTime : Qc;
  to_due : Qc }.

(** The closure created by one arpeggiator branch of [handleButtonDown]. *)
Record ArpSession := {
  arp_degree : nat;
  arpNotes : list Z;
  baseVelocity : Qc;
  arp_pattern : Store.ArpPattern;
  arp_gate : Qc;
  noteLength : Qc;
  currentNoteIndex : nat;
  currentPlayingNote : option Z;
  noteOffTimeout : option Timeout }.

Record State := {
  activeButtons : gset nat;                  (* activeButtonsRef *)
  activeNotes : gmap nat (list Z);           (* activeNotesRef *)
  arpIntervals : gmap nat nat;               (* arpIntervalsRef: degree to session *)
  globalMidiNotes : gmap Z (gset nat);       (* globalMidiNotesRef *)
  buttonPressTime : gmap nat Qc;
  lastVelocity : gmap nat Qc;
  sessions : list ArpSession;                (* live closures, by creation order *)
  sequencer : Store.Sequencer }.

Definition initial (q : Store.Sequencer) : State :=
  {| activeButtons := ∅; activeNotes := ∅; arpIntervals := ∅;
     globalMidiNotes := ∅; buttonPressTime := ∅; lastVelocity := ∅;
     sessions := []; sequencer := q |}.

Definition mkNote (t : Qc) (ty : Store.NoteType) (m : Z) (v : Qc) (d : nat)
  : Store.RecordedNote :=
  {| Store.time := t; Store.type := ty; Store.midiNote := m;
     Store.velocity := v; Store.degree := d |}.

Definition default_velocity : Qc := Num.ratio 7 10.

(** *** Play mode, button down *)

(** Body of the [chord.forEach] that takes ownership of one pitch.  The
    source creates an empty set for a pitch that has no entry and then reads
    the entry back: [holdingButtons] is the stored set, or the empty one. *)
Definition holdNote (degree : nat) (velocity : Qc)
    (acc : gmap Z (gset nat) * list call) (midiNote : Z)
  : gmap Z (gset nat) * list call :=
  let '(g, tr) := acc in
  let holdingButtons := default ∅ (g !! midiNote) in
  let isAlreadyPlaying := bool_decide (0 < size holdingButtons) in
  let g' := <[midiNote := {[degree]} ∪ holdingButtons]> g in
  if isAlreadyPlaying then (g', tr) else (g', tr ++ [noteOn midiNote velocity]).

(** The recording step that follows it. *)
Definition recordChord (q : Store.Sequencer) (isRecording : bool)
    (recordingStartTime pressTime velocity : Qc) (degree : nat) (chord : list Z)
  : Store.Sequencer :=
  let notesToRecord := if isRecording then chord else [] in
  let isFirstChord := isRecording && bool_decide (recordingStartTime = 0%Qc) in
  if isRecording && bool_decide (0 < List.length notesToRecord) then
    if isFirstChord then
      Store.set_recording q pressTime
        (map (λ n, mkNote 0%Qc Store.TNoteOn n velocity (degree + 1)) notesToRecord)
    else
      let relativeTime := (pressTime - recordingStartTime)%Qc in
      Store.set_recordedNotes q
        (Store.recordedNotes q ++
         map (λ n, mkNote relativeTime Store.TNoteOn n velocity (degree + 1)) notesToRecord)
  else q.

(** *** Arpeggiator *)

(** Octave extension of the held chord. *)
Definition extendChord (octaves : nat) (arpChord : list Z) : list Z :=
  flat_map (λ oct, map (λ note, (note + Z.of_nat oct * 12)%Z) arpChord) (seq 0 octaves).

(** [xs.slice(0, -1)]. *)
Definition slice_0_m1 (xs : list Z) : list Z := removelast xs.

Definition applyPattern (p : Store.ArpPattern) (extendedChord : list Z) : list Z :=
  match p with
  | Store.down => rev extendedChord
  | Store.updown =>
      let up := extendedChord in
      let down := rev extendedChord in
      slice_0_m1 up ++ slice_0_m1 down
  | _ => extendedChord
  end.

Definition buildArpNotes (a : Store.ArpSettings) (chord : list Z) : list Z :=
  applyPattern (Store.pattern a) (extendChord (Store.octaves a) chord).

(** The index [playNote] reads: a random draw, or the running cursor. *)
Definition noteIndex (s : ArpSession) (r : Qc) : nat :=
  match arp_pattern s with
  | Store.random =>
      Z.to_nat (Num.Math_floor (r * Num.ofZ (Z.of_nat (List.length (arpNotes s)))))
  | _ => currentNoteIndex s mod List.length (arpNotes s)
  end.

Definition nextIndex (s : ArpSession) : nat :=
  match arp_pattern s with
  | Store.random => currentNoteIndex s
  | _ => S (currentNoteIndex s)
  end.

Definition recordArpNote (q : Store.Sequencer) (currentTime velocity : Qc)
    (degree : nat) (noteToPlay : Z) : Store.Sequencer :=
  let isRecording := Store.isRecording q in
  let recordingStartTime := Store.recordingStartTime q in
  if isRecording then
    if bool_decide (recordingStartTime = 0%Qc) then
      Store.set_recording q currentTime
        [mkNote 0%Qc Store.TNoteOn noteToPlay velocity (degree + 1)]
    else
      let relativeTime := (currentTime - recordingStartTime)%Qc in
      Store.set_recordedNotes q
        (Store.recordedNotes q ++
         [mkNote relativeTime Store.TNoteOn noteToPlay velocity (degree + 1)])
  else q.

(** [playNote].  [currentTime] is [performance.now()], [r1] and [r2] the two
    [Math.random()] draws.  [None]: the sequence has no element at the index,
    so [noteToPlay] is [undefined] and the step is outside the model. *)
Definition playNote (s : ArpSession) (q : Store.Sequencer) (currentTime r1 r2 : Qc)
  : option (ArpSession * Store.Sequencer * list call) :=
  let stopPrev :=
    match currentPlayingNote s with
    | Some n => [noteOff n true]
    | None => []
    end in
  noteToPlay ← arpNotes s !! noteIndex s r1;
  let velocity := (baseVelocity s * (Num.ratio 95 100 + r2 * Num.ratio 1 10))%Qc in
  let isRecording := Store.isRecording q in
  let recordingStartTime := Store.recordingStartTime q in
  let q' := recordArpNote q currentTime velocity (arp_degree s) noteToPlay in
  let timeout :=
    if bool_decide (arp_gate s < 1)%Qc then
      Some {| to_noteToPlay := noteToPlay; to_isRecording := isRecording;
              to_recordingStartTime := recordingStartTime;
              to_due := (currentTime + noteLength s)%Qc |}
    else None in
  Some ({| arp_degree := arp_degree s; arpNotes := arpNotes s;
           baseVelocity := baseVelocity s; arp_pattern := arp_pattern s;
           arp_gate := arp_gate s; noteLength := noteLength s;
           currentNoteIndex := nextIndex s;
           currentPlayingNote := Some noteToPlay;
           noteOffTimeout := timeout |},
        q', stopPrev ++ [noteOn noteToPlay velocity]).

(** The callback of the gate timeout, firing at [noteOffTime]. *)
Definition gateOff (s : ArpSession) (q : Store.Sequencer) (noteOffTime : Qc)
  : ArpSession * Store.Sequencer * list call :=
  match noteOffTimeout s with
  | None => (s, q, [])
  | Some t =>
      let noteToPlay := to_noteToPlay t in
      let cleared (cur : option Z) :=
        {| arp_degree := arp_degree s; arpNotes := arpNotes s;
           baseVelocity := baseVelocity s; arp_pattern := arp_pattern s;
           arp_gate := arp_gate s; noteLength := noteLength s;
           currentNoteIndex := currentNoteIndex s;
           currentPlayingNote := cur;
           noteOffTimeout := None |} in
      if bool_decide (currentPlayingNote s = Some noteToPlay) then
        let q' :=
          if to_isRecording t && bool_decide (0 < to_recordingStartTime t)%Qc then
            let relativeTime := (noteOffTime - to_recordingStartTime t)%Qc in
            Store.set_recordedNotes q
              (Store.recordedNotes q ++
               [mkNote relativeTime Store.TNoteOff noteToPlay 0%Qc (arp_degree s + 1)])
          else q in
        (cleared None, q', [noteOff noteToPlay true])
      else (cleared (currentPlayingNote s), q, [])
  end.

(** *** Button release, per pitch *)

(** Body of the [chord.forEach] of [handleButtonUp]: give up ownership of
    one pitch, then record the release. *)
Definition releaseNote (degree : nat) (immediate isRecording : bool)
    (recordingStartTime releaseTime : Qc)
    (acc : gmap Z (gset nat) * Store.Sequencer * list call) (midiNote : Z)
  : gmap Z (gset nat) * Store.Sequencer * list call :=
  let '(g, q, tr) := acc in
  let '(g', tr') :=
    match g !! midiNote with
    | Some holdingButtons =>
        let holdingButtons' := holdingButtons ∖ {[degree]} in
        if bool_decide (size holdingButtons' = 0) then
          (delete midiNote g, tr ++ [noteOff midiNote immediate])
        else (<[midiNote := holdingButtons']> g, tr)
    | None => (g, tr)
    end in
  let q' :=
    if isRecording && bool_decide (0 < recordingStartTime)%Qc then
      let relativeTime := (releaseTime - recordingStartTime)%Qc in
      Store.set_recordedNotes q
        (Store.recordedNotes q ++
         [mkNote relativeTime Store.TNoteOff midiNote 0%Qc (degree + 1)])
    else q in
  (g', q', tr').

(** *** The two handlers *)

(** [eventTime || performance.now()]. *)
Definition pressTimeOf (eventTime : option Qc) (now : Qc) : Qc :=
  match eventTime with
  | Some t => if bool_decide (t = 0%Qc) then now else t
  | None => now
  end.

(** [handleButtonDown(degree, eventTime)].  [chord] is the result of
    [generateChord] for this button; [now] is [performance.now()] at entry
    and [r1], [r2] feed the first [playNote] of an arpeggiator run.  The
    state returned is the one the next handler finds, once React has
    rendered and the effects that copy the component state into the refs
    have run: in arpeggiator mode [setActiveNotes] stores [arpNotes], which
    then replaces the chord that the handler had put in [activeNotesRef]. *)
Definition handleButtonDown (c : Config) (st : State) (degree : nat)
    (chord : list Z) (eventTime : option Qc) (now r1 r2 : Qc)
  : option (State * list call) :=
  if negb (audioEngine c) || bool_decide (degree ∈ activeButtons st) then
    Some (st, [])
  else
    let pressTime := pressTimeOf eventTime now in
    let q := sequencer st in
    let isRecording := Store.isRecording q in
    let recordingStartTime := Store.recordingStartTime q in
    let buttons := {[degree]} ∪ activeButtons st in
    let notes := <[degree := chord]> (activeNotes st) in
    let presses := <[degree := pressTime]> (buttonPressTime st) in
    match currentMode c with
    | Store.play =>
        let velocity := default_velocity in
        let '(g, tr) :=
          fold_left (holdNote degree velocity) chord (globalMidiNotes st, []) in
        Some ({| activeButtons := buttons; activeNotes := notes;
                 arpIntervals := arpIntervals st; globalMidiNotes := g;
                 buttonPressTime := presses;
                 lastVelocity := <[degree := velocity]> (lastVelocity st);
                 sessions := sessions st;
                 sequencer :=
                   recordChord q isRecording recordingStartTime pressTime
                     velocity degree chord |}, tr)
    | Store.arpeggiator =>
        let a := arpSettings c in
        let base :=
          match lastVelocity st !! degree with
          | Some v => if bool_decide (v = 0%Qc) then default_velocity else v
          | None => default_velocity
          end in
        let baseInterval := (Num.ofZ 60 / bpm c / Num.ofZ 4 * Num.ofZ 1000)%Qc in
        let arpInterval := (baseInterval / Store.speed a)%Qc in
        let fresh :=
          {| arp_degree := degree; arpNotes := buildArpNotes a chord;
             baseVelocity := base; arp_pattern := Store.pattern a;
             arp_gate := Store.gate a;
             noteLength := (arpInterval * Store.gate a)%Qc;
             currentNoteIndex := 0; currentPlayingNote := None;
             noteOffTimeout := None |} in
        '(s, q', tr) ← playNote fresh q now r1 r2;
        Some ({| activeButtons := buttons;
                 activeNotes := <[degree := arpNotes fresh]> (activeNotes st);
                 arpIntervals := <[degree := List.length (sessions st)]> (arpIntervals st);
                 globalMidiNotes := globalMidiNotes st;
                 buttonPressTime := presses;
                 lastVelocity := lastVelocity st;
                 sessions := sessions st ++ [s];
                 sequencer := q' |}, tr)
    | _ =>
        Some ({| activeButtons := buttons; activeNotes := notes;
                 arpIntervals := arpIntervals st;
                 globalMidiNotes := globalMidiNotes st;
                 buttonPressTime := presses;
                 lastVelocity := lastVelocity st;
                 sessions := sessions st;
                 sequencer := q |}, [])
    end.

(** [handleButtonUp(degree)]; [releaseTime] is its [performance.now()]. *)
Definition handleButtonUp (c : Config) (st : State) (degree : nat) (releaseTime : Qc)
  : State * list call :=
  if negb (audioEngine c) then (st, [])
  else if negb (bool_decide (degree ∈ activeButtons st)) then (st, [])
  else
    let intervals := delete degree (arpIntervals st) in
    let '(g, q, tr) :=
      match activeNotes st !! degree with
      | Some chord =>
          let immediate := negb (bool_decide (currentMode c = Store.play)) in
          let isRecording := Store.isRecording (sequencer st) in
          let recordingStartTime := Store.recordingStartTime (sequencer st) in
          fold_left
            (releaseNote degree immediate isRecording recordingStartTime releaseTime)
            chord (globalMidiNotes st, sequencer st, [])
      | None => (globalMidiNotes st, sequencer st, [])
      end in
    ({| activeButtons := activeButtons st ∖ {[degree]};
        activeNotes := delete degree (activeNotes st);
        arpIntervals := intervals;
        globalMidiNotes := g;
        buttonPressTime := delete degree (buttonPressTime st);
        lastVelocity := delete degree (lastVelocity st);
        sessions := sessions st;
        sequencer := q |}, tr).

Definition with_session (st : State) (sid : nat) (s : ArpSession)
    (q : Store.Sequencer) : State :=
  {| activeButtons := activeButtons st; activeNotes := activeNotes st;
     arpIntervals := arpIntervals st; globalMidiNotes := globalMidiNotes st;
     buttonPressTime := buttonPressTime st; lastVelocity := lastVelocity st;
     sessions := <[sid := s]> (sessions st); sequencer := q |}.

(** The interval of session [sid] fires: it runs [playNote] as long as the
    interval is still registered for its button. *)
Definition stepTimer (st : State) (sid : nat) (now r1 r2 : Qc)
  : option (State * list call) :=
  match sessions st !! sid with
  | Some s =>
      if bool_decide (arpIntervals st !! arp_degree s = Some sid) then
        '(s', q', tr) ← playNote s (sequencer st) now r1 r2;
        Some (with_session st sid s' q', tr)
      else Some (st, [])
  | None => Some (st, [])
  end.

(** The gate timeout of session [sid] fires, no earlier than it is due. *)
Definition gateTimer (st : State) (sid : nat) (now : Qc) : State * list call :=
  match sessions st !! sid with
  | Some s =>
      match noteOffTimeout s with
      | Some t =>
          if bool_decide (to_due t ≤ now)%Qc then
            let '(s', q', tr) := gateOff s (sequencer st) now in
            (with_session st sid s' q', tr)
          else (st, [])
      | None => (st, [])
      end
  | None => (st, [])
  end.

End ChordButtons.

(** ** PatternRecorder: recording capture *)

Module PatternRecorder.

Definition enableRecording (q : Store.Sequencer) : Store.Sequencer :=
  {| Store.isRecording := true;
     Store.recordingStartTime := 0%Qc;      (* will be set by first note *)
     Store.recordedNotes := [];
     Store.patterns := Store.patterns q; Store.timeline := Store.timeline q |}.

Definition stopRecording (q : Store.Sequencer) : Store.Sequencer :=
  {| Store.isRecording := false;
     Store.recordingStartTime := 0%Qc;
     Store.recordedNotes := Store.recordedNotes q;
     Store.patterns := Store.patterns q; Store.timeline := Store.timeline q |}.

Definition discardRecording (q : Store.Sequencer) : Store.Sequencer :=
  Store.set_recordedNotes q [].

Definition colors : list string :=
  ["#ef4444"; "#f59e0b"; "#10b981"; "#3b82f6"; "#8b5cf6"; "#ec4899"]%string.

(** Outcome of [savePattern]: the pattern handed to [onPatternCreated], or
    the early return on an empty buffer. *)
Inductive SaveResult :=
| Saved (p : Store.Pattern)
| EmptyRecording.

(** Length in seconds of a recording whose first note is [n]. *)
Definition patternLength (n : Store.RecordedNote) (ns : list Store.RecordedNote) : Qc :=
  let lastNoteTime := Num.Math_max_list (Store.time n) (map Store.time ns) in
  (lastNoteTime / Num.ofZ 1000 + Num.ratio 1 2)%Qc.

(** The [capturedParameters] that [savePattern] builds from the store.  Its
    [filter] is [{ ...currentState.synthesis.filter }], which is [{}] when
    the store has no filter. *)
Definition capture (current : Store.Parameters) : Store.Parameters :=
  {| Store.waveform := Store.waveform current;
     Store.adsr := Store.adsr current;
     Store.filter := Some (default Store.emptyFilter (Store.filter current));
     Store.lfo := Store.lfo current;
     Store.detune := Store.detune current;
     Store.effects := Store.effects current |}.

(** [savePattern()].  [current] is the synthesis and effects state read by
    [useAppStore.getState()], [patternName] the text field, [now1] and
    [now2] the two [Date.now().toString()] and [r] the [Math.random()]. *)
Definition savePattern (q : Store.Sequencer) (current : Store.Parameters)
    (patternName now1 now2 : string) (r : Qc)
  : Store.Sequencer * SaveResult :=
  match Store.recordedNotes q with
  | [] => (q, EmptyRecording)
  | n :: ns =>
      let recordedNotes := n :: ns in
      let colorIndex :=
        Z.to_nat (Num.Math_floor (r * Num.ofZ (Z.of_nat (List.length colors)))) in
      let pattern :=
        {| Store.id := now1;
           Store.name :=
             if bool_decide (patternName = EmptyString)
             then ("Pattern " +:+ now2)%string else patternName;
           Store.notes := recordedNotes;
           Store.length := patternLength n ns;
           Store.color := default EmptyString (colors !! colorIndex);
           Store.capturedParameters := Some (capture current) |} in
      ({| Store.isRecording := Store.isRecording q;
          Store.recordingStartTime := Store.recordingStartTime q;
          Store.recordedNotes := [];
          Store.patterns := Store.patterns q ++ [pattern];
          Store.timeline := Store.timeline q |}, Saved pattern)
  end.

End PatternRecorder.

(** ** Insertion-ordered sets and maps, as the timeline iterates them *)

Module Ordered.
Section with_key.
Context {K : Type} `{EqDecision K}.

Definition has (x : K) (l : list K) : bool := bool_decide (x ∈ l).

Definition add (x : K) (l : list K) : list K :=
  if has x l then l else l ++ [x].

Definition remove (x : K) (l : list K) : list K :=
  List.filter (λ y, negb (bool_decide (y = x))) l.

Context {V : Type}.

Fixpoint get (k : K) (m : list (K * V)) : option V :=
  match m with
  | [] => None
  | (k', v) :: m' => if bool_decide (k' = k) then Some v else get k m'
  end.

Definition mhas (k : K) (m : list (K * V)) : bool :=
  match get k m with Some _ => true | None => false end.

(** Apply [f] to the value stored under [k], if any (the source's
    [m.get(k)?.op(...)]). *)
Fixpoint alter (f : V → V) (k : K) (m : list (K * V)) : list (K * V) :=
  match m with
  | [] => []
  | (k', v) :: m' =>
      if bool_decide (k' = k) then (k', f v) :: m' else (k', v) :: alter f k m'
  end.

Definition set (k : K) (v : V) (m : list (K * V)) : list (K * V) :=
  if mhas k m then alter (λ _, v) k m else m ++ [(k, v)].

Definition mremove (k : K) (m : list (K * V)) : list (K * V) :=
  List.filter (λ kv, negb (bool_decide (kv.1 = k))) m.

End with_key.
End Ordered.

(** ** Timeline: the playback interval *)

Module Timeline.
Import Engine.

(** The key of [scheduledNotes].  The source joins the four components with
    dashes into one string; the model keeps them apart. *)
Definition NoteKey : Type := string * Qc * Z * bool.

Definition noteKey (clip : Store.TimelineClip) (note : Store.RecordedNote) : NoteKey :=
  (Store.clip_id clip, Store.time note, Store.midiNote note,
   bool_decide (Store.type note = Store.TNoteOn)).

(** [playbackRef.current] together with the [scheduledNotes] set of the
    running effect. *)
Record Playback := {
  timelineNotes : list Z;                       (* keys of the Map *)
  lastTime : Qc;
  activeClips : list (string * list Z);
  hasLooped : bool;
  activeClipsWithParams : gset string;
  currentParametersClipId : option string;
  scheduledNotes : gset NoteKey }.

(** What the effect closes over. *)
Record Env := {
  timeline : list Store.TimelineClip;
  patterns : list Store.Pattern;
  bpm : Qc;
  totalBeats : Qc;
  isLooping : bool;
  globalParameters : Store.Parameters }.   (* synthesis and effects of the store *)

(** The branch of the interval callback that issued a call. *)
Inductive Origin :=
| LoopRestart
| ClipPlaying (clip : string)
| ClipEnded (clip : string)
| StopPlayback.

Abbreviation Log := (list (Origin * call)).

Definition tag (o : Origin) (cs : list call) : Log := map (λ c, (o, c)) cs.

Definition calls (l : Log) : list call := map snd l.

(** [patterns.find((p) => p.id === clip.patternId)]. *)
Definition findPattern (ps : list Store.Pattern) (pid : string) : option Store.Pattern :=
  List.find (λ p, bool_decide (Store.id p = pid)) ps.

Definition clipEndSeconds (e : Env) (clip : Store.TimelineClip) (p : Store.Pattern) : Qc :=
  let clipStartSeconds := (Store.startTime clip * Num.ofZ 60 / bpm e)%Qc in
  (clipStartSeconds + Store.length p)%Qc.

(** End of the rightmost clip, in seconds. *)
Definition loopEndTime (e : Env) : Qc :=
  fold_left
    (λ loopEndTime clip,
       match findPattern (patterns e) (Store.patternId clip) with
       | Some p => Num.Math_max loopEndTime (clipEndSeconds e clip p)
       | None => loopEndTime
       end)
    (timeline e) 0%Qc.

Definition loopEndBeat (e : Env) : Qc :=
  if bool_decide (0 < loopEndTime e)%Qc
  then (loopEndTime e * bpm e / Num.ofZ 60)%Qc else totalBeats e.

Definition beatDuration (e : Env) : Qc := (Num.ofZ 60 / bpm e * Num.ofZ 1000)%Qc.

Definition loopDurationMs (e : Env) : Qc := (loopEndTime e * Num.ofZ 1000)%Qc.

Definition effectiveElapsedMs (e : Env) (elapsedMs : Qc) : Qc :=
  if isLooping e && bool_decide (0 < loopDurationMs e)%Qc
  then Num.rem elapsedMs (loopDurationMs e) else elapsedMs.

Definition waveformMap (w : Store.WaveformType) : nat :=
  match w with
  | Store.sine => 0 | Store.sawtooth => 1 | Store.square => 2
  | Store.triangle => 3 | Store.fm => 4 | Store.piano => 5
  end.

(** How a block of statements ends: it runs to its end, or an exception
    leaves it. *)
Inductive Completion := Returned | Thrown.

(** The setter calls made for a parameter set, in source order, and how the
    block ends.  With a [filter] object all sixteen calls are made, the
    filter setters receiving [undefined] for a property the object lacks;
    without one, reading [filter.cutoff] throws after the first two. *)
Definition applyParameters (p : Store.Parameters) : list call * Completion :=
  let a := Store.adsr p in
  let l := Store.lfo p in
  let x := Store.effects p in
  let first :=
    [ setWaveform (waveformMap (Store.waveform p));
      setADSR (Store.attack a) (Store.decay a) (Store.sustain a) (Store.release a) ] in
  match Store.filter p with
  | None => (first, Thrown)
  | Some f =>
      (first ++
       [ setFilterCutoff (Store.cutoff f);
         setFilterResonance (Store.resonance f);
         setFilterMode (Store.mode f);
         setFilterEnabled (Store.filter_enabled f);
         setLFORate (Store.lfo_rate l);
         setLFODepth (Store.lfo_depth l);
         setLFOWaveform (Store.lfo_waveform l);
         setLFOToFilter (Store.lfo_enabled l);
         setDetune (Store.detune p);
         setGlideTime
           (if Store.glide_enabled (Store.glide x)
            then Store.glide_time (Store.glide x) else 0%Qc);
         setTremolo (Store.tremolo_enabled (Store.tremolo x))
           (Store.tremolo_rate (Store.tremolo x)) (Store.tremolo_depth (Store.tremolo x));
         setFlanger (Store.flanger_enabled (Store.flanger x))
           (Store.flanger_rate (Store.flanger x)) (Store.flanger_depth (Store.flanger x))
           (Store.flanger_feedback (Store.flanger x)) (Store.flanger_mix (Store.flanger x));
         setDelay (Store.delay_enabled (Store.delay x)) (Store.delay_time (Store.delay x))
           (Store.delay_feedback (Store.delay x)) (Store.delay_mix (Store.delay x));
         setReverb (Store.reverb_enabled (Store.reverb x))
           (Store.reverb_size (Store.reverb x)) (Store.reverb_damping (Store.reverb x)) ],
       Returned)
  end.

(** *** Loop restart *)

Definition loopRestartDetected (e : Env) (elapsedMs : Qc) (pb : Playback) : bool :=
  isLooping e && bool_decide (0 < loopDurationMs e)%Qc &&
  bool_decide (Num.Math_floor (lastTime pb / loopDurationMs e)
               < Num.Math_floor (elapsedMs / loopDurationMs e))%Z.

(** Pitches stopped by the sweep: every clip's tracked notes, clip by clip. *)
Definition sweepNotes (pb : Playback) : list Z :=
  flat_map snd (activeClips pb).

Definition loopRestart (pb : Playback) : Playback * Log :=
  ({| timelineNotes := []; lastTime := lastTime pb; activeClips := [];
      hasLooped := hasLooped pb; activeClipsWithParams := ∅;
      currentParametersClipId := None; scheduledNotes := ∅ |},
   tag LoopRestart (map timelineNoteOff (sweepNotes pb))).

(** *** One clip of the [timeline.forEach] *)

(** [activeClips.set(clip.id, new Set())]. *)
Definition track (cid : string) (pb : Playback) : Playback :=
  {| timelineNotes := timelineNotes pb; lastTime := lastTime pb;
     activeClips := Ordered.set cid [] (activeClips pb);
     hasLooped := hasLooped pb;
     activeClipsWithParams := activeClipsWithParams pb;
     currentParametersClipId := currentParametersClipId pb;
     scheduledNotes := scheduledNotes pb |}.

(** First time the clip is seen playing: start tracking it and, under the
    source's guard, apply the parameters its pattern captured; the clip is
    recorded as their owner once all of them are applied, so not when
    applying them throws. *)
Definition initClipTracking (clip : Store.TimelineClip) (p : Store.Pattern)
    (pb : Playback) : Playback * Log * Completion :=
  let cid := Store.clip_id clip in
  match Store.capturedParameters p with
  | Some params =>
      if negb (bool_decide (currentParametersClipId pb = Some cid)) then
        match applyParameters params with
        | (cs, Returned) =>
            ({| timelineNotes := timelineNotes pb; lastTime := lastTime pb;
                activeClips := Ordered.set cid [] (activeClips pb);
                hasLooped := hasLooped pb;
                activeClipsWithParams := {[cid]} ∪ activeClipsWithParams pb;
                currentParametersClipId := Some cid;
                scheduledNotes := scheduledNotes pb |},
             tag (ClipPlaying cid) cs, Returned)
        | (cs, Thrown) => (track cid pb, tag (ClipPlaying cid) cs, Thrown)
        end
      else (track cid pb, [], Returned)
  | None => (track cid pb, [], Returned)
  end.

Definition tolerance : Qc := Num.ofZ 30.

(** Body of [pattern.notes.forEach]. *)
Definition dispatchNote (clip : Store.TimelineClip) (relativeTimeMs : Qc)
    (acc : Playback * Log) (note : Store.RecordedNote) : Playback * Log :=
  let '(pb, log) := acc in
  let cid := Store.clip_id clip in
  let key := noteKey clip note in
  let m := Store.midiNote note in
  let timeDiff := Num.Math_abs (relativeTimeMs - Store.time note) in
  if Num.ltb timeDiff tolerance && negb (bool_decide (key ∈ scheduledNotes pb)) then
    match Store.type note with
    | Store.TNoteOn =>
        let retrigger :=
          if Ordered.has m (timelineNotes pb) then [timelineNoteOff m] else [] in
        ({| timelineNotes := Ordered.add m (timelineNotes pb);
            lastTime := lastTime pb;
            activeClips := Ordered.alter (Ordered.add m) cid (activeClips pb);
            hasLooped := hasLooped pb;
            activeClipsWithParams := activeClipsWithParams pb;
            currentParametersClipId := currentParametersClipId pb;
            scheduledNotes := {[key]} ∪ scheduledNotes pb |},
         log ++ tag (ClipPlaying cid)
                  (retrigger ++ [timelineNoteOn m (Store.velocity note)]))
    | Store.TNoteOff =>
        ({| timelineNotes := Ordered.remove m (timelineNotes pb);
            lastTime := lastTime pb;
            activeClips := Ordered.alter (Ordered.remove m) cid (activeClips pb);
            hasLooped := hasLooped pb;
            activeClipsWithParams := activeClipsWithParams pb;
            currentParametersClipId := currentParametersClipId pb;
            scheduledNotes := {[key]} ∪ scheduledNotes pb |},
         log ++ tag (ClipPlaying cid) [timelineNoteOff m])
    end
  else (pb, log).

(** The clip is tracked but no longer playing: its notes are stopped and
    its tracking dropped; if it owns the parameters, those of the store are
    applied and the owner is cleared, unless applying them throws. *)
Definition clipEnded (e : Env) (clip : Store.TimelineClip) (pb : Playback)
  : Playback * Log * Completion :=
  let cid := Store.clip_id clip in
  let activeNotes := default [] (Ordered.get cid (activeClips pb)) in
  let owner := bool_decide (currentParametersClipId pb = Some cid) in
  let '(restore, completion) :=
    if owner then applyParameters (globalParameters e) else ([], Returned) in
  ({| timelineNotes :=
        fold_left (λ tn m, Ordered.remove m tn) activeNotes (timelineNotes pb);
      lastTime := lastTime pb;
      activeClips := Ordered.mremove cid (activeClips pb);
      hasLooped := hasLooped pb;
      activeClipsWithParams := activeClipsWithParams pb ∖ {[cid]};
      currentParametersClipId :=
        match completion with
        | Returned => if owner then None else currentParametersClipId pb
        | Thrown => currentParametersClipId pb
        end;
      scheduledNotes := scheduledNotes pb |},
   tag (ClipEnded cid) (map timelineNoteOff activeNotes ++ restore),
   completion).

Definition isClipPlaying (e : Env) (currentBeat : Qc)
    (clip : Store.TimelineClip) (p : Store.Pattern) : bool :=
  let clipStartBeat := Store.startTime clip in
  let clipLengthBeats := (Store.length p * bpm e / Num.ofZ 60)%Qc in
  let clipEndBeat := (clipStartBeat + clipLengthBeats)%Qc in
  Num.leb clipStartBeat currentBeat && Num.ltb currentBeat clipEndBeat.

(** Body of [timeline.forEach]: the turn of one clip.  When the tracking of
    a clip seen for the first time throws, its notes are not dispatched. *)
Definition clipStep (e : Env) (currentBeat : Qc)
    (acc : Playback * Log) (clip : Store.TimelineClip) : Playback * Log * Completion :=
  let '(pb, log) := acc in
  match findPattern (patterns e) (Store.patternId clip) with
  | None => (pb, log, Returned)
  | Some p =>
      let cid := Store.clip_id clip in
      if isClipPlaying e currentBeat clip p then
        let relativeTimeMs := ((currentBeat - Store.startTime clip) * beatDuration e)%Qc in
        let '(pb1, log1, completion) :=
          if negb (Ordered.mhas cid (activeClips pb))
          then initClipTracking clip p pb else (pb, [], Returned) in
        match completion with
        | Returned =>
            (fold_left (dispatchNote clip relativeTimeMs) (Store.notes p)
               (pb1, log ++ log1), Returned)
        | Thrown => (pb1, log ++ log1, Thrown)
        end
      else if Ordered.mhas cid (activeClips pb) then
        let '(pb1, log1, completion) := clipEnded e clip pb in
        (pb1, log ++ log1, completion)
      else (pb, log, Returned)
  end.

(** [timeline.forEach]: the clips take their turns in order, and an
    exception in a turn ends the pass. *)
Fixpoint forEachClip (e : Env) (currentBeat : Qc) (clips : list Store.TimelineClip)
    (acc : Playback * Log) : Playback * Log * Completion :=
  match clips with
  | [] => (acc, Returned)
  | clip :: clips' =>
      match clipStep e currentBeat acc clip with
      | (acc', Returned) => forEachClip e currentBeat clips' acc'
      | (acc', Thrown) => (acc', Thrown)
      end
  end.

(** *** The interval callback *)

(** [stopPlayback()], as far as the engine and [playbackRef] go. *)
Definition stopPlayback (pb : Playback) : Playback * Log :=
  ({| timelineNotes := []; lastTime := lastTime pb; activeClips := [];
      hasLooped := hasLooped pb;
      activeClipsWithParams := activeClipsWithParams pb;
      currentParametersClipId := currentParametersClipId pb;
      scheduledNotes := scheduledNotes pb |},
   tag StopPlayback (map (λ m, noteOff m true) (timelineNotes pb))).

Definition set_lastTime (t : Qc) (pb : Playback) : Playback :=
  {| timelineNotes := timelineNotes pb; lastTime := t;
     activeClips := activeClips pb; hasLooped := hasLooped pb;
     activeClipsWithParams := activeClipsWithParams pb;
     currentParametersClipId := currentParametersClipId pb;
     scheduledNotes := scheduledNotes pb |}.

Definition pruneScheduled (pb : Playback) : Playback :=
  if bool_decide (1000 < size (scheduledNotes pb)) then
    {| timelineNotes := timelineNotes pb; lastTime := lastTime pb;
       activeClips := activeClips pb; hasLooped := hasLooped pb;
       activeClipsWithParams := activeClipsWithParams pb;
       currentParametersClipId := currentParametersClipId pb;
       scheduledNotes := ∅ |}
  else pb.

(** How one run of the interval callback ends: it runs to its end; an
    exception leaves it during the pass over the clips, the interval going
    on; or it stops the playback. *)
Inductive TickResult :=
| Running (pb : Playback) (log : Log) (playbackPosition : Qc)
| Aborted (pb : Playback) (log : Log) (playbackPosition : Qc)
| Halted (pb : Playback) (log : Log).

(** One run of the [setInterval] callback, [elapsedMs] after the start.  A
    pass that throws leaves [playbackRef] as it is at that point and skips
    the pruning of [scheduledNotes]. *)
Definition tick (e : Env) (elapsedMs : Qc) (pb : Playback) : TickResult :=
  let elapsedBeats := (effectiveElapsedMs e elapsedMs / beatDuration e)%Qc in
  if negb (isLooping e) && Num.leb (loopDurationMs e) elapsedMs then
    let '(pb', log) := stopPlayback pb in Halted pb' log
  else
    let '(pb1, log1) :=
      if loopRestartDetected e elapsedMs pb then loopRestart pb else (pb, []) in
    let currentBeat := elapsedBeats in
    let pb2 := set_lastTime elapsedMs pb1 in
    match forEachClip e currentBeat (timeline e) (pb2, log1) with
    | (pb3, log3, Returned) => Running (pruneScheduled pb3) log3 currentBeat
    | (pb3, log3, Thrown) => Aborted pb3 log3 currentBeat
    end.

Definition logOf (r : TickResult) : Log :=
  match r with Running _ log _ | Aborted _ log _ | Halted _ log => log end.


(** The interval firing at the successive elapsed times [ticks]: the state
    it leaves and everything it logged, until a tick halts playback. *)
Fixpoint runTicks (e : Env) (pb : Playback) (ticks : list Qc) : Playback * Log :=
  match ticks with
  | [] => (pb, [])
  | t :: ticks' =>
      match tick e t pb with
      | Running pb' log _ | Aborted pb' log _ =>
          let '(pb'', log') := runTicks e pb' ticks' in (pb'', log ++ log')
      | Halted pb' log => (pb', log)
      end
  end.

(** Number of ticks of the run on which the loop-restart branch is taken. *)
Fixpoint sweeps (e : Env) (pb : Playback) (ticks : list Qc) : nat :=
  match ticks with
  | [] => 0
  | t :: ticks' =>
      match tick e t pb with
      | Running pb' _ _ | Aborted pb' _ _ =>
          (if loopRestartDetected e t pb then 1 else 0) + sweeps e pb' ticks'
      | Halted _ _ => 0
      end
  end.

(** [playbackRef] as the component creates it, with an empty
    [scheduledNotes]. *)
Definition fresh : Playback :=
  {| timelineNotes := []; lastTime := 0%Qc; activeClips := [];
     hasLooped := false; activeClipsWithParams := ∅;
     currentParametersClipId := None; scheduledNotes := ∅ |}.

End Timeline.

(** ** The callbacks of the live part, run one at a time *)

Module EventLoop.
Import Engine ChordButtons.

Inductive Event :=
| ButtonDown (degree : nat) (chord : list Z) (eventTime : option Qc) (now r1 r2 : Qc)
| ButtonUp (degree : nat) (now : Qc)
| StepTimer (sid : nat) (now r1 r2 : Qc)
| GateTimer (sid : nat) (now : Qc)
| ArmRecording
| StopRecording.

Definition with_sequencer (st : State) (q : Store.Sequencer) : State :=
  {| activeButtons := activeButtons st; activeNotes := activeNotes st;
     arpIntervals := arpIntervals st; globalMidiNotes := globalMidiNotes st;
     buttonPressTime := buttonPressTime st; lastVelocity := lastVelocity st;
     sessions := sessions st; sequencer := q |}.

Definition step (c : Config) (st : State) (ev : Event) : option (State * list call) :=
  match ev with
  | ButtonDown d chord et now r1 r2 => handleButtonDown c st d chord et now r1 r2
  | ButtonUp d now => Some (handleButtonUp c st d now)
  | StepTimer sid now r1 r2 => stepTimer st sid now r1 r2
  | GateTimer sid now => Some (gateTimer st sid now)
  | ArmRecording =>
      Some (with_sequencer st (PatternRecorder.enableRecording (sequencer st)), [])
  | StopRecording =>
      Some (with_sequencer st (PatternRecorder.stopRecording (sequencer st)), [])
  end.

(** Run the events in order and collect the engine calls. *)
Fixpoint run (c : Config) (st : State) (evs : list Event) : option (State * list call) :=
  match evs with
  | [] => Some (st, [])
  | ev :: evs' =>
      '(st1, tr1) ← step c st ev;
      '(st2, tr2) ← run c st1 evs';
      Some (st2, tr1 ++ tr2)
  end.

(** A button press as the ownership manager sees it. *)
Record Press := {
  press_degree : nat;
  press_chord : list Z;
  press_eventTime : option Qc;
  press_now : Qc }.

Definition down (p : Press) : Event :=
  ButtonDown (press_degree p) (press_chord p) (press_eventTime p) (press_now p) 0%Qc 0%Qc.

Definition up (r : nat * Qc) : Event := ButtonUp r.1 r.2.

Definition timer (sid : nat) (tk : Qc * Qc * Qc) : Event :=
  StepTimer sid tk.1.1 tk.1.2 tk.2.

End EventLoop.

(** ** Notions used by the statements *)

Module Props.
Import Engine.

(** The sources currently holding pitch [p]. *)
Definition holders (g : gmap Z (gset nat)) (p : Z) : gset nat := default ∅ (g !! p).

(** No empty holder set is kept in the map. *)
Definition no_empty_entry (g : gmap Z (gset nat)) : Prop :=
  ∀ p hb, g !! p = Some hb → hb ≠ ∅.

(** The pitches of the live-pool note-on (resp. note-off) calls, in order. *)
Definition sounded (tr : list call) : list Z :=
  omap (λ c, match c with noteOn p _ => Some p | _ => None end) tr.

Definition stopped (tr : list call) : list Z :=
  omap (λ c, match c with noteOff p _ => Some p | _ => None end) tr.

(** [m] is the largest element of the non-empty list [x :: xs]. *)
Definition is_maximum (m : Qc) (x : Qc) (xs : list Qc) : Prop :=
  m ∈ x :: xs ∧ ∀ y, y ∈ x :: xs → (y ≤ m)%Qc.

(** The ends, in milliseconds, of those of [clips] whose pattern exists: the
    clip's start converted from beats plus the pattern's length. *)
Definition endsFrom (e : Timeline.Env) (clips : list Store.TimelineClip) : list Qc :=
  omap (λ clip,
          p ← Timeline.findPattern (Timeline.patterns e) (Store.patternId clip);
          Some (Store.startTime clip * Timeline.beatDuration e
                + Store.length p * Num.ofZ 1000)%Qc)
       clips.

Definition clipEndsMs (e : Timeline.Env) : list Qc := endsFrom e (Timeline.timeline e).

(** Successive tick times never go back. *)
Fixpoint nondecreasing_from (t0 : Qc) (ts : list Qc) : Prop :=
  match ts with
  | [] => True
  | t :: ts' => (t0 ≤ t)%Qc ∧ nondecreasing_from t ts'
  end.

(** The calls of one clip all come from the same branch. *)
Definition one_branch (clip : Store.TimelineClip) (seg : Timeline.Log) : Prop :=
  Forall (λ x, x.1 = Timeline.ClipPlaying (Store.clip_id clip)) seg ∨
  Forall (λ x, x.1 = Timeline.ClipEnded (Store.clip_id clip)) seg.

(** The calls made at the turn of [clip] in a pass at [beat]: none when its
    pattern is missing, calls made for the playing clip when it is playing,
    and calls made for the ended clip otherwise. *)
Definition turn (e : Timeline.Env) (beat : Qc) (clip : Store.TimelineClip)
    (seg : Timeline.Log) : Prop :=
  match Timeline.findPattern (Timeline.patterns e) (Store.patternId clip) with
  | None => seg = []
  | Some p =>
      if Timeline.isClipPlaying e beat clip p
      then Forall (λ x, x.1 = Timeline.ClipPlaying (Store.clip_id clip)) seg
      else Forall (λ x, x.1 = Timeline.ClipEnded (Store.clip_id clip)) seg
  end.

(** [log] is made of one segment for each of [clips], in their order. *)
Definition visited_in_order (e : Timeline.Env) (beat : Qc)
    (clips : list Store.TimelineClip) (log : Timeline.Log) : Prop :=
  ∃ segs, log = concat segs ∧ Forall2 (turn e beat) clips segs.

(** In a log, the end of a clip never force-stops a pitch begun earlier in
    the log for a clip that stands after the ended one in [clips]. *)
Definition begin_safe_from_earlier (clips : list Store.TimelineClip)
    (log : Timeline.Log) : Prop :=
  ∀ i j ia ib a b p v,
    i < j →
    log !! i = Some (Timeline.ClipPlaying a, timelineNoteOn p v) →
    log !! j = Some (Timeline.ClipEnded b, timelineNoteOff p) →
    Store.clip_id <$> clips !! ia = Some a →
    Store.clip_id <$> clips !! ib = Some b →
    ia < ib.

(** Every call of a pass over [clips] is made for one of them. *)
Definition from_clips (clips : list Store.TimelineClip) (seg : Timeline.Log) : Prop :=
  ∀ k o c, seg !! k = Some (o, c) →
    ∃ i clip, clips !! i = Some clip ∧
      (o = Timeline.ClipPlaying (Store.clip_id clip) ∨
       o = Timeline.ClipEnded (Store.clip_id clip)).

(** A timeline note-on or note-off, as opposed to a parameter setter. *)
Definition is_note_call (c : call) : Prop :=
  match c with
  | timelineNoteOn _ _ | timelineNoteOff _ => True
  | _ => False
  end.

(** In the log of one pass over [clips], whenever a call made for a playing
    clip comes before a call made for an ended clip, the playing clip stands
    before the ended one in [clips]. *)
Definition in_timeline_order (clips : list Store.TimelineClip) (seg : Timeline.Log) : Prop :=
  ∀ i j a b ca cb,
    i < j →
    seg !! i = Some (Timeline.ClipPlaying a, ca) →
    seg !! j = Some (Timeline.ClipEnded b, cb) →
    ∃ ia ib, ia < ib ∧
      Store.clip_id <$> clips !! ia = Some a ∧
      Store.clip_id <$> clips !! ib = Some b.

(** No pitch begun for a playing clip is force-stopped later in the same
    log by the end of a clip. *)
Definition begin_survives (log : Timeline.Log) : Prop :=
  ∀ i j a b p v,
    i < j →
    log !! i = Some (Timeline.ClipPlaying a, timelineNoteOn p v) →
    log !! j ≠ Some (Timeline.ClipEnded b, timelineNoteOff p).

(** The octave expansion in the specification's words: the chord, followed
    by the chord one octave up, and so on, once for each octave. *)
Fixpoint octave_expanded (octaves : nat) (chord : list Z) : list Z :=
  match octaves with
  | 0 => []
  | S k => chord ++ octave_expanded k ((λ note, (note + 12)%Z) <$> chord)
  end.

(** The up-down order in the specification's words: the ascending sequence
    followed by its reverse, once the second copy of the top note and the
    final copy of the bottom note have been taken out. *)
Definition updown_spec (ascending : list Z) : list Z :=
  let both := ascending ++ rev ascending in
  let n := List.length ascending in
  removelast (take n both ++ drop (S n) both).

(** The entry of pitch [p] once button [d] has taken its [chord], and the
    number of note-on calls for [p] that this adds. *)
Definition heldAfter (d : nat) (chord : list Z) (g : gmap Z (gset nat)) (p : Z)
  : option (gset nat) :=
  if bool_decide (p ∈ chord) then Some ({[d]} ∪ holders g p) else g !! p.

Definition onsAdded (chord : list Z) (g : gmap Z (gset nat)) (p : Z) : nat :=
  if bool_decide (p ∈ chord) && bool_decide (holders g p = ∅) then 1 else 0.

(** An entry once button [d] has left it, and whether [d] was its last
    holder. *)
Definition leave (d : nat) (o : option (gset nat)) : option (gset nat) :=
  match o with
  | Some hb => if bool_decide (hb ∖ {[d]} = ∅) then None else Some (hb ∖ {[d]})
  | None => None
  end.

Definition lastOut (d : nat) (o : option (gset nat)) : bool :=
  match o with
  | Some hb => bool_decide (hb ∖ {[d]} = ∅)
  | None => false
  end.

(** The entry of pitch [p] once button [d] has released its [chord], and the
    number of note-off calls for [p] that this adds. *)
Definition releasedAfter (d : nat) (chord : list Z) (g : gmap Z (gset nat)) (p : Z)
  : option (gset nat) :=
  if bool_decide (p ∈ chord) then leave d (g !! p) else g !! p.

Definition offsAdded (d : nat) (chord : list Z) (g : gmap Z (gset nat)) (p : Z) : nat :=
  if bool_decide (p ∈ chord) && lastOut d (g !! p) then 1 else 0.

(** A press or a release of a chord button. *)
Definition isButton (ev : EventLoop.Event) : Prop :=
  match ev with
  | EventLoop.ButtonDown _ _ _ _ _ _ | EventLoop.ButtonUp _ _ => True
  | _ => False
  end.

(** Along the run of [evs] from [st], pitch [p] is held after every event but
    the last: the triggers that hold it overlap. *)
Fixpoint heldUntilEnd (c : ChordButtons.Config) (p : Z) (st : ChordButtons.State)
    (evs : list EventLoop.Event) : bool :=
  match evs with
  | [] => true
  | ev :: evs' =>
      match EventLoop.step c st ev with
      | Some (st1, _) =>
          match evs' with
          | [] => true
          | _ => negb (bool_decide (holders (ChordButtons.globalMidiNotes st1) p = ∅))
          end && heldUntilEnd c p st1 evs'
      | None => false
      end
  end.

Definition degrees (presses : list EventLoop.Press) : list nat :=
  EventLoop.press_degree <$> presses.

End Props.

(** ** Concrete inputs used by the examples below *)

Module LiveExamples.
Import Engine ChordButtons EventLoop.

Definition play_config : Config :=
  {| audioEngine := true; currentMode := Store.play;
     arpSettings := {| Store.pattern := Store.up; Store.speed := Num.ofZ 1;
                       Store.octaves := 1; Store.gate := Num.ratio 8 10 |};
     bpm := Num.ofZ 120 |}.

Definition idle_sequencer : Store.Sequencer :=
  {| Store.isRecording := false; Store.recordingStartTime := 0%Qc;
     Store.recordedNotes := []; Store.patterns := []; Store.timeline := [] |}.

Definition press_I : Press :=
  {| press_degree := 0; press_chord := [60; 64; 67]%Z;
     press_eventTime := Some (Num.ofZ 1000); press_now := Num.ofZ 1000 |}.

(** Three presses whose holds of pitch 60 overlap in a chain: button 0 is
    released before button 3 is pressed. *)
Definition chainOfThree : list Event :=
  [ ButtonDown 0 [60; 64; 67]%Z None (Num.ofZ 1000) 0%Qc 0%Qc;
    ButtonDown 5 [57; 60; 64]%Z None (Num.ofZ 1200) 0%Qc 0%Qc;
    ButtonUp 0 (Num.ofZ 1500);
    ButtonDown 3 [53; 57; 60]%Z None (Num.ofZ 1700) 0%Qc 0%Qc;
    ButtonUp 5 (Num.ofZ 2000);
    ButtonUp 3 (Num.ofZ 2500) ].

Definition press_vi : Press :=
  {| press_degree := 5; press_chord := [57; 60; 64]%Z;
     press_eventTime := Some (Num.ofZ 1200); press_now := Num.ofZ 1200 |}.

Definition held_I : State :=
  default (initial idle_sequencer)
    (fst <$> handleButtonDown play_config (initial idle_sequencer) 0
               [60; 64; 67]%Z None (Num.ofZ 1000) 0%Qc 0%Qc).

Definition updown_config : Config :=
  {| audioEngine := true; currentMode := Store.arpeggiator;
     arpSettings := {| Store.pattern := Store.updown; Store.speed := Num.ofZ 1;
                       Store.octaves := 1; Store.gate := Num.ratio 8 10 |};
     bpm := Num.ofZ 120 |}.

(** The same over two octaves. *)
Definition updown_two_octaves : Config :=
  {| audioEngine := true; currentMode := Store.arpeggiator;
     arpSettings := {| Store.pattern := Store.updown; Store.speed := Num.ofZ 1;
                       Store.octaves := 2; Store.gate := Num.ratio 8 10 |};
     bpm := Num.ofZ 120 |}.

Definition ten_ticks : list (Qc * Qc * Qc) :=
  (λ k, (Num.ofZ (1000 + 125 * Z.of_nat k), 0%Qc, 0%Qc)) <$> seq 1 10.

Definition five_ticks : list (Qc * Qc * Qc) :=
  [(Num.ofZ 1125, 0%Qc, 0%Qc); (Num.ofZ 1250, 0%Qc, 0%Qc);
   (Num.ofZ 1375, 0%Qc, 0%Qc); (Num.ofZ 1500, 0%Qc, 0%Qc);
   (Num.ofZ 1625, 0%Qc, 0%Qc)].

Definition arpConfig (tempo : Z) (gate : Qc) : Config :=
  {| audioEngine := true; currentMode := Store.arpeggiator;
     arpSettings := {| Store.pattern := Store.up; Store.speed := Num.ofZ 1;
                       Store.octaves := 1; Store.gate := gate |};
     bpm := Num.ofZ tempo |}.

(** Hold button 0 for 50 ms. *)
Definition pressAndRelease : list Event :=
  [ ButtonDown 0 [60; 64; 67]%Z None (Num.ofZ 1000) 0%Qc (Num.ratio 1 2);
    ButtonUp 0 (Num.ofZ 1050) ].

(** Recording armed, button 0 held at 40 bpm (a step every 375 ms, its gate
    closing 300 ms later); the recorder is stopped and armed again while
    the gate timeout of the second step is pending. *)
Definition rearmDuringGate : list Event :=
  [ ArmRecording;
    ButtonDown 0 [60; 64; 67]%Z None (Num.ofZ 1000) 0%Qc (Num.ratio 1 2);
    GateTimer 0 (Num.ofZ 1300);
    StepTimer 0 (Num.ofZ 1375) 0%Qc (Num.ratio 1 2);
    StopRecording;
    ArmRecording;
    GateTimer 0 (Num.ofZ 1675) ].

(** What is left of a run: the pitches started and stopped, whether the
    step interval of button 0 is still registered, and for each closure
    the pitch it believes sounding and the pitch of its pending timeout. *)
Definition arpView (r : State * list call)
  : list Z * list Z * option nat * list (option Z * option Z) :=
  (Props.sounded r.2, Props.stopped r.2, arpIntervals r.1 !! 0,
   (λ s, (currentPlayingNote s, to_noteToPlay <$> noteOffTimeout s)) <$> sessions r.1).

Definition recorderView (r : State * list call)
  : bool * Qc * list Store.RecordedNote :=
  (Store.isRecording (sequencer r.1), Store.recordingStartTime (sequencer r.1),
   Store.recordedNotes (sequencer r.1)).

End LiveExamples.

Module TimelineExamples.
Import Engine Timeline.

(** The [synthesis] and [effects] slices as the store creates them. *)
Definition defaultParameters : Store.Parameters :=
  {| Store.waveform := Store.sine;
     Store.adsr := {| Store.attack := Num.ratio 1 100; Store.decay := Num.ratio 2 10;
                      Store.sustain := Num.ofZ 1; Store.release := Num.ratio 3 10 |};
     Store.filter := None;
     Store.lfo := {| Store.lfo_rate := Num.ofZ 1; Store.lfo_depth := 0%Qc;
                     Store.lfo_waveform := 0; Store.lfo_enabled := false |};
     Store.detune := 0%Qc;
     Store.effects :=
       {| Store.glide := {| Store.glide_enabled := false; Store.glide_time := 0%Qc |};
          Store.tremolo := {| Store.tremolo_enabled := false;
                              Store.tremolo_rate := Num.ofZ 5;
                              Store.tremolo_depth := Num.ratio 1 2 |};
          Store.flanger := {| Store.flanger_enabled := false;
                              Store.flanger_rate := Num.ratio 1 2;
                              Store.flanger_depth := Num.ofZ 5;
                              Store.flanger_feedback := Num.ratio 1 2;
                              Store.flanger_mix := Num.ratio 1 2 |};
          Store.delay := {| Store.delay_enabled := false;
                            Store.delay_time := Num.ratio 1 2;
                            Store.delay_feedback := Num.ratio 3 10;
                            Store.delay_mix := Num.ratio 3 10 |};
          Store.reverb := {| Store.reverb_enabled := false;
                             Store.reverb_size := Num.ratio 1 2;
                             Store.reverb_damping := Num.ratio 1 2;
                             Store.reverb_mix := Num.ratio 1 2 |} |} |}.

(** What the recorder captures from that store once waveform [w] is
    selected. *)
Definition withWaveform (w : Store.WaveformType) : Store.Parameters :=
  PatternRecorder.capture
    {| Store.waveform := w; Store.adsr := Store.adsr defaultParameters;
       Store.filter := Store.filter defaultParameters;
       Store.lfo := Store.lfo defaultParameters;
       Store.detune := Store.detune defaultParameters;
       Store.effects := Store.effects defaultParameters |}.

(** A half-second pattern holding one note-on and no note-off. *)
Definition openNote (pid : string) (params : option Store.Parameters) : Store.Pattern :=
  {| Store.id := pid; Store.name := pid;
     Store.notes := [ChordButtons.mkNote 0%Qc Store.TNoteOn 60 (Num.ratio 7 10) 1];
     Store.length := Num.ratio 1 2; Store.color := "#ef4444";
     Store.capturedParameters := params |}.

Definition clipAt (cid pid : string) (start : Z) (track : nat) : Store.TimelineClip :=
  {| Store.clip_id := cid; Store.patternId := pid;
     Store.startTime := Num.ofZ start; Store.track := track |}.

(** Clip A on beat 1 was placed before clip B on beat 0; at 120 bpm B ends
    on the tick on which A starts. *)
Definition backToBack : Env :=
  {| timeline := [clipAt "A" "p" 1 0; clipAt "B" "p" 0 1];
     patterns := [openNote "p" None];
     bpm := Num.ofZ 120; totalBeats := Num.ofZ 32; isLooping := true;
     globalParameters := defaultParameters |}.

(** Clip A (two seconds, sawtooth) and clip B (square) overlap from beat 1. *)
Definition overlapping : Env :=
  {| timeline := [clipAt "A" "saw" 0 0; clipAt "B" "sq" 1 1];
     patterns :=
       [ {| Store.id := "saw"; Store.name := "saw";
            Store.notes := [ChordButtons.mkNote 0%Qc Store.TNoteOn 60 (Num.ratio 7 10) 1;
                            ChordButtons.mkNote (Num.ofZ 1500) Store.TNoteOff 60 0%Qc 1];
            Store.length := Num.ofZ 2; Store.color := "#ef4444";
            Store.capturedParameters := Some (withWaveform Store.sawtooth) |};
         openNote "sq" (Some (withWaveform Store.square)) ];
     bpm := Num.ofZ 120; totalBeats := Num.ofZ 32; isLooping := true;
     globalParameters := defaultParameters |}.

(** Clip B, recorded with a square wave, ends on the beat on which clip C,
    placed after it, starts. *)
Definition ownerEnds : Env :=
  {| timeline := [clipAt "B" "sq" 0 0; clipAt "C" "sq" 1 1];
     patterns := [openNote "sq" (Some (withWaveform Store.square))];
     bpm := Num.ofZ 120; totalBeats := Num.ofZ 32; isLooping := true;
     globalParameters := defaultParameters |}.

Definition noClips : Env :=
  {| timeline := []; patterns := [];
     bpm := Num.ofZ 120; totalBeats := Num.ofZ 32; isLooping := true;
     globalParameters := defaultParameters |}.

(** One eight-second pattern on beat 0. *)
Definition eightSeconds : Env :=
  {| timeline := [clipAt "A" "long" 0 0];
     patterns :=
       [ {| Store.id := "long"; Store.name := "long";
            Store.notes := [ChordButtons.mkNote 0%Qc Store.TNoteOn 60 (Num.ratio 7 10) 1];
            Store.length := Num.ofZ 8; Store.color := "#ef4444";
            Store.capturedParameters := None |} ];
     bpm := Num.ofZ 120; totalBeats := Num.ofZ 32; isLooping := true;
     globalParameters := defaultParameters |}.

End TimelineExamples.

(** ** ChordButtons: the keyboard handlers *)

Module Keyboard.
Import Engine ChordButtons.

(** What the key handlers read of a [KeyboardEvent]: the tag name and the
    editable flag of its target, and its [key]. *)
Record KeyboardEvent := {
  tagName : string;
  isContentEditable : bool;
  key : string }.

(** The user is typing in an input, a textarea or an editable element. *)
Definition typing (e : KeyboardEvent) : bool :=
  bool_decide (tagName e = "INPUT"%string) ||
  bool_decide (tagName e = "TEXTAREA"%string) ||
  isContentEditable e.

(** [key >= '1' && key <= '7'], a comparison of strings. *)
Definition isChordKey (k : string) : bool :=
  String.leb "1" k && String.leb k "7".

Definition digit (a : Ascii.ascii) : option Z :=
  let n := Z.of_N (Ascii.N_of_ascii a) in
  if bool_decide (48 ≤ n ≤ 57)%Z then Some (n - 48)%Z else None.

Fixpoint digits (acc : Z) (s : string) : Z :=
  match s with
  | String a s' =>
      match digit a with
      | Some d => digits (10 * acc + d) s'
      | None => acc
      end
  | EmptyString => acc
  end.

(** [parseInt(key)] for a key that starts with a decimal digit other than
    0, which is what [isChordKey] lets through: the number written by its
    leading digits. *)
Definition parseInt (k : string) : Z := digits 0 k.

Definition degreeOf (k : string) : nat := Z.to_nat (parseInt k - 1).

(** The refs of the component, with [pressedKeysRef]. *)
Record State := {
  pressedKeys : gset string;
  buttons : ChordButtons.State }.

(** [handleButtonDown(degree)] as the key handler calls it, without an event
    time.  [chords degree] is the chord that [generateChord] returns for the
    button; it is [None] when computing it throws, as reading
    [chordButtons[degree].inversion] does for a button that does not exist.
    The handler's [try] then catches the exception, after the press time has
    been stored and before anything else is. *)
Definition buttonDown (c : Config) (chords : nat → option (list Z))
    (st : ChordButtons.State) (degree : nat) (now r1 r2 : Qc)
  : option (ChordButtons.State * list call) :=
  match chords degree with
  | Some chord => handleButtonDown c st degree chord None now r1 r2
  | None =>
      if negb (audioEngine c) || bool_decide (degree ∈ activeButtons st) then
        Some (st, [])
      else
        Some ({| activeButtons := activeButtons st; activeNotes := activeNotes st;
                 arpIntervals := arpIntervals st;
                 globalMidiNotes := globalMidiNotes st;
                 buttonPressTime := <[degree := now]> (buttonPressTime st);
                 lastVelocity := lastVelocity st;
                 sessions := sessions st; sequencer := sequencer st |}, [])
  end.

Definition handleKeyDown (c : Config) (chords : nat → option (list Z))
    (ks : State) (e : KeyboardEvent) (now r1 r2 : Qc)
  : option (State * list call) :=
  if typing e then Some (ks, [])
  else if isChordKey (key e) then
    if bool_decide (key e ∈ pressedKeys ks) then Some (ks, [])
    else
      '(st, tr) ← buttonDown c chords (buttons ks) (degreeOf (key e)) now r1 r2;
      Some ({| pressedKeys := {[key e]} ∪ pressedKeys ks; buttons := st |}, tr)
  else Some (ks, []).

Definition handleKeyUp (c : Config) (ks : State) (e : KeyboardEvent) (now : Qc)
  : State * list call :=
  if typing e then (ks, [])
  else if isChordKey (key e) then
    let '(st, tr) := handleButtonUp c (buttons ks) (degreeOf (key e)) now in
    ({| pressedKeys := pressedKeys ks ∖ {[key e]}; buttons := st |}, tr)
  else (ks, []).

(** The key listeners, run one event at a time. *)
Inductive KeyEvent :=
| KeyDown (e : KeyboardEvent) (now r1 r2 : Qc)
| KeyUp (e : KeyboardEvent) (now : Qc).

Definition step (c : Config) (chords : nat → option (list Z)) (ks : State)
    (ev : KeyEvent) : option (State * list call) :=
  match ev with
  | KeyDown e now r1 r2 => handleKeyDown c chords ks e now r1 r2
  | KeyUp e now => Some (handleKeyUp c ks e now)
  end.

Fixpoint run (c : Config) (chords : nat → option (list Z)) (ks : State)
    (evs : list KeyEvent) : option (State * list call) :=
  match evs with
  | [] => Some (ks, [])
  | ev :: evs' =>
      '(ks1, tr1) ← step c chords ks ev;
      '(ks2, tr2) ← run c chords ks1 evs';
      Some (ks2, tr1 ++ tr2)
  end.

End Keyboard.

(** ** Notions used by the statements about the live part *)

Module LiveProps.
Import Engine ChordButtons.

(** Every holder of a pitch is an active button whose stored chord contains
    the pitch. *)
Definition holders_active (st : State) : Prop :=
  ∀ p hb d, globalMidiNotes st !! p = Some hb → d ∈ hb →
    d ∈ activeButtons st ∧ ∃ chord, activeNotes st !! d = Some chord ∧ p ∈ chord.

(** The three facts a run in play mode keeps. *)
Definition play_inv (st : State) : Prop :=
  Props.no_empty_entry (globalMidiNotes st) ∧ holders_active st ∧ sessions st = [].

(** 1 when some button holds the pitch, 0 otherwise. *)
Definition sounding (g : gmap Z (gset nat)) (P : Z) : nat :=
  if decide (Props.holders g P = ∅) then 0 else 1.

(** The note-on (resp. note-off) entries that one button event records for
    its chord. *)
Definition pressedAt (t v : Qc) (d : nat) (chord : list Z) : list Store.RecordedNote :=
  map (λ m, mkNote t Store.TNoteOn m v (d + 1)) chord.

Definition releasedAt (t : Qc) (d : nat) (chord : list Z) : list Store.RecordedNote :=
  map (λ m, mkNote t Store.TNoteOff m 0%Qc (d + 1)) chord.

(** Reading a trace of live calls as a single voice: [Some cur] when every
    note-on found the voice silent and every note-off stopped the pitch that
    was sounding, [cur] being what sounds at the end. *)
Fixpoint voice (cur : option Z) (tr : list call) : option (option Z) :=
  match tr with
  | [] => Some cur
  | noteOn n _ :: tr' =>
      match cur with None => voice (Some n) tr' | Some _ => None end
  | noteOff n _ :: tr' =>
      if bool_decide (cur = Some n) then voice None tr' else None
  | _ :: tr' => voice cur tr'
  end.

(** The pitches an arpeggio over [chord] may play: a chord note raised by a
    number of octaves below [octaves]. *)
Definition inExtension (octaves : nat) (chord : list Z) (x : Z) : Prop :=
  ∃ m oct, m ∈ chord ∧ oct < octaves ∧ x = (m + Z.of_nat oct * 12)%Z.

Definition isButtonDown (ev : EventLoop.Event) : Prop :=
  match ev with EventLoop.ButtonDown _ _ _ _ _ _ => True | _ => False end.

(** The [Math.random()] draws that the event feeds to the choice of the
    next note lie in the unit interval. *)
Definition unitDraws (ev : EventLoop.Event) : Prop :=
  match ev with
  | EventLoop.ButtonDown _ _ _ _ r _ | EventLoop.StepTimer _ _ r _ => (0 ≤ r ∧ r < 1)%Qc
  | _ => True
  end.

(** At most one arpeggiator closure exists; it plays [notes] and believes
    [cur] to be sounding, and no pitch has a holder. *)
Definition arp_inv (notes : list Z) (st : State) (cur : option Z) : Prop :=
  globalMidiNotes st = ∅ ∧
  match sessions st with
  | [] => cur = None
  | [s] => currentPlayingNote s = cur ∧ arpNotes s = notes
  | _ => False
  end.

(** A key-down of key [k], or a key-up delivered to a text field. *)
Definition repeatOrTyped (k : string) (ev : Keyboard.KeyEvent) : Prop :=
  match ev with
  | Keyboard.KeyDown e _ _ _ => Keyboard.key e = k
  | Keyboard.KeyUp e _ => Keyboard.typing e = true
  end.

End LiveProps.

Module RecordingExamples.
Import Engine ChordButtons EventLoop LiveExamples.

(** Recording armed and started by the press of button 0 at 1000 ms. *)
Definition recording_I : State :=
  default (initial idle_sequencer)
    (fst <$> run play_config (initial idle_sequencer)
               [ArmRecording; ButtonDown 0 [60; 64; 67]%Z None (Num.ofZ 1000) 0%Qc 0%Qc]).

(** After the press at 1000 ms: the gate of the first step closes, the
    second step plays, the button is released and the gate of the second
    step closes. *)
Definition stepsAndGates : list Event :=
  [ GateTimer 0 (Num.ofZ 1100);
    StepTimer 0 (Num.ofZ 1125) 0%Qc (Num.ratio 1 2);
    ButtonUp 0 (Num.ofZ 1150);
    GateTimer 0 (Num.ofZ 1225) ].

(** The chords of the seven buttons in C major, third octave. *)
Definition cMajor (degree : nat) : option (list Z) :=
  [ [60; 64; 67]; [62; 65; 69]; [64; 67; 71]; [65; 69; 72];
    [67; 71; 74]; [69; 72; 76]; [71; 74; 77] ]%Z !! degree.

Definition bodyKey (k : string) : Keyboard.KeyboardEvent :=
  {| Keyboard.tagName := "BODY"; Keyboard.isContentEditable := false;
     Keyboard.key := k |}.

Definition inputKey (k : string) : Keyboard.KeyboardEvent :=
  {| Keyboard.tagName := "INPUT"; Keyboard.isContentEditable := false;
     Keyboard.key := k |}.

Definition noKeys : Keyboard.State :=
  {| Keyboard.pressedKeys := ∅; Keyboard.buttons := initial idle_sequencer |}.

End RecordingExamples.

(** ** Timeline: the arranger (tracks, beats, clips and patterns) *)

Module TimelineEditor.
Import Engine.

Definition BEAT_WIDTH : Qc := Num.ofZ 60.     (* pixels per beat *)

Definition beatsToPixels (beats : Qc) : Qc := (beats * BEAT_WIDTH)%Qc.

(** [Math.round]: the nearest integer, a tie going up. *)
Definition Math_round (x : Qc) : Z := Num.Math_floor (x + Num.ratio 1 2).

Definition pixelsToBeats (pixels : Qc) : Z := Math_round (pixels / BEAT_WIDTH).

(** The two counters of the grid. *)
Record Grid := { trackCount : Z; totalBeats : Z }.

Definition initialGrid : Grid := {| trackCount := 4; totalBeats := 32 |}.

Definition addTrack (g : Grid) : Grid :=
  {| trackCount := trackCount g + 1; totalBeats := totalBeats g |}.

Definition removeTrack (g : Grid) : Grid :=
  if bool_decide (1 < trackCount g)%Z
  then {| trackCount := trackCount g - 1; totalBeats := totalBeats g |} else g.

Definition addBeats (count : Z) (g : Grid) : Grid :=
  {| trackCount := trackCount g; totalBeats := totalBeats g + count |}.

Definition removeBeats (count : Z) (g : Grid) : Grid :=
  if bool_decide (8 ≤ totalBeats g - count)%Z
  then {| trackCount := trackCount g; totalBeats := totalBeats g - count |} else g.

Inductive GridOp :=
| AddTrack
| RemoveTrack
| AddBeats (count : Z)
| RemoveBeats (count : Z).

Definition gridStep (g : Grid) (op : GridOp) : Grid :=
  match op with
  | AddTrack => addTrack g
  | RemoveTrack => removeTrack g
  | AddBeats count => addBeats count g
  | RemoveBeats count => removeBeats count g
  end.

(** What is being dragged: [draggedPattern] and [draggedClip]. *)
Record Drag := {
  draggedPattern : option Store.Pattern;
  draggedClip : option Store.TimelineClip }.

Definition set_timeline (q : Store.Sequencer) (tl : list Store.TimelineClip)
  : Store.Sequencer :=
  {| Store.isRecording := Store.isRecording q;
     Store.recordingStartTime := Store.recordingStartTime q;
     Store.recordedNotes := Store.recordedNotes q;
     Store.patterns := Store.patterns q; Store.timeline := tl |}.

(** The beat a drop snaps to: [clientX] is the pointer, [rectLeft] the left
    edge of the track, whose label is 32 pixels wide. *)
Definition startBeatOf (clientX rectLeft : Qc) : Qc :=
  let x := (clientX - rectLeft - Num.ofZ 32)%Qc in
  Num.Math_max 0%Qc (Num.ofZ (pixelsToBeats x)).

Definition moveTo (startBeat : Qc) (track : nat) (c : Store.TimelineClip)
  : Store.TimelineClip :=
  {| Store.clip_id := Store.clip_id c; Store.patternId := Store.patternId c;
     Store.startTime := startBeat; Store.track := track |}.

(** [handleTrackDrop(e, track)]; [now] is [Date.now().toString()]. *)
Definition handleTrackDrop (q : Store.Sequencer) (dr : Drag)
    (clientX rectLeft : Qc) (track : nat) (now : string) : Store.Sequencer * Drag :=
  let startBeat := startBeatOf clientX rectLeft in
  match draggedPattern dr with
  | Some p =>
      let newClip :=
        {| Store.clip_id := now; Store.patternId := Store.id p;
           Store.startTime := startBeat; Store.track := track |} in
      (set_timeline q (Store.timeline q ++ [newClip]),
       {| draggedPattern := None; draggedClip := draggedClip dr |})
  | None =>
      match draggedClip dr with
      | Some dc =>
          (set_timeline q
             (map (λ c, if bool_decide (Store.clip_id c = Store.clip_id dc)
                        then moveTo startBeat track c else c)
                  (Store.timeline q)),
           {| draggedPattern := None; draggedClip := None |})
      | None => (q, dr)
      end
  end.

Definition removeClip (clipId : string) (q : Store.Sequencer) : Store.Sequencer :=
  set_timeline q
    (List.filter (λ c, negb (bool_decide (Store.clip_id c = clipId))) (Store.timeline q)).

(** The delete button of a pattern in the library. *)
Definition deletePattern (pid : string) (q : Store.Sequencer) : Store.Sequencer :=
  {| Store.isRecording := Store.isRecording q;
     Store.recordingStartTime := Store.recordingStartTime q;
     Store.recordedNotes := Store.recordedNotes q;
     Store.patterns :=
       List.filter (λ p, negb (bool_decide (Store.id p = pid))) (Store.patterns q);
     Store.timeline :=
       List.filter (λ c, negb (bool_decide (Store.patternId c = pid))) (Store.timeline q) |}.

(** The effect of the playback engine as it sees the store. *)
Definition env (q : Store.Sequencer) (bpm totalBeats : Qc) (isLooping : bool)
    (global : Store.Parameters) : Timeline.Env :=
  {| Timeline.timeline := Store.timeline q; Timeline.patterns := Store.patterns q;
     Timeline.bpm := bpm; Timeline.totalBeats := totalBeats;
     Timeline.isLooping := isLooping; Timeline.globalParameters := global |}.

(** The cleanup of the playback effect, run when playback ends or its
    inputs change. *)
Definition cleanup (pb : Timeline.Playback) : Timeline.Playback * list call :=
  ({| Timeline.timelineNotes := []; Timeline.lastTime := Timeline.lastTime pb;
      Timeline.activeClips := []; Timeline.hasLooped := Timeline.hasLooped pb;
      Timeline.activeClipsWithParams := ∅;
      Timeline.currentParametersClipId := None;
      Timeline.scheduledNotes := Timeline.scheduledNotes pb |},
   map timelineNoteOff (Timeline.timelineNotes pb)).

(** The pause button while playing: [togglePlayback] clears [isPlaying],
    which runs the cleanup. *)
Definition pauseButton (pb : Timeline.Playback) : Timeline.Playback * list call :=
  cleanup pb.

(** The stop button while playing: [stopPlayback], then the cleanup that the
    cleared [isPlaying] runs. *)
Definition stopButton (pb : Timeline.Playback) : Timeline.Playback * list call :=
  let '(pb1, log1) := Timeline.stopPlayback pb in
  let '(pb2, tr2) := cleanup pb1 in
  (pb2, Timeline.calls log1 ++ tr2).

End TimelineEditor.

(** ** Notions used by the statements about the timeline *)

Module TimelineProps.
Import Engine Timeline.

(** The timeline pool read as one voice per pitch.  [poolVoice m s cs] follows
    the calls [cs] for pitch [m] from the state [s] (sounding or not): it is
    [None] when a timeline note-on for [m] arrives while [m] is sounding,
    and otherwise tells whether [m] sounds at the end. *)
Fixpoint poolVoice (m : Z) (s : bool) (cs : list call) : option bool :=
  match cs with
  | [] => Some s
  | timelineNoteOn n _ :: cs' =>
      if bool_decide (n = m) then (if s then None else poolVoice m true cs')
      else poolVoice m s cs'
  | timelineNoteOff n :: cs' =>
      if bool_decide (n = m) then poolVoice m false cs' else poolVoice m s cs'
  | _ :: cs' => poolVoice m s cs'
  end.

(** No tick of the run stops the playback. *)
Fixpoint allRunning (e : Env) (pb : Playback) (ticks : list Qc) : bool :=
  match ticks with
  | [] => true
  | t :: ticks' =>
      match tick e t pb with
      | Running pb' _ _ | Aborted pb' _ _ => allRunning e pb' ticks'
      | Halted _ _ => false
      end
  end.

(** Every pitch in [timelineNotes] is tracked for some active clip. *)
Definition tracked (pb : Playback) : Prop :=
  ∀ m, m ∈ timelineNotes pb →
    ∃ cid notes, (cid, notes) ∈ activeClips pb ∧ m ∈ notes.

(** What the playback state and the calls made so far keep: clip ids are
    tracked once, sounding pitches are in [timelineNotes], and those are
    tracked for a clip. *)
Definition pool_inv (pb : Playback) (cs : list call) : Prop :=
  NoDup (activeClips pb).*1 ∧ tracked pb ∧
  ∀ m, ∃ s, poolVoice m false cs = Some s ∧ (s = true → m ∈ timelineNotes pb).

(** Every clip of the timeline has its pattern. *)
Definition resolved (q : Store.Sequencer) : Prop :=
  ∀ c, c ∈ Store.timeline q →
    Timeline.findPattern (Store.patterns q) (Store.patternId c) ≠ None.

(** The step of the fold that computes the loop end. *)
Definition reach (e : Env) (acc : Qc) (clip : Store.TimelineClip) : Qc :=
  match findPattern (patterns e) (Store.patternId clip) with
  | Some p => Num.Math_max acc (clipEndSeconds e clip p)
  | None => acc
  end.

Definition isLiveNoteOff (c : call) : Prop :=
  match c with noteOff _ true => True | _ => False end.

End TimelineProps.

Module EditorExamples.
Import TimelineEditor.

(** One pattern in the library and one clip of it on beat 1. *)
Definition onePattern : Store.Sequencer :=
  {| Store.isRecording := false; Store.recordingStartTime := 0%Qc;
     Store.recordedNotes := [];
     Store.patterns := [TimelineExamples.openNote "p" None];
     Store.timeline := [TimelineExamples.clipAt "A" "p" 1 0] |}.

(** A pattern drag that ended outside the tracks, then a clip drag. *)
Definition bothDragged : Drag :=
  {| draggedPattern := Some (TimelineExamples.openNote "p" None);
     draggedClip := Some (TimelineExamples.clipAt "A" "p" 1 0) |}.

End EditorExamples.

(** ** WasmAudioEngine: what reaches the Rust engine *)

Module Wasm.

(** The two voice pools of the Rust engine.  A method of the Rust engine
    that exists once for each pool is one operation with the pool as an
    argument: [set_adsr Live] is [set_adsr], [set_adsr Timeline] is
    [set_timeline_adsr], [note_on Timeline] is [timeline_note_on] and
    [set_volume Live] is [set_live_volume]. *)
Inductive pool := Live | Timeline.

#[global] Instance pool_eq_dec : EqDecision pool.
Proof. solve_decision. Defined.

Inductive op :=
| note_on (p : pool) (midi_note : Z) (velocity : Qc)
| note_off (p : pool) (midi_note : Z)
| stop_all_timeline_notes
| set_master_volume (volume : Qc)
| set_volume (p : pool) (volume : Qc)
| set_waveform (p : pool) (waveform : nat)
| set_adsr (p : pool) (attack decay sustain release : Qc)
| set_filter_cutoff (p : pool) (cutoff : option Qc)
| set_filter_resonance (p : pool) (resonance : option Qc)
| set_filter_mode (p : pool) (mode : option nat)
| set_filter_enabled (p : pool) (enabled : option bool)
| set_lfo_rate (p : pool) (rate : Qc)
| set_lfo_depth (p : pool) (depth : Qc)
| set_lfo_waveform (p : pool) (waveform : nat)
| set_lfo_to_filter (p : pool) (enabled : bool)
| set_detune (p : pool) (cents : Qc)
| set_glide_time (p : pool) (time_ms : Qc)
| set_tremolo (p : pool) (enabled : bool) (rate depth : Qc)
| set_flanger (p : pool) (enabled : bool) (rate depth feedback mix : Qc)
| set_delay (p : pool) (enabled : bool) (time_ms feedback mix : Qc)
| set_reverb (p : pool) (enabled : bool) (room_size damping : Qc).

(** The public methods of the class: those the components of the claims
    call ([Engine.call]) and the others. *)
Inductive method :=
| Call (c : Engine.call)
| stopAllNotes
| stopAllTimelineNotes
| setMasterVolume (volume : Qc)
| setTimelineVolume (volume : Qc)
| setLiveVolume (volume : Qc)
| setBassBoost (enabled : bool) (level : Qc).

(** The envelope that an immediate note-off installs. *)
Definition cutoffEnvelope : Store.ADSR :=
  {| Store.attack := Num.ratio 1 1000; Store.decay := Num.ratio 5 100;
     Store.sustain := Num.ratio 1 2; Store.release := Num.ratio 2 1000 |}.

(** Both pools are sent the same setting. *)
Definition both (f : pool → op) : list op := [f Live; f Timeline].

(** What a method does once [wasmEngine] exists. *)
Definition ops (m : method) : list op :=
  match m with
  | Call (Engine.noteOn n v) => [note_on Live n v]
  | Call (Engine.noteOff n immediate) =>
      if immediate then
        [ set_adsr Live (Store.attack cutoffEnvelope) (Store.decay cutoffEnvelope)
            (Store.sustain cutoffEnvelope) (Num.ratio 2 1000);
          note_off Live n ]
      else [note_off Live n]
  | Call (Engine.timelineNoteOn n v) => [note_on Timeline n v]
  | Call (Engine.timelineNoteOff n) => [note_off Timeline n]
  | Call (Engine.setWaveform w) => both (λ p, set_waveform p w)
  | Call (Engine.setADSR a d s r) => both (λ p, set_adsr p a d s r)
  | Call (Engine.setFilterCutoff c) => both (λ p, set_filter_cutoff p c)
  | Call (Engine.setFilterResonance r) => both (λ p, set_filter_resonance p r)
  | Call (Engine.setFilterMode k) => both (λ p, set_filter_mode p k)
  | Call (Engine.setFilterEnabled e) => both (λ p, set_filter_enabled p e)
  | Call (Engine.setLFORate r) => both (λ p, set_lfo_rate p r)
  | Call (Engine.setLFODepth d) => both (λ p, set_lfo_depth p d)
  | Call (Engine.setLFOWaveform w) => both (λ p, set_lfo_waveform p w)
  | Call (Engine.setLFOToFilter e) => both (λ p, set_lfo_to_filter p e)
  | Call (Engine.setDetune c) => both (λ p, set_detune p c)
  | Call (Engine.setGlideTime t) => both (λ p, set_glide_time p t)
  | Call (Engine.setTremolo e r d) => both (λ p, set_tremolo p e r d)
  | Call (Engine.setFlanger e r d f x) => both (λ p, set_flanger p e r d f x)
  | Call (Engine.setDelay e time f x) =>
      let timeMs := (time * Num.ofZ 1000)%Qc in
      both (λ p, set_delay p e timeMs f x)
  | Call (Engine.setReverb e size damping) => both (λ p, set_reverb p e size damping)
  | stopAllNotes => (λ i, note_off Live (Z.of_nat i)) <$> seq 0 128
  | stopAllTimelineNotes => [stop_all_timeline_notes]
  | setMasterVolume v => [set_master_volume v]
  | setTimelineVolume v => [set_volume Timeline v]
  | setLiveVolume v => [set_volume Live v]
  | setBassBoost _ _ => []
  end.

Inductive ContextState := suspended | running.

(** The fields of the class that its methods test. *)
Record WasmAudioEngine := {
  wasmEngine : bool;                          (* false: null *)
  audioContext : option ContextState;
  scriptNode : bool;
  isInitialized : bool }.

Definition created : WasmAudioEngine :=
  {| wasmEngine := false; audioContext := None; scriptNode := false;
     isInitialized := false |}.

Definition invoke (st : WasmAudioEngine) (m : method) : list op :=
  if wasmEngine st then ops m else [].

(** The operations of [initialize()] on the new Rust engine. *)
Definition initialOps : list op :=
  [ set_master_volume (Num.ofZ 1);
    set_volume Timeline (Num.ratio 7 10);
    set_volume Live (Num.ratio 7 10);
    set_waveform Live 0;
    set_adsr Live (Num.ratio 1 100) (Num.ratio 2 10) (Num.ofZ 1) (Num.ratio 3 10);
    set_filter_cutoff Live (Some (Num.ofZ 20000));
    set_filter_resonance Live (Some (Num.ratio 707 1000)) ].

(** [initialize()] when the module loads and the audio context is created
    in state [ctx]. *)
Definition initialize (st : WasmAudioEngine) (ctx : ContextState)
  : WasmAudioEngine * list op :=
  if isInitialized st then (st, [])
  else ({| wasmEngine := true; audioContext := Some ctx; scriptNode := true;
           isInitialized := true |}, initialOps).

Definition dispose (st : WasmAudioEngine) : WasmAudioEngine :=
  {| wasmEngine := false; audioContext := None; scriptNode := false;
     isInitialized := false |}.

(** What happens to the JavaScript engine object, in order. *)
Inductive Event :=
| Initialize (ctx : ContextState)
| Dispose
| Invoke (m : method).

Definition step (st : WasmAudioEngine) (ev : Event) : WasmAudioEngine * list op :=
  match ev with
  | Initialize ctx => initialize st ctx
  | Dispose => (dispose st, [])
  | Invoke m => (st, invoke st m)
  end.

Fixpoint run (st : WasmAudioEngine) (evs : list Event) : WasmAudioEngine * list op :=
  match evs with
  | [] => (st, [])
  | ev :: evs' =>
      let '(st1, os1) := step st ev in
      let '(st2, os2) := run st1 evs' in
      (st2, os1 ++ os2)
  end.

(** The envelope last sent to a pool, from [acc] on. *)
Definition envelope (p : pool) (acc : option Store.ADSR) (os : list op)
  : option Store.ADSR :=
  fold_left
    (λ acc o,
       match o with
       | set_adsr p' a d s r =>
           if bool_decide (p' = p)
           then Some {| Store.attack := a; Store.decay := d;
                        Store.sustain := s; Store.release := r |}
           else acc
       | _ => acc
       end) os acc.

(** The volume last sent to a pool, from [acc] on. *)
Definition volume (p : pool) (acc : option Qc) (os : list op) : option Qc :=
  fold_left
    (λ acc o,
       match o with
       | set_volume p' v => if bool_decide (p' = p) then Some v else acc
       | _ => acc
       end) os acc.

Definition masterVolume (acc : option Qc) (os : list op) : option Qc :=
  fold_left
    (λ acc o, match o with set_master_volume v => Some v | _ => acc end) os acc.

End Wasm.

(** ** The volume controls *)

Module Volume.

(** [handleVolumeChange(volume)] of the control panel: the new value of
    [audio.masterVolume] in the store and the calls on the engine. *)
Definition handleVolumeChange (audioEngine : bool) (volume : Qc)
  : Qc * list Wasm.method :=
  (volume, if audioEngine then [Wasm.setLiveVolume volume] else []).

(** The effect of the timeline that runs when [timelineVolume] changes. *)
Definition timelineVolumeEffect (audioEngine : bool) (timelineVolume : Qc)
  : list Wasm.method :=
  if audioEngine
  then [Wasm.setTimelineVolume timelineVolume; Wasm.setLiveVolume (Num.ratio 7 10)]
  else [].

End Volume.

(** ** Artist presets *)

Module ArtistPresets.

Inductive LfoTarget := to_pitch | to_filter | to_amplitude | to_pan.

Record ArtistPreset := {
  id : string;
  name : string;
  artist : string;
  description : string;
  genre : string;
  bpm : Qc;
  key : string;
  globalOctave : Z;
  masterVolume : Qc;
  waveform : Store.WaveformType;
  adsr : Store.ADSR;
  lfo : Store.LFO;
  lfo_target : LfoTarget;
  detune : Qc;
  effects : Store.Effects }.

Definition preset_oneheart : ArtistPreset :=
  {| id := "oneheart";
     name := "Oneheart - Ethereal Ambient";
     artist := "oneheart";
     description :=
       "Slow, melancholic ambient pads with spacious reverb and soft piano tones";
     genre := "Ambient / Lo-fi";
     bpm := (Num.ofZ 65); key := "A";
     globalOctave := 3; masterVolume := (Num.ratio 7 10);
     waveform := Store.sine;
     adsr := {| Store.attack := (Num.ratio 1 50); Store.decay := (Num.ratio 3 10);
               Store.sustain := (Num.ratio 17 20); Store.release := (Num.ofZ 1) |};
     lfo := {| Store.lfo_rate := (Num.ratio 2 5); Store.lfo_depth := (Num.ofZ 200);
              Store.lfo_waveform := 0; Store.lfo_enabled := true |};
     lfo_target := to_filter;
     detune := (Num.ofZ 8);
     effects :=
       {| Store.glide := {| Store.glide_enabled := true;
                            Store.glide_time := (Num.ofZ 80) |};
          Store.tremolo := {| Store.tremolo_enabled := false;
                              Store.tremolo_rate := (Num.ofZ 3);
                              Store.tremolo_depth := (Num.ratio 3 10) |};
          Store.flanger := {| Store.flanger_enabled := false;
                              Store.flanger_rate := (Num.ratio 1 2);
                              Store.flanger_depth := (Num.ratio 3 10);
                              Store.flanger_feedback := (Num.ratio 1 5);
                              Store.flanger_mix := (Num.ratio 1 5) |};
          Store.delay := {| Store.delay_enabled := true;
                            Store.delay_time := (Num.ratio 3 10);
                            Store.delay_feedback := (Num.ratio 1 4);
                            Store.delay_mix := (Num.ratio 3 20) |};
          Store.reverb := {| Store.reverb_enabled := true;
                             Store.reverb_size := (Num.ratio 7 20);
                             Store.reverb_damping := (Num.ratio 1 2);
                             Store.reverb_mix := (Num.ratio 3 20) |} |} |}.

Definition preset_skeler : ArtistPreset :=
  {| id := "skeler";
     name := "Skeler - Dark Wave";
     artist := "Skeler";
     description :=
       "Energetic wave music with heavy bass, sidechain-like pumping, and atmospheric synths";
     genre := "Wave / Hardwave";
     bpm := (Num.ofZ 145); key := "D";
     globalOctave := 2; masterVolume := (Num.ratio 17 20);
     waveform := Store.sawtooth;
     adsr := {| Store.attack := (Num.ratio 1 50); Store.decay := (Num.ratio 3 20);
               Store.sustain := (Num.ratio 7 10); Store.release := (Num.ratio 2 5) |};
     lfo := {| Store.lfo_rate := (Num.ratio 24 5); Store.lfo_depth := (Num.ofZ 400);
              Store.lfo_waveform := 2; Store.lfo_enabled := true |};
     lfo_target := to_filter;
     detune := (Num.ofZ (-5));
     effects :=
       {| Store.glide := {| Store.glide_enabled := false;
                            Store.glide_time := (Num.ofZ 0) |};
          Store.tremolo := {| Store.tremolo_enabled := true;
                              Store.tremolo_rate := (Num.ofZ 8);
                              Store.tremolo_depth := (Num.ratio 2 5) |};
          Store.flanger := {| Store.flanger_enabled := false;
                              Store.flanger_rate := (Num.ratio 6 5);
                              Store.flanger_depth := (Num.ratio 2 5);
                              Store.flanger_feedback := (Num.ratio 3 10);
                              Store.flanger_mix := (Num.ratio 1 4) |};
          Store.delay := {| Store.delay_enabled := true;
                            Store.delay_time := (Num.ratio 3 8);
                            Store.delay_feedback := (Num.ratio 3 10);
                            Store.delay_mix := (Num.ratio 1 4) |};
          Store.reverb := {| Store.reverb_enabled := true;
                             Store.reverb_size := (Num.ratio 11 20);
                             Store.reverb_damping := (Num.ratio 13 20);
                             Store.reverb_mix := (Num.ratio 3 10) |} |} |}.

Definition preset_eevee : ArtistPreset :=
  {| id := "eevee";
     name := "Eevee - Lo-fi Hip Hop";
     artist := "Eevee";
     description :=
       "Warm, nostalgic lo-fi beats with jazzy chords and vinyl crackle vibes";
     genre := "Lo-fi Hip Hop";
     bpm := (Num.ofZ 75); key := "F";
     globalOctave := 3; masterVolume := (Num.ratio 13 20);
     waveform := Store.piano;
     adsr := {| Store.attack := (Num.ratio 1 100); Store.decay := (Num.ratio 1 4);
               Store.sustain := (Num.ratio 3 5); Store.release := (Num.ratio 7 20) |};
     lfo := {| Store.lfo_rate := (Num.ratio 1 2); Store.lfo_depth := (Num.ofZ 50);
              Store.lfo_waveform := 3; Store.lfo_enabled := true |};
     lfo_target := to_filter;
     detune := (Num.ofZ 12);
     effects :=
       {| Store.glide := {| Store.glide_enabled := false;
                            Store.glide_time := (Num.ofZ 0) |};
          Store.tremolo := {| Store.tremolo_enabled := false;
                              Store.tremolo_rate := (Num.ofZ 4);
                              Store.tremolo_depth := (Num.ratio 1 5) |};
          Store.flanger := {| Store.flanger_enabled := false;
                              Store.flanger_rate := (Num.ratio 3 10);
                              Store.flanger_depth := (Num.ratio 1 5);
                              Store.flanger_feedback := (Num.ratio 3 20);
                              Store.flanger_mix := (Num.ratio 1 10) |};
          Store.delay := {| Store.delay_enabled := true;
                            Store.delay_time := (Num.ratio 3 10);
                            Store.delay_feedback := (Num.ratio 1 5);
                            Store.delay_mix := (Num.ratio 3 20) |};
          Store.reverb := {| Store.reverb_enabled := true;
                             Store.reverb_size := (Num.ratio 7 20);
                             Store.reverb_damping := (Num.ratio 7 10);
                             Store.reverb_mix := (Num.ratio 1 4) |} |} |}.

Definition preset_jinsang : ArtistPreset :=
  {| id := "jinsang";
     name := "Jinsang - Smooth Jazz Lo-fi";
     artist := "Jinsang";
     description :=
       "Soulful lo-fi with smooth piano loops and laid-back groove";
     genre := "Lo-fi / Jazz Hip Hop";
     bpm := (Num.ofZ 80); key := "C";
     globalOctave := 3; masterVolume := (Num.ratio 17 25);
     waveform := Store.piano;
     adsr := {| Store.attack := (Num.ratio 3 200); Store.decay := (Num.ratio 1 5);
               Store.sustain := (Num.ratio 3 4); Store.release := (Num.ratio 2 5) |};
     lfo := {| Store.lfo_rate := (Num.ratio 2 5); Store.lfo_depth := (Num.ofZ 80);
              Store.lfo_waveform := 0; Store.lfo_enabled := true |};
     lfo_target := to_filter;
     detune := (Num.ofZ 5);
     effects :=
       {| Store.glide := {| Store.glide_enabled := true;
                            Store.glide_time := (Num.ofZ 100) |};
          Store.tremolo := {| Store.tremolo_enabled := false;
                              Store.tremolo_rate := (Num.ofZ 3);
                              Store.tremolo_depth := (Num.ratio 1 5) |};
          Store.flanger := {| Store.flanger_enabled := false;
                              Store.flanger_rate := (Num.ratio 2 5);
                              Store.flanger_depth := (Num.ratio 1 5);
                              Store.flanger_feedback := (Num.ratio 1 5);
                              Store.flanger_mix := (Num.ratio 3 20) |};
          Store.delay := {| Store.delay_enabled := true;
                            Store.delay_time := (Num.ratio 2 5);
                            Store.delay_feedback := (Num.ratio 1 4);
                            Store.delay_mix := (Num.ratio 1 5) |};
          Store.reverb := {| Store.reverb_enabled := true;
                             Store.reverb_size := (Num.ratio 2 5);
                             Store.reverb_damping := (Num.ratio 13 20);
                             Store.reverb_mix := (Num.ratio 7 25) |} |} |}.

Definition preset_saib : ArtistPreset :=
  {| id := "saib";
     name := "Saib - Jazz Hop Groove";
     artist := "Saib";
     description :=
       "Funky jazz-infused beats with groovy bass and bossa nova vibes";
     genre := "Jazz Hop / Chillhop";
     bpm := (Num.ofZ 90); key := "G";
     globalOctave := 3; masterVolume := (Num.ratio 18 25);
     waveform := Store.fm;
     adsr := {| Store.attack := (Num.ratio 1 50); Store.decay := (Num.ratio 9 50);
               Store.sustain := (Num.ratio 7 10); Store.release := (Num.ratio 3 10) |};
     lfo := {| Store.lfo_rate := (Num.ratio 3 5); Store.lfo_depth := (Num.ofZ 100);
              Store.lfo_waveform := 1; Store.lfo_enabled := true |};
     lfo_target := to_filter;
     detune := (Num.ofZ 3);
     effects :=
       {| Store.glide := {| Store.glide_enabled := false;
                            Store.glide_time := (Num.ofZ 0) |};
          Store.tremolo := {| Store.tremolo_enabled := false;
                              Store.tremolo_rate := (Num.ofZ 4);
                              Store.tremolo_depth := (Num.ratio 1 4) |};
          Store.flanger := {| Store.flanger_enabled := true;
                              Store.flanger_rate := (Num.ratio 4 5);
                              Store.flanger_depth := (Num.ratio 7 20);
                              Store.flanger_feedback := (Num.ratio 1 4);
                              Store.flanger_mix := (Num.ratio 1 5) |};
          Store.delay := {| Store.delay_enabled := true;
                            Store.delay_time := (Num.ratio 3 8);
                            Store.delay_feedback := (Num.ratio 1 5);
                            Store.delay_mix := (Num.ratio 9 50) |};
          Store.reverb := {| Store.reverb_enabled := true;
                             Store.reverb_size := (Num.ratio 19 50);
                             Store.reverb_damping := (Num.ratio 17 25);
                             Store.reverb_mix := (Num.ratio 7 25) |} |} |}.

Definition preset_deadcrow : ArtistPreset :=
  {| id := "deadcrow";
     name := "Deadcrow - Dark Phonk";
     artist := "Deadcrow";
     description :=
       "Dark, aggressive wave with heavy distorted bass and atmospheric pads";
     genre := "Wave / Phonk";
     bpm := (Num.ofZ 135); key := "E";
     globalOctave := 2; masterVolume := (Num.ratio 22 25);
     waveform := Store.sawtooth;
     adsr := {| Store.attack := (Num.ratio 1 100); Store.decay := (Num.ratio 3 25);
               Store.sustain := (Num.ratio 13 20); Store.release := (Num.ratio 7 20) |};
     lfo := {| Store.lfo_rate := (Num.ofZ 6); Store.lfo_depth := (Num.ofZ 500);
              Store.lfo_waveform := 2; Store.lfo_enabled := true |};
     lfo_target := to_filter;
     detune := (Num.ofZ (-8));
     effects :=
       {| Store.glide := {| Store.glide_enabled := false;
                            Store.glide_time := (Num.ofZ 0) |};
          Store.tremolo := {| Store.tremolo_enabled := false;
                              Store.tremolo_rate := (Num.ofZ 8);
                              Store.tremolo_depth := (Num.ratio 7 20) |};
          Store.flanger := {| Store.flanger_enabled := true;
                              Store.flanger_rate := (Num.ratio 3 2);
                              Store.flanger_depth := (Num.ratio 1 2);
                              Store.flanger_feedback := (Num.ratio 2 5);
                              Store.flanger_mix := (Num.ratio 3 10) |};
          Store.delay := {| Store.delay_enabled := true;
                            Store.delay_time := (Num.ratio 9 20);
                            Store.delay_feedback := (Num.ratio 2 5);
                            Store.delay_mix := (Num.ratio 3 10) |};
          Store.reverb := {| Store.reverb_enabled := true;
                             Store.reverb_size := (Num.ratio 29 50);
                             Store.reverb_damping := (Num.ratio 3 5);
                             Store.reverb_mix := (Num.ratio 8 25) |} |} |}.

Definition preset_idealism : ArtistPreset :=
  {| id := "idealism";
     name := "Idealism - Peaceful Ambient";
     artist := "Idealism";
     description :=
       "Soothing lo-fi with soft piano melodies and minimalistic textures";
     genre := "Ambient Lo-fi";
     bpm := (Num.ofZ 70); key := "A";
     globalOctave := 3; masterVolume := (Num.ratio 31 50);
     waveform := Store.sine;
     adsr := {| Store.attack := (Num.ratio 1 4); Store.decay := (Num.ratio 3 10);
               Store.sustain := (Num.ratio 17 20); Store.release := (Num.ratio 4 5) |};
     lfo := {| Store.lfo_rate := (Num.ratio 1 4); Store.lfo_depth := (Num.ofZ 120);
              Store.lfo_waveform := 0; Store.lfo_enabled := true |};
     lfo_target := to_filter;
     detune := (Num.ofZ 10);
     effects :=
       {| Store.glide := {| Store.glide_enabled := true;
                            Store.glide_time := (Num.ofZ 300) |};
          Store.tremolo := {| Store.tremolo_enabled := false;
                              Store.tremolo_rate := (Num.ofZ 2);
                              Store.tremolo_depth := (Num.ratio 1 5) |};
          Store.flanger := {| Store.flanger_enabled := false;
                              Store.flanger_rate := (Num.ratio 2 5);
                              Store.flanger_depth := (Num.ratio 1 5);
                              Store.flanger_feedback := (Num.ratio 3 20);
                              Store.flanger_mix := (Num.ratio 1 10) |};
          Store.delay := {| Store.delay_enabled := true;
                            Store.delay_time := (Num.ratio 3 5);
                            Store.delay_feedback := (Num.ratio 7 20);
                            Store.delay_mix := (Num.ratio 7 25) |};
          Store.reverb := {| Store.reverb_enabled := true;
                             Store.reverb_size := (Num.ratio 11 20);
                             Store.reverb_damping := (Num.ratio 11 20);
                             Store.reverb_mix := (Num.ratio 3 10) |} |} |}.

Definition preset_sleepyfish : ArtistPreset :=
  {| id := "sleepyfish";
     name := "Sleepy Fish - Aquatic Dreams";
     artist := "Sleepy Fish";
     description :=
       "Dreamy, aquatic lo-fi with gentle guitar plucks and lush pads";
     genre := "Chillhop / Ambient";
     bpm := (Num.ofZ 72); key := "D";
     globalOctave := 3; masterVolume := (Num.ratio 33 50);
     waveform := Store.triangle;
     adsr := {| Store.attack := (Num.ratio 3 20); Store.decay := (Num.ratio 1 4);
               Store.sustain := (Num.ratio 39 50); Store.release := (Num.ratio 3 5) |};
     lfo := {| Store.lfo_rate := (Num.ratio 7 20); Store.lfo_depth := (Num.ofZ 180);
              Store.lfo_waveform := 0; Store.lfo_enabled := true |};
     lfo_target := to_filter;
     detune := (Num.ofZ 15);
     effects :=
       {| Store.glide := {| Store.glide_enabled := true;
                            Store.glide_time := (Num.ofZ 200) |};
          Store.tremolo := {| Store.tremolo_enabled := false;
                              Store.tremolo_rate := (Num.ofZ 3);
                              Store.tremolo_depth := (Num.ratio 1 5) |};
          Store.flanger := {| Store.flanger_enabled := true;
                              Store.flanger_rate := (Num.ratio 3 5);
                              Store.flanger_depth := (Num.ratio 2 5);
                              Store.flanger_feedback := (Num.ratio 1 4);
                              Store.flanger_mix := (Num.ratio 1 4) |};
          Store.delay := {| Store.delay_enabled := true;
                            Store.delay_time := (Num.ratio 1 2);
                            Store.delay_feedback := (Num.ratio 3 10);
                            Store.delay_mix := (Num.ratio 1 4) |};
          Store.reverb := {| Store.reverb_enabled := true;
                             Store.reverb_size := (Num.ratio 12 25);
                             Store.reverb_damping := (Num.ratio 29 50);
                             Store.reverb_mix := (Num.ratio 3 10) |} |} |}.

Definition preset_inlovewithaghost : ArtistPreset :=
  {| id := "inlovewithaghost";
     name := "In Love With A Ghost - Whimsical Chiptune";
     artist := "In Love With A Ghost";
     description :=
       "Playful, nostalgic electronic music with quirky melodies and chiptune textures";
     genre := "Chillwave / Electronic";
     bpm := (Num.ofZ 95); key := "A";
     globalOctave := 3; masterVolume := (Num.ratio 3 4);
     waveform := Store.square;
     adsr := {| Store.attack := (Num.ratio 1 125); Store.decay := (Num.ratio 1 10);
               Store.sustain := (Num.ratio 3 5); Store.release := (Num.ratio 1 5) |};
     lfo := {| Store.lfo_rate := (Num.ratio 5 2); Store.lfo_depth := (Num.ofZ 200);
              Store.lfo_waveform := 3; Store.lfo_enabled := true |};
     lfo_target := to_filter;
     detune := (Num.ofZ 12);
     effects :=
       {| Store.glide := {| Store.glide_enabled := false;
                            Store.glide_time := (Num.ofZ 0) |};
          Store.tremolo := {| Store.tremolo_enabled := true;
                              Store.tremolo_rate := (Num.ofZ 6);
                              Store.tremolo_depth := (Num.ratio 3 10) |};
          Store.flanger := {| Store.flanger_enabled := false;
                              Store.flanger_rate := (Num.ofZ 1);
                              Store.flanger_depth := (Num.ratio 3 10);
                              Store.flanger_feedback := (Num.ratio 1 5);
                              Store.flanger_mix := (Num.ratio 3 20) |};
          Store.delay := {| Store.delay_enabled := true;
                            Store.delay_time := (Num.ratio 1 4);
                            Store.delay_feedback := (Num.ratio 7 20);
                            Store.delay_mix := (Num.ratio 3 10) |};
          Store.reverb := {| Store.reverb_enabled := true;
                             Store.reverb_size := (Num.ratio 21 50);
                             Store.reverb_damping := (Num.ratio 18 25);
                             Store.reverb_mix := (Num.ratio 7 25) |} |} |}.

Definition defaultPreset : ArtistPreset :=
  {| id := "default";
     name := "Default - Clean Synth";
     artist := "Default";
     description :=
       "Clean, balanced synthesizer with moderate settings";
     genre := "Default";
     bpm := (Num.ofZ 120); key := "C";
     globalOctave := 3; masterVolume := (Num.ratio 7 10);
     waveform := Store.sine;
     adsr := {| Store.attack := (Num.ratio 1 100); Store.decay := (Num.ratio 1 5);
               Store.sustain := (Num.ofZ 1); Store.release := (Num.ratio 3 10) |};
     lfo := {| Store.lfo_rate := (Num.ofZ 1); Store.lfo_depth := (Num.ofZ 0);
              Store.lfo_waveform := 0; Store.lfo_enabled := false |};
     lfo_target := to_filter;
     detune := (Num.ofZ 0);
     effects :=
       {| Store.glide := {| Store.glide_enabled := false;
                            Store.glide_time := (Num.ofZ 0) |};
          Store.tremolo := {| Store.tremolo_enabled := false;
                              Store.tremolo_rate := (Num.ofZ 5);
                              Store.tremolo_depth := (Num.ratio 1 2) |};
          Store.flanger := {| Store.flanger_enabled := false;
                              Store.flanger_rate := (Num.ratio 3 2);
                              Store.flanger_depth := (Num.ratio 1 2);
                              Store.flanger_feedback := (Num.ratio 3 10);
                              Store.flanger_mix := (Num.ratio 3 10) |};
          Store.delay := {| Store.delay_enabled := false;
                            Store.delay_time := (Num.ratio 1 2);
                            Store.delay_feedback := (Num.ratio 3 10);
                            Store.delay_mix := (Num.ratio 3 10) |};
          Store.reverb := {| Store.reverb_enabled := false;
                             Store.reverb_size := (Num.ratio 1 2);
                             Store.reverb_damping := (Num.ratio 1 2);
                             Store.reverb_mix := (Num.ratio 3 10) |} |} |}.

Definition artistPresets : list ArtistPreset :=
  [ preset_oneheart;
    preset_skeler;
    preset_eevee;
    preset_jinsang;
    preset_saib;
    preset_deadcrow;
    preset_idealism;
    preset_sleepyfish;
    preset_inlovewithaghost ].

Definition getAllPresets : list ArtistPreset := defaultPreset :: artistPresets.

Definition getPresetById (i : string) : option ArtistPreset :=
  List.find (λ preset, bool_decide (id preset = i)) getAllPresets.

(** [currentPreset] of the selector. *)
Definition currentPreset (selectedPresetId : string) : ArtistPreset :=
  default defaultPreset
    (List.find (λ p, bool_decide (id p = selectedPresetId)) getAllPresets).

End ArtistPresets.

(** ** ArtistPresetSelector: applying a preset *)

Module PresetSelector.
Import Engine.

(** The slices of the store that a preset overwrites. *)
Record Settings := {
  bpm : Qc;
  masterVolume : Qc;
  key : string;
  globalOctave : Z;
  parameters : Store.Parameters }.

(** [applyPresetInternal(preset)] with an audio engine: the store after it,
    the preset id it selects and the calls on the engine. *)
Definition applyPresetInternal (st : Settings) (preset : ArtistPresets.ArtistPreset)
  : Settings * string * list Wasm.method :=
  let a := ArtistPresets.adsr preset in
  let l := ArtistPresets.lfo preset in
  let x := ArtistPresets.effects preset in
  ({| bpm := ArtistPresets.bpm preset;
      masterVolume := ArtistPresets.masterVolume preset;
      key := ArtistPresets.key preset;
      globalOctave := ArtistPresets.globalOctave preset;
      parameters :=
        {| Store.waveform := ArtistPresets.waveform preset;
           Store.adsr := a;
           Store.filter := Store.filter (parameters st);
           Store.lfo := l;
           Store.detune := ArtistPresets.detune preset;
           Store.effects := x |} |},
   ArtistPresets.id preset,
   [ Wasm.setMasterVolume (ArtistPresets.masterVolume preset);
     Wasm.Call (setWaveform (Timeline.waveformMap (ArtistPresets.waveform preset)));
     Wasm.Call (setADSR (Store.attack a) (Store.decay a) (Store.sustain a)
                  (Store.release a));
     Wasm.Call (setLFORate (Store.lfo_rate l));
     Wasm.Call (setLFODepth (Store.lfo_depth l));
     Wasm.Call (setLFOWaveform (Store.lfo_waveform l));
     Wasm.Call (setDetune (ArtistPresets.detune preset));
     Wasm.Call (setGlideTime
                  (if Store.glide_enabled (Store.glide x)
                   then Store.glide_time (Store.glide x) else 0%Qc));
     Wasm.Call (setTremolo (Store.tremolo_enabled (Store.tremolo x))
                  (Store.tremolo_rate (Store.tremolo x))
                  (Store.tremolo_depth (Store.tremolo x)));
     Wasm.Call (setFlanger (Store.flanger_enabled (Store.flanger x))
                  (Store.flanger_depth (Store.flanger x))
                  (Store.flanger_rate (Store.flanger x))
                  (Store.flanger_feedback (Store.flanger x))
                  (Store.flanger_mix (Store.flanger x)));
     Wasm.Call (setDelay (Store.delay_enabled (Store.delay x))
                  (Store.delay_time (Store.delay x))
                  (Store.delay_feedback (Store.delay x))
                  (Store.delay_mix (Store.delay x)));
     Wasm.Call (setReverb (Store.reverb_enabled (Store.reverb x))
                  (Store.reverb_size (Store.reverb x))
                  (Store.reverb_damping (Store.reverb x))) ]).

(** [applyPreset(preset)]: the calls it makes at once and, with an audio
    engine, what its timeout does ten milliseconds later. *)
Definition applyPreset (audioEngine : bool) (st : Settings)
    (preset : ArtistPresets.ArtistPreset)
  : list Wasm.method * option (Settings * string * list Wasm.method) :=
  if audioEngine
  then ([Wasm.stopAllNotes], Some (applyPresetInternal st preset))
  else ([], None).

End PresetSelector.

(** ** Patterns that were generated rather than recorded *)

Module GeneratedPatterns.





End GeneratedPatterns.

(** ** Notions used by the statements about the engine and the presets *)

Module EngineProps.


(** The operations that the methods [ms] perform on an initialised
    engine. *)
Definition performed (ms : list Wasm.method) : list Wasm.op := flat_map Wasm.ops ms.

Definition isSetter (c : Engine.call) : Prop :=
  match c with
  | Engine.noteOn _ _ | Engine.noteOff _ _
  | Engine.timelineNoteOn _ _ | Engine.timelineNoteOff _ => False
  | _ => True
  end.

End EngineProps.

(** * Properties *)

(** ** The voice ownership manager *)

Module OwnershipFacts.
Import Engine ChordButtons EventLoop Props.

Lemma noteOns_app p tr1 tr2 : noteOns p (tr1 ++ tr2) = noteOns p tr1 + noteOns p tr2.
Proof. unfold noteOns. by rewrite filter_app, length_app. Qed.

Lemma noteOffs_app p tr1 tr2 : noteOffs p (tr1 ++ tr2) = noteOffs p tr1 + noteOffs p tr2.
Proof. unfold noteOffs. by rewrite filter_app, length_app. Qed.

Lemma noteOns_one p q v : noteOns p [noteOn q v] = if bool_decide (q = p) then 1 else 0.
Proof.
  unfold noteOns. rewrite filter_cons, filter_nil. simpl.
  by destruct (bool_decide (q = p)).
Qed.

Lemma noteOffs_one p q i : noteOffs p [noteOff q i] = if bool_decide (q = p) then 1 else 0.
Proof.
  unfold noteOffs. rewrite filter_cons, filter_nil. simpl.
  by destruct (bool_decide (q = p)).
Qed.

Lemma noteOffs_noteOn p q v : noteOffs p [noteOn q v] = 0.
Proof. unfold noteOffs. reflexivity. Qed.

Lemma noteOns_noteOff p q i : noteOns p [noteOff q i] = 0.
Proof. unfold noteOns. reflexivity. Qed.

Lemma size_zero_empty (X : gset nat) : size X = 0 ↔ X = ∅.
Proof. rewrite size_empty_iff. by unfold_leibniz. Qed.

Lemma not_pos_size_empty (X : gset nat) : ¬ 0 < size X ↔ X = ∅.
Proof. rewrite <- size_zero_empty. lia. Qed.

(** *** Taking ownership: the fold of [holdNote] over a chord *)

Lemma holdNote_step d v g tr m :
  holdNote d v (g, tr) m =
  (<[m := {[d]} ∪ holders g m]> g,
   if bool_decide (holders g m = ∅) then tr ++ [noteOn m v] else tr).
Proof.
  unfold holdNote, holders. case_bool_decide as Hsz.
  - rewrite bool_decide_eq_false_2; [done|].
    intros E. rewrite E, size_empty in Hsz. lia.
  - apply not_pos_size_empty in Hsz. by rewrite bool_decide_eq_true_2.
Qed.

Lemma holders_insert g m X p :
  holders (<[m := X]> g) p = if bool_decide (p = m) then X else holders g p.
Proof.
  unfold holders. case_bool_decide; subst.
  - by rewrite lookup_insert_eq.
  - by rewrite lookup_insert_ne.
Qed.

Lemma holdNote_fold d v chord : ∀ g tr p,
  (fold_left (holdNote d v) chord (g, tr)).1 !! p = heldAfter d chord g p ∧
  noteOns p (fold_left (holdNote d v) chord (g, tr)).2
    = noteOns p tr + onsAdded chord g p ∧
  noteOffs p (fold_left (holdNote d v) chord (g, tr)).2 = noteOffs p tr.
Proof.
  induction chord as [|m chord IH]; intros g tr p; cbn [fold_left].
  - unfold heldAfter, onsAdded. rewrite bool_decide_eq_false_2 by set_solver.
    simpl. split_and!; [done | lia | done].
  - rewrite holdNote_step.
    set (g' := <[m:={[d]} ∪ holders g m]> g).
    set (tr' := if bool_decide (holders g m = ∅) then tr ++ [noteOn m v] else tr).
    destruct (IH g' tr' p) as (H1 & H2 & H3). rewrite H1, H2, H3. clear H1 H2 H3 IH.
    assert (Hh : holders g' p = if bool_decide (p = m) then {[d]} ∪ holders g m else holders g p)
      by apply holders_insert.
    unfold heldAfter, onsAdded. rewrite Hh.
    destruct (decide (p = m)) as [->|Hne].
    + rewrite !(bool_decide_eq_true_2 (m = m)) by done.
      rewrite (bool_decide_eq_true_2 (m ∈ m :: chord)) by set_solver.
      rewrite (bool_decide_eq_false_2 ({[d]} ∪ holders g m = ∅)) by set_solver.
      rewrite andb_false_r. unfold g'. rewrite lookup_insert_eq.
      unfold tr'. split_and!.
      * destruct (bool_decide (m ∈ chord)); [f_equal; set_solver | done].
      * destruct (bool_decide (holders g m = ∅)); cbn [andb].
        -- rewrite noteOns_app, noteOns_one, bool_decide_eq_true_2 by done. lia.
        -- lia.
      * destruct (bool_decide (holders g m = ∅)); [|done].
        rewrite noteOffs_app, noteOffs_noteOn. lia.
    + rewrite !(bool_decide_eq_false_2 (p = m)) by done.
      rewrite (bool_decide_ext (p ∈ m :: chord) (p ∈ chord)) by set_solver.
      unfold g'. rewrite lookup_insert_ne by done.
      unfold tr'. split_and!; [done | |].
      * destruct (bool_decide (holders g m = ∅)); [|done].
        rewrite noteOns_app, noteOns_one, bool_decide_eq_false_2 by done. lia.
      * destruct (bool_decide (holders g m = ∅)); [|done].
        rewrite noteOffs_app, noteOffs_noteOn. lia.
Qed.


(** *** Giving up ownership: the fold of [releaseNote] over a chord *)

Lemma leave_leave d o : leave d (leave d o) = leave d o.
Proof.
  destruct o as [hb|]; simpl; [|done].
  case_bool_decide as E; simpl; [done|].
  replace (hb ∖ {[d]} ∖ {[d]}) with (hb ∖ {[d]}) by set_solver.
  by rewrite bool_decide_eq_false_2.
Qed.

Lemma lastOut_leave d o : lastOut d (leave d o) = false.
Proof.
  destruct o as [hb|]; simpl; [|done].
  case_bool_decide as E; simpl; [done|].
  replace (hb ∖ {[d]} ∖ {[d]}) with (hb ∖ {[d]}) by set_solver.
  by rewrite bool_decide_eq_false_2.
Qed.

Lemma releaseNote_step d imm rec start t g q tr m :
  ∃ q',
    releaseNote d imm rec start t (g, q, tr) m =
    (match leave d (g !! m) with
     | Some hb' => <[m := hb']> g
     | None => delete m g
     end, q',
     if lastOut d (g !! m) then tr ++ [noteOff m imm] else tr).
Proof.
  unfold releaseNote. destruct (g !! m) as [hb|] eqn:E; simpl.
  - destruct (bool_decide (size (hb ∖ {[d]}) = 0)) eqn:Hsz.
    + apply bool_decide_eq_true_1, size_zero_empty in Hsz.
      rewrite (bool_decide_eq_true_2 (hb ∖ {[d]} = ∅)) by done. eauto.
    + apply bool_decide_eq_false_1 in Hsz. rewrite size_zero_empty in Hsz.
      rewrite (bool_decide_eq_false_2 (hb ∖ {[d]} = ∅)) by done. eauto.
  - rewrite delete_id by done. eauto.
Qed.

Lemma releaseNote_fold d imm rec start t chord : ∀ g q tr p,
  (fold_left (releaseNote d imm rec start t) chord (g, q, tr)).1.1 !! p
    = releasedAfter d chord g p ∧
  noteOffs p (fold_left (releaseNote d imm rec start t) chord (g, q, tr)).2
    = noteOffs p tr + offsAdded d chord g p ∧
  noteOns p (fold_left (releaseNote d imm rec start t) chord (g, q, tr)).2
    = noteOns p tr.
Proof.
  induction chord as [|m chord IH]; intros g q tr p; cbn [fold_left].
  - unfold releasedAfter, offsAdded. rewrite bool_decide_eq_false_2 by set_solver.
    simpl. split_and!; [done | lia | done].
  - destruct (releaseNote_step d imm rec start t g q tr m) as [q' ->].
    set (g' := match leave d (g !! m) with
               | Some hb' => <[m:=hb']> g | None => delete m g end).
    set (tr' := if lastOut d (g !! m) then tr ++ [noteOff m imm] else tr).
    destruct (IH g' q' tr' p) as (H1 & H2 & H3). rewrite H1, H2, H3. clear H1 H2 H3 IH.
    assert (Hl : g' !! p = if bool_decide (p = m) then leave d (g !! m) else g !! p).
    { unfold g'. case_bool_decide; subst.
      - destruct (leave d (g !! m)); [by rewrite lookup_insert_eq | by rewrite lookup_delete_eq].
      - destruct (leave d (g !! m)); [by rewrite lookup_insert_ne | by rewrite lookup_delete_ne]. }
    unfold releasedAfter, offsAdded. rewrite Hl. clear Hl.
    destruct (decide (p = m)) as [->|Hne].
    + rewrite !(bool_decide_eq_true_2 (m = m)) by done.
      rewrite (bool_decide_eq_true_2 (m ∈ m :: chord)) by set_solver.
      rewrite leave_leave, lastOut_leave, andb_false_r. simpl.
      unfold tr'. split_and!.
      * by case_bool_decide.
      * destruct (lastOut d (g !! m)); [|lia].
        rewrite noteOffs_app, noteOffs_one, bool_decide_eq_true_2 by done. lia.
      * destruct (lastOut d (g !! m)); [|done].
        rewrite noteOns_app, noteOns_noteOff. lia.
    + rewrite !(bool_decide_eq_false_2 (p = m)) by done.
      rewrite (bool_decide_ext (p ∈ m :: chord) (p ∈ chord)) by set_solver.
      unfold tr'. split_and!; [done | |].
      * destruct (lastOut d (g !! m)); [|done].
        rewrite noteOffs_app, noteOffs_one, bool_decide_eq_false_2 by done. lia.
      * destruct (lastOut d (g !! m)); [|done].
        rewrite noteOns_app, noteOns_noteOff. lia.
Qed.


(** *** The two handlers *)

Lemma handleButtonDown_play c st d chord et now r1 r2 :
  audioEngine c = true → currentMode c = Store.play → d ∉ activeButtons st →
  ∃ st' tr,
    handleButtonDown c st d chord et now r1 r2 = Some (st', tr) ∧
    activeButtons st' = {[d]} ∪ activeButtons st ∧
    activeNotes st' = <[d := chord]> (activeNotes st) ∧
    ∀ p, globalMidiNotes st' !! p = heldAfter d chord (globalMidiNotes st) p ∧
         noteOns p tr = onsAdded chord (globalMidiNotes st) p ∧
         noteOffs p tr = 0.
Proof.
  intros He Hm Hd. unfold handleButtonDown. rewrite He, Hm.
  rewrite bool_decide_eq_false_2 by done. cbn [negb orb].
  destruct (fold_left (holdNote d default_velocity) chord (globalMidiNotes st, []))
    as [g tr] eqn:E.
  eexists _, _. split; [done|]. cbn. split_and!; [done..|].
  intros p.
  destruct (holdNote_fold d default_velocity chord (globalMidiNotes st) [] p)
    as (H1 & H2 & H3).
  rewrite E in H1, H2, H3. done.
Qed.

Lemma handleButtonDown_idle c st d chord et now r1 r2 :
  d ∈ activeButtons st →
  handleButtonDown c st d chord et now r1 r2 = Some (st, []).
Proof.
  intros Hd. unfold handleButtonDown.
  rewrite (bool_decide_eq_true_2 (d ∈ activeButtons st)) by done.
  by rewrite orb_true_r.
Qed.

Lemma handleButtonUp_idle c st d t :
  d ∉ activeButtons st → handleButtonUp c st d t = (st, []).
Proof.
  intros Hd. unfold handleButtonUp.
  rewrite (bool_decide_eq_false_2 (d ∈ activeButtons st)) by done.
  by destruct (audioEngine c).
Qed.

Lemma handleButtonUp_active c st d t chord :
  audioEngine c = true → d ∈ activeButtons st → activeNotes st !! d = Some chord →
  activeButtons (handleButtonUp c st d t).1 = activeButtons st ∖ {[d]} ∧
  activeNotes (handleButtonUp c st d t).1 = delete d (activeNotes st) ∧
  ∀ p, globalMidiNotes (handleButtonUp c st d t).1 !! p
         = releasedAfter d chord (globalMidiNotes st) p ∧
       noteOffs p (handleButtonUp c st d t).2 = offsAdded d chord (globalMidiNotes st) p ∧
       noteOns p (handleButtonUp c st d t).2 = 0.
Proof.
  intros He Hd Hn. unfold handleButtonUp. rewrite He, Hn.
  rewrite (bool_decide_eq_true_2 (d ∈ activeButtons st)) by done. cbn [negb].
  match goal with |- context [fold_left ?f chord ?a] =>
    destruct (fold_left f chord a) as [[g q] tr] eqn:E end.
  cbn. split_and!; [done..|]. intros p.
  match type of E with fold_left (releaseNote _ ?i ?r ?s _) _ _ = _ =>
    destruct (releaseNote_fold d i r s t chord (globalMidiNotes st) (sequencer st) [] p)
      as (H1 & H2 & H3) end.
  rewrite E in H1, H2, H3. done.
Qed.

(** A release without stored notes touches neither the holders nor the
    engine. *)
Lemma handleButtonUp_no_notes c st d t :
  activeNotes st !! d = None →
  globalMidiNotes (handleButtonUp c st d t).1 = globalMidiNotes st ∧
  (handleButtonUp c st d t).2 = [].
Proof.
  intros Hn. unfold handleButtonUp. rewrite Hn.
  destruct (audioEngine c); [|done]. cbn [negb].
  by destruct (bool_decide (d ∈ activeButtons st)).
Qed.

Lemma handleButtonUp_off c st d t :
  audioEngine c = false → handleButtonUp c st d t = (st, []).
Proof. intros He. unfold handleButtonUp. by rewrite He. Qed.


(** *** Engine calls follow the transitions of the holder set *)

Lemma holders_lookup g p o : g !! p = o → holders g p = default ∅ o.
Proof. unfold holders. by intros ->. Qed.

Lemma holders_Some g p X : g !! p = Some X → holders g p = X.
Proof. unfold holders. by intros ->. Qed.

Lemma noteOn_on_first_holder c st d chord et now r1 r2 p :
  currentMode c = Store.play →
  ∃ st' tr,
    handleButtonDown c st d chord et now r1 r2 = Some (st', tr) ∧
    noteOffs p tr = 0 ∧ noteOns p tr ≤ 1 ∧
    (noteOns p tr = 1 ↔
     holders (globalMidiNotes st) p = ∅ ∧ holders (globalMidiNotes st') p ≠ ∅).
Proof.
  intros Hm.
  destruct (decide (d ∈ activeButtons st)) as [Hd|Hd].
  { eexists _, _. split; [by apply handleButtonDown_idle|].
    cbn. split_and!; [done | lia | split; [lia | tauto]]. }
  destruct (audioEngine c) eqn:He.
  - destruct (handleButtonDown_play c st d chord et now r1 r2 He Hm Hd)
      as (st' & tr & E & _ & _ & Hp).
    destruct (Hp p) as (Hl & Hon & Hoff). clear Hp.
    exists st', tr. split; [done|]. split; [done|].
    rewrite Hon, (holders_lookup _ _ _ Hl). unfold onsAdded, heldAfter.
    destruct (bool_decide (p ∈ chord)); cbn [andb default].
    + case_bool_decide as Hh; (split; [lia|]); split.
      * intros _. split; [done | set_solver].
      * done.
      * lia.
      * tauto.
    + split; [lia|]. fold (holders (globalMidiNotes st) p). split; [lia | tauto].
  - exists st, []. unfold handleButtonDown. rewrite He. cbn.
    split_and!; [done | done | lia | split; [lia | tauto]].
Qed.

Lemma noteOff_on_last_holder c st d t p :
  no_empty_entry (globalMidiNotes st) →
  noteOns p (handleButtonUp c st d t).2 = 0 ∧
  noteOffs p (handleButtonUp c st d t).2 ≤ 1 ∧
  (noteOffs p (handleButtonUp c st d t).2 = 1 ↔
   holders (globalMidiNotes st) p ≠ ∅ ∧
   holders (globalMidiNotes (handleButtonUp c st d t).1) p = ∅).
Proof.
  intros Hwf.
  destruct (audioEngine c) eqn:He;
    [|rewrite handleButtonUp_off by done; cbn;
      split_and!; [done | lia | split; [lia | tauto]]].
  destruct (decide (d ∈ activeButtons st)) as [Hd|Hd];
    [|rewrite handleButtonUp_idle by done; cbn;
      split_and!; [done | lia | split; [lia | tauto]]].
  destruct (activeNotes st !! d) as [chord|] eqn:Hn.
  - destruct (handleButtonUp_active c st d t chord He Hd Hn) as (_ & _ & Hp).
    destruct (Hp p) as (Hl & Hoff & Hon). clear Hp.
    rewrite Hon, Hoff, (holders_lookup _ _ _ Hl). split; [done|].
    unfold offsAdded, releasedAfter, holders.
    destruct (bool_decide (p ∈ chord)); cbn [andb].
    + destruct (globalMidiNotes st !! p) as [hb|] eqn:Hg; cbn [leave lastOut default].
      * pose proof (Hwf p hb Hg) as Hne.
        case_bool_decide as Hh; cbn [default]; (split; [lia|]); split; try done; try lia.
        tauto.
      * split; [lia|]. split; [lia | tauto].
    + split; [lia|]. split; [lia | tauto].
  - destruct (handleButtonUp_no_notes c st d t Hn) as [-> ->]. cbn.
    split_and!; [done | lia | split; [lia | tauto]].
Qed.

Lemma no_empty_entry_down c st d chord et now r1 r2 st' tr :
  currentMode c = Store.play →
  handleButtonDown c st d chord et now r1 r2 = Some (st', tr) →
  no_empty_entry (globalMidiNotes st) → no_empty_entry (globalMidiNotes st').
Proof.
  intros Hm E Hwf.
  destruct (decide (d ∈ activeButtons st)) as [Hd|Hd].
  { rewrite handleButtonDown_idle in E by done. by simplify_eq. }
  destruct (audioEngine c) eqn:He.
  - destruct (handleButtonDown_play c st d chord et now r1 r2 He Hm Hd)
      as (st2 & tr2 & E2 & _ & _ & Hp).
    rewrite E in E2. simplify_eq. intros p hb Hg.
    destruct (Hp p) as (Hl & _). rewrite Hg in Hl. unfold heldAfter in Hl.
    destruct (bool_decide (p ∈ chord)).
    + simplify_eq. set_solver.
    + by eapply Hwf.
  - unfold handleButtonDown in E. rewrite He in E. cbn in E. by simplify_eq.
Qed.

Lemma no_empty_entry_up c st d t :
  no_empty_entry (globalMidiNotes st) →
  no_empty_entry (globalMidiNotes (handleButtonUp c st d t).1).
Proof.
  intros Hwf.
  destruct (audioEngine c) eqn:He; [|by rewrite handleButtonUp_off].
  destruct (decide (d ∈ activeButtons st)) as [Hd|Hd];
    [|by rewrite handleButtonUp_idle].
  destruct (activeNotes st !! d) as [chord|] eqn:Hn.
  - destruct (handleButtonUp_active c st d t chord He Hd Hn) as (_ & _ & Hp).
    intros p hb Hg. destruct (Hp p) as (Hl & _). rewrite Hg in Hl.
    unfold releasedAfter in Hl. destruct (bool_decide (p ∈ chord)).
    + destruct (globalMidiNotes st !! p) as [hb0|]; cbn in Hl; [|done].
      case_bool_decide; by simplify_eq.
    + by eapply Hwf.
  - by destruct (handleButtonUp_no_notes c st d t Hn) as [-> _].
Qed.


(** *** Runs of presses and releases *)

Lemma run_cons c st ev evs st1 tr1 st2 tr2 :
  step c st ev = Some (st1, tr1) → run c st1 evs = Some (st2, tr2) →
  run c st (ev :: evs) = Some (st2, tr1 ++ tr2).
Proof. intros H1 H2. cbn [run]. rewrite H1. cbn. rewrite H2. done. Qed.

Lemma run_app c evs1 : ∀ st evs2 st1 tr1 st2 tr2,
  run c st evs1 = Some (st1, tr1) → run c st1 evs2 = Some (st2, tr2) →
  run c st (evs1 ++ evs2) = Some (st2, tr1 ++ tr2).
Proof.
  induction evs1 as [|ev evs1 IH]; intros st evs2 st1 tr1 st2 tr2 H1 H2.
  - cbn in H1. by simplify_eq.
  - cbn [run] in H1. destruct (step c st ev) as [[sa ta]|] eqn:Es; [|done].
    cbn in H1. destruct (run c sa evs1) as [[sb tb]|] eqn:Er; [|done].
    cbn in H1. simplify_eq. rewrite <- app_assoc, <- app_comm_cons.
    eapply run_cons; [done|]. by eapply IH.
Qed.

(** After a run of presses in play mode, every pressed button is active with
    its chord stored, and the pitch has been sounded once if nobody held it. *)
Lemma run_presses c P presses : ∀ st,
  audioEngine c = true → currentMode c = Store.play →
  NoDup (degrees presses) →
  (∀ d, d ∈ degrees presses → d ∉ activeButtons st) →
  (∀ pr, pr ∈ presses → P ∈ press_chord pr) →
  ∃ st' tr,
    run c st (down <$> presses) = Some (st', tr) ∧
    (∀ d, d ∈ activeButtons st → d ∈ activeButtons st') ∧
    (∀ d ch, d ∉ degrees presses →
       activeNotes st !! d = Some ch → activeNotes st' !! d = Some ch) ∧
    (∀ d, d ∈ degrees presses →
       d ∈ activeButtons st' ∧
       ∃ ch, activeNotes st' !! d = Some ch ∧ P ∈ ch) ∧
    globalMidiNotes st' !! P =
      match presses with
      | [] => globalMidiNotes st !! P
      | _ => Some (list_to_set (degrees presses) ∪ holders (globalMidiNotes st) P)
      end ∧
    noteOns P tr =
      match presses with
      | [] => 0
      | _ => if bool_decide (holders (globalMidiNotes st) P = ∅) then 1 else 0
      end ∧
    noteOffs P tr = 0.
Proof.
  intros st He Hm. revert st.
  induction presses as [|pr presses IH]; intros st Hnd Hfresh HP.
  - exists st, []. cbn. split_and!; try done. intros d Hd. inversion Hd.
  - cbn [degrees fmap list_fmap] in Hnd, Hfresh. apply NoDup_cons in Hnd as [Hhd Hnd].
    assert (Hd : press_degree pr ∉ activeButtons st) by (apply Hfresh; set_solver).
    destruct (handleButtonDown_play c st (press_degree pr) (press_chord pr)
                (press_eventTime pr) (press_now pr) 0%Qc 0%Qc He Hm Hd)
      as (st1 & tr1 & E1 & Hab & Han & Hp).
    destruct (Hp P) as (Hl & Hon & Hoff). clear Hp.
    assert (HPin : P ∈ press_chord pr) by (apply HP; set_solver).
    unfold heldAfter in Hl. unfold onsAdded in Hon.
    rewrite (bool_decide_eq_true_2 (P ∈ press_chord pr)) in Hl, Hon by done.
    cbn [andb] in Hon.
    destruct (IH st1) as (st' & tr & Er & Hkeep & Hframe & Hact & Hg & Hons & Hoffs).
    { done. }
    { intros d Hin. rewrite Hab. fold (degrees presses) in Hhd.
      assert (d ≠ press_degree pr) by (intros ->; done).
      assert (d ∉ activeButtons st) by (apply Hfresh; set_solver).
      set_solver. }
    { intros pr' Hin. apply HP. set_solver. }
    exists st', (tr1 ++ tr). split.
    { cbn [fmap list_fmap]. eapply run_cons; [exact E1 | exact Er]. }
    split_and!.
    + intros d Hin. apply Hkeep. rewrite Hab. set_solver.
    + intros d ch Hnot Hsome. apply Hframe.
      * intros Hin. apply Hnot. cbn [degrees fmap list_fmap]. set_solver.
      * rewrite Han. rewrite lookup_insert_ne; [done|].
        intros Heq. apply Hnot. rewrite <- Heq. cbn [degrees fmap list_fmap]. set_solver.
    + intros d Hin. cbn [degrees fmap list_fmap] in Hin.
      apply elem_of_cons in Hin as [->|Hin].
      * split.
        -- apply Hkeep. rewrite Hab. set_solver.
        -- exists (press_chord pr). split; [|done].
           apply Hframe; [done|]. rewrite Han. by rewrite lookup_insert_eq.
      * by apply Hact.
    + rewrite Hg. rewrite (holders_lookup _ _ _ Hl). cbn [default].
      destruct presses as [|pr2 presses]; [rewrite Hl|]; f_equal;
        cbn [degrees fmap list_fmap list_to_set]; set_solver.
    + rewrite noteOns_app, Hon, Hons.
      destruct presses as [|pr2 presses]; [lia|].
      rewrite (holders_Some _ _ _ Hl).
      rewrite (bool_decide_eq_false_2 ({[press_degree pr]} ∪ _ = ∅)) by set_solver.
      lia.
    + rewrite noteOffs_app, Hoff, Hoffs. done.
Qed.

(** Releasing, in any order, all the buttons that hold a pitch stops it
    exactly once, at the last release. *)
Lemma run_releases c P rs : ∀ st,
  audioEngine c = true →
  NoDup rs.*1 → rs ≠ [] →
  (∀ d, d ∈ rs.*1 →
     d ∈ activeButtons st ∧ ∃ ch, activeNotes st !! d = Some ch ∧ P ∈ ch) →
  globalMidiNotes st !! P = Some (list_to_set rs.*1) →
  ∃ st' tr,
    run c st (up <$> rs) = Some (st', tr) ∧
    noteOffs P tr = 1 ∧ noteOns P tr = 0 ∧ globalMidiNotes st' !! P = None.
Proof.
  intros st He. revert st.
  induction rs as [|[d t] rs IH]; intros st Hnd Hne Hact Hg; [done|].
  cbn [fmap list_fmap fst] in Hnd, Hact, Hg. apply NoDup_cons in Hnd as [Hhd Hnd].
  destruct (Hact d) as (Hd & ch & Hch & HP); [set_solver|].
  destruct (handleButtonUp_active c st d t ch He Hd Hch) as (Hab & Han & Hp).
  destruct (Hp P) as (Hl & Hoff & Hon). clear Hp.
  unfold releasedAfter in Hl. unfold offsAdded in Hoff.
  rewrite (bool_decide_eq_true_2 (P ∈ ch)) in Hl, Hoff by done.
  rewrite Hg in Hl, Hoff. cbn [andb leave lastOut list_to_set] in Hl, Hoff.
  assert (Hrest : ({[d]} ∪ list_to_set rs.*1 : gset nat) ∖ {[d]} = list_to_set rs.*1).
  { apply set_eq. intros x. rewrite elem_of_difference, elem_of_union,
      elem_of_singleton, elem_of_list_to_set.
    split; [tauto|]. intros Hx. split; [tauto|]. intros ->. done. }
  rewrite Hrest in Hl, Hoff.
  destruct (handleButtonUp c st d t) as [st1 tr1] eqn:E1. cbn [fst snd] in *.
  destruct rs as [|r2 rs].
  - cbn [fmap list_fmap list_to_set] in Hl, Hoff.
    rewrite bool_decide_eq_true_2 in Hl, Hoff by done.
    exists st1, (tr1 ++ []). split.
    { eapply run_cons; [cbn; by rewrite E1 | done]. }
    rewrite app_nil_r. done.
  - assert (Hne2 : (list_to_set (r2 :: rs).*1 : gset nat) ≠ ∅).
    { cbn [fmap list_fmap list_to_set]. set_solver. }
    rewrite bool_decide_eq_false_2 in Hl, Hoff by done.
    destruct (IH st1) as (st' & tr & Er & Hoffs & Hons & Hfin); [done | done | | done |].
    { intros d' Hin. destruct (Hact d') as (Hd' & ch' & Hch' & HP'); [set_solver|].
      assert (d' ≠ d) by (intros ->; done).
      split; [rewrite Hab; set_solver|].
      exists ch'. split; [|done]. rewrite Han. by rewrite lookup_delete_ne. }
    exists st', (tr1 ++ tr). split.
    { eapply run_cons; [cbn; by rewrite E1 | exact Er]. }
    rewrite noteOffs_app, noteOns_app, Hoff, Hon, Hoffs, Hons. done.
Qed.

(** *** Any overlapping run of presses and releases *)

Lemma button_step c st ev P :
  currentMode c = Store.play → no_empty_entry (globalMidiNotes st) → isButton ev →
  ∃ st1 tr1,
    step c st ev = Some (st1, tr1) ∧
    no_empty_entry (globalMidiNotes st1) ∧
    noteOns P tr1 =
      (if decide (holders (globalMidiNotes st) P = ∅ ∧
                  holders (globalMidiNotes st1) P ≠ ∅) then 1 else 0) ∧
    noteOffs P tr1 =
      (if decide (holders (globalMidiNotes st) P ≠ ∅ ∧
                  holders (globalMidiNotes st1) P = ∅) then 1 else 0).
Proof.
  intros Hm Hwf Hev. destruct ev as [d chord et now r1 r2|d t| | | |]; try done.
  - destruct (noteOn_on_first_holder c st d chord et now r1 r2 P Hm)
      as (st1 & tr1 & E & Hoff & Hle & Hiff).
    exists st1, tr1. cbn [step]. split; [done|].
    split; [by eapply no_empty_entry_down|]. split.
    + case_decide as Hc; [by apply Hiff|].
      destruct (noteOns P tr1) as [|[|n]]; [done | exfalso; apply Hc; by apply Hiff | lia].
    + rewrite Hoff. rewrite decide_False; [done|]. intros [Hne Hemp].
      apply Hne. destruct (decide (d ∈ activeButtons st)) as [Hd|Hd].
      { rewrite handleButtonDown_idle in E by done. by simplify_eq. }
      destruct (audioEngine c) eqn:He.
      * destruct (handleButtonDown_play c st d chord et now r1 r2 He Hm Hd)
          as (st2 & tr2 & E2 & _ & _ & Hp).
        rewrite E in E2. simplify_eq. destruct (Hp P) as (Hl & _).
        rewrite (holders_lookup _ _ _ Hl) in Hemp. unfold heldAfter in Hemp.
        destruct (bool_decide (P ∈ chord)); cbn in Hemp; [set_solver | done].
      * unfold handleButtonDown in E. rewrite He in E. cbn in E. by simplify_eq.
  - eexists _, _. cbn [step]. split; [by rewrite <- surjective_pairing|].
    split; [by apply no_empty_entry_up|].
    destruct (noteOff_on_last_holder c st d t P Hwf) as (Hon & Hle & Hiff). split.
    + rewrite Hon. rewrite decide_False; [done|]. intros [Hemp Hne]. apply Hne.
      destruct (audioEngine c) eqn:He; [|by rewrite handleButtonUp_off].
      destruct (decide (d ∈ activeButtons st)) as [Hd|Hd];
        [|by rewrite handleButtonUp_idle].
      destruct (activeNotes st !! d) as [chord|] eqn:Hn.
      * destruct (handleButtonUp_active c st d t chord He Hd Hn) as (_ & _ & Hp).
        destruct (Hp P) as (Hl & _). rewrite (holders_lookup _ _ _ Hl).
        unfold releasedAfter, holders in *.
        destruct (bool_decide (P ∈ chord)); [|done].
        destruct (globalMidiNotes st !! P) as [hb|]; cbn in *; [|done].
        subst hb. by rewrite bool_decide_eq_true_2 by set_solver.
      * by destruct (handleButtonUp_no_notes c st d t Hn) as [-> _].
    + case_decide as Hc; [by apply Hiff|].
      destruct (noteOffs P (handleButtonUp c st d t).2) as [|[|n]];
        [done | exfalso; apply Hc; by apply Hiff | lia].
Qed.

(** From a state in which the pitch is held, a run that keeps it held until
    its last event and ends with it free stops it once and never starts it. *)
Lemma run_while_held c P evs : ∀ st,
  currentMode c = Store.play → no_empty_entry (globalMidiNotes st) →
  Forall isButton evs → evs ≠ [] →
  holders (globalMidiNotes st) P ≠ ∅ →
  heldUntilEnd c P st evs = true →
  ∃ st' tr,
    run c st evs = Some (st', tr) ∧
    (holders (globalMidiNotes st') P = ∅ → noteOns P tr = 0 ∧ noteOffs P tr = 1).
Proof.
  induction evs as [|ev evs IH]; intros st Hm Hwf Hbtn Hne Hheld Hrun; [done|].
  apply Forall_cons in Hbtn as [Hev Hbtn].
  destruct (button_step c st ev P Hm Hwf Hev) as (st1 & tr1 & E1 & Hwf1 & Hon & Hoff).
  cbn [heldUntilEnd] in Hrun. rewrite E1 in Hrun.
  apply andb_true_iff in Hrun as [Hkeep Hrun].
  rewrite decide_False in Hon by tauto.
  destruct evs as [|ev2 evs].
  - exists st1, (tr1 ++ []). split; [by eapply run_cons|].
    intros Hfin. rewrite app_nil_r, Hon, Hoff. by rewrite decide_True.
  - assert (Hh1 : holders (globalMidiNotes st1) P ≠ ∅)
      by (by apply negb_true_iff, bool_decide_eq_false_1 in Hkeep).
    rewrite decide_False in Hoff by tauto.
    destruct (IH st1 Hm Hwf1 Hbtn) as (st' & tr & Er & Hfin); [done..|].
    exists st', (tr1 ++ tr). split; [by eapply run_cons|].
    intros Hend. destruct (Hfin Hend) as [H1 H2].
    rewrite noteOns_app, noteOffs_app, Hon, Hoff, H1, H2. done.
Qed.

End OwnershipFacts.


Module OwnershipClaims.
Import Engine ChordButtons EventLoop Props OwnershipFacts LiveExamples.

(** C1.  In play mode the engine is told to start a pitch only when its
    holder set goes from empty to non-empty and to stop it only when the set
    goes from non-empty to empty.  Hence when N buttons whose chords share a
    pitch that nobody holds are pressed and then released in any order, the
    engine receives exactly one note-on and exactly one note-off for it; and
    so it does along any run of presses and releases that keeps the pitch
    held from its first event to its last and ends with it free. *)
Theorem shared_pitch_sounds_once (c : Config) (st : State) (P : Z) :
  audioEngine c = true → currentMode c = Store.play →
  no_empty_entry (globalMidiNotes st) →
  (∀ d chord et now r1 r2,
     ∃ st' tr,
       handleButtonDown c st d chord et now r1 r2 = Some (st', tr) ∧
       noteOffs P tr = 0 ∧ noteOns P tr ≤ 1 ∧
       (noteOns P tr = 1 ↔
        holders (globalMidiNotes st) P = ∅ ∧ holders (globalMidiNotes st') P ≠ ∅)) ∧
  (∀ d t,
     noteOns P (handleButtonUp c st d t).2 = 0 ∧
     noteOffs P (handleButtonUp c st d t).2 ≤ 1 ∧
     (noteOffs P (handleButtonUp c st d t).2 = 1 ↔
      holders (globalMidiNotes st) P ≠ ∅ ∧
      holders (globalMidiNotes (handleButtonUp c st d t).1) P = ∅)) ∧
  (∀ (presses : list Press) (releases : list (nat * Qc)),
     presses ≠ [] →
     NoDup (degrees presses) →
     (∀ d, d ∈ degrees presses → d ∉ activeButtons st) →
     (∀ pr, pr ∈ presses → P ∈ press_chord pr) →
     holders (globalMidiNotes st) P = ∅ →
     releases.*1 ≡ₚ degrees presses →
     ∃ st' tr,
       run c st ((down <$> presses) ++ (up <$> releases)) = Some (st', tr) ∧
       noteOns P tr = 1 ∧ noteOffs P tr = 1 ∧
       holders (globalMidiNotes st') P = ∅) ∧
  (∀ ev evs,
     Forall isButton (ev :: evs) → evs ≠ [] →
     holders (globalMidiNotes st) P = ∅ →
     heldUntilEnd c P st (ev :: evs) = true →
     ∃ st' tr,
       run c st (ev :: evs) = Some (st', tr) ∧
       (holders (globalMidiNotes st') P = ∅ →
        noteOns P tr = 1 ∧ noteOffs P tr = 1)).
Proof.
  intros He Hm Hwf. split_and!; cycle 3.
  { intros ev evs Hbtn Hne Hfree Hheld.
    apply Forall_cons in Hbtn as [Hev Hbtn].
    destruct (button_step c st ev P Hm Hwf Hev) as (st1 & tr1 & E1 & Hwf1 & Hon & Hoff).
    cbn [heldUntilEnd] in Hheld. rewrite E1 in Hheld.
    apply andb_true_iff in Hheld as [Hkeep Hheld].
    assert (Hh1 : holders (globalMidiNotes st1) P ≠ ∅).
    { destruct evs; [done|]. by apply negb_true_iff, bool_decide_eq_false_1 in Hkeep. }
    rewrite decide_True in Hon by done. rewrite decide_False in Hoff by tauto.
    destruct (run_while_held c P evs st1 Hm Hwf1 Hbtn Hne Hh1 Hheld)
      as (st' & tr & Er & Hfin).
    exists st', (tr1 ++ tr). split; [by eapply run_cons|].
    intros Hend. destruct (Hfin Hend) as [H1 H2].
    rewrite noteOns_app, noteOffs_app, Hon, Hoff, H1, H2. done. }
  - intros. by apply noteOn_on_first_holder.
  - intros. by apply noteOff_on_last_holder.
  - intros presses releases Hne Hnd Hfresh HP Hfree Hperm.
    destruct (run_presses c P presses st He Hm Hnd Hfresh HP)
      as (st1 & tr1 & E1 & _ & _ & Hact & Hg & Hons & Hoffs).
    assert (Hg1 : globalMidiNotes st1 !! P = Some (list_to_set releases.*1)).
    { rewrite Hg. destruct presses as [|pr presses]; [done|].
      rewrite Hfree, Hperm. f_equal. set_solver. }
    assert (Hons1 : noteOns P tr1 = 1).
    { rewrite Hons. destruct presses; [done|]. by rewrite bool_decide_eq_true_2. }
    destruct (run_releases c P releases st1 He) as (st2 & tr2 & E2 & Hoff2 & Hon2 & Hfin).
    { by rewrite Hperm. }
    { intros ->. apply Permutation_nil_l in Hperm.
      destruct presses; [done | discriminate]. }
    { intros d Hin. apply Hact. by rewrite <- Hperm. }
    { done. }
    exists st2, (tr1 ++ tr2). split; [by eapply run_app|].
    rewrite noteOns_app, noteOffs_app, Hons1, Hoffs, Hoff2, Hon2.
    split_and!; [done..|]. by rewrite (holders_lookup _ _ _ Hfin).
Qed.


Lemma shared_pitch_sounds_once_witness :
  (∃ st' tr,
     run play_config (initial idle_sequencer)
       ((down <$> [press_I; press_vi]) ++
        (up <$> [(5, Num.ofZ 2000); (0, Num.ofZ 2500)])) = Some (st', tr) ∧
     noteOns 60 tr = 1 ∧ noteOffs 60 tr = 1 ∧
     holders (globalMidiNotes st') 60 = ∅) ∧
  (∃ st' tr,
     run play_config (initial idle_sequencer) chainOfThree = Some (st', tr) ∧
     noteOns 60 tr = 1 ∧ noteOffs 60 tr = 1).
Proof.
  assert (Hwf : no_empty_entry (globalMidiNotes (initial idle_sequencer))).
  { intros p hb H. cbn in H. rewrite lookup_empty in H. discriminate. }
  pose proof (shared_pitch_sounds_once play_config (initial idle_sequencer) 60%Z
                eq_refl eq_refl Hwf) as (_ & _ & Hall & Hchain).
  split.
  - apply (Hall [press_I; press_vi] [(5, Num.ofZ 2000); (0, Num.ofZ 2500)]).
    + discriminate.
    + cbn. repeat constructor; set_solver.
    + cbn. set_solver.
    + intros pr Hpr. apply elem_of_cons in Hpr as [->|Hpr].
      * cbn. set_solver.
      * apply list_elem_of_singleton in Hpr as ->. cbn. set_solver.
    + reflexivity.
    + cbn. apply perm_swap.
  - destruct (Hchain (ButtonDown 0 [60; 64; 67]%Z None (Num.ofZ 1000) 0%Qc 0%Qc)
                (tail chainOfThree)) as (st' & tr & E & Hends).
    + repeat constructor.
    + discriminate.
    + reflexivity.
    + by vm_compute.
    + exists st', tr. split; [exact E|]. apply Hends.
      vm_compute in E. injection E as <- _. reflexivity.
Defined.

Lemma handleButtonUp_buttons c st d t :
  audioEngine c = true → d ∈ activeButtons st →
  activeButtons (handleButtonUp c st d t).1 = activeButtons st ∖ {[d]}.
Proof.
  intros He Hd. unfold handleButtonUp. rewrite He.
  rewrite (bool_decide_eq_true_2 (d ∈ activeButtons st)) by done. cbn [negb].
  destruct (activeNotes st !! d); [|done].
  by destruct (fold_left _ _ _) as [[??]?].
Qed.

Lemma handleButtonUp_twice c st d t1 t2 :
  handleButtonUp c (handleButtonUp c st d t1).1 d t2 = ((handleButtonUp c st d t1).1, []).
Proof.
  destruct (audioEngine c) eqn:He; [|by rewrite !handleButtonUp_off].
  apply handleButtonUp_idle.
  destruct (decide (d ∈ activeButtons st)) as [Hd|Hd].
  - rewrite handleButtonUp_buttons by done. set_solver.
  - by rewrite handleButtonUp_idle.
Qed.

Lemma handleButtonUp_absent c st d t p :
  no_empty_entry (globalMidiNotes st) →
  d ∉ holders (globalMidiNotes st) p →
  globalMidiNotes (handleButtonUp c st d t).1 !! p = globalMidiNotes st !! p ∧
  noteOffs p (handleButtonUp c st d t).2 = 0.
Proof.
  intros Hwf Habs.
  destruct (audioEngine c) eqn:He; [|by rewrite handleButtonUp_off].
  destruct (decide (d ∈ activeButtons st)) as [Hd|Hd];
    [|by rewrite handleButtonUp_idle].
  destruct (activeNotes st !! d) as [chord|] eqn:Hn.
  - destruct (handleButtonUp_active c st d t chord He Hd Hn) as (_ & _ & Hp).
    destruct (Hp p) as (-> & -> & _). clear Hp.
    unfold releasedAfter, offsAdded, holders in *.
    destruct (bool_decide (p ∈ chord)); [|done]. cbn [andb].
    destruct (globalMidiNotes st !! p) as [hb|] eqn:Hg; [|done].
    cbn [default leave lastOut] in *.
    assert (hb ∖ {[d]} = hb) as -> by set_solver.
    rewrite bool_decide_eq_false_2; [done|]. by eapply Hwf.
  - by destruct (handleButtonUp_no_notes c st d t Hn) as [-> ->].
Qed.

(** C9.  A second release of the same button, with no press in between, is
    a no-op: it changes no state and calls nothing, so the two releases
    together stop a pitch at most once.  Releasing a button that is not
    among the holders of a pitch leaves that pitch's holder set as it was
    and does not stop the pitch. *)
Theorem release_twice_stops_at_most_once (c : Config) (st : State)
    (d : nat) (t1 t2 : Qc) (p : Z) :
  no_empty_entry (globalMidiNotes st) →
  handleButtonUp c (handleButtonUp c st d t1).1 d t2
    = ((handleButtonUp c st d t1).1, []) ∧
  noteOffs p ((handleButtonUp c st d t1).2 ++
              (handleButtonUp c (handleButtonUp c st d t1).1 d t2).2) ≤ 1 ∧
  (d ∉ holders (globalMidiNotes st) p →
   globalMidiNotes (handleButtonUp c st d t1).1 !! p = globalMidiNotes st !! p ∧
   noteOffs p (handleButtonUp c st d t1).2 = 0).
Proof.
  intros Hwf. split_and!.
  - apply handleButtonUp_twice.
  - rewrite handleButtonUp_twice. cbn [snd]. rewrite app_nil_r.
    by destruct (noteOff_on_last_holder c st d t1 p Hwf) as (_ & ? & _).
  - by apply handleButtonUp_absent.
Qed.


Lemma release_twice_stops_at_most_once_witness :
  handleButtonUp play_config
    (handleButtonUp play_config held_I 0 (Num.ofZ 2000)).1 0 (Num.ofZ 2001)
    = ((handleButtonUp play_config held_I 0 (Num.ofZ 2000)).1, []) ∧
  noteOffs 60
    ((handleButtonUp play_config held_I 0 (Num.ofZ 2000)).2 ++
     (handleButtonUp play_config
        (handleButtonUp play_config held_I 0 (Num.ofZ 2000)).1 0 (Num.ofZ 2001)).2) ≤ 1 ∧
  (0 ∉ holders (globalMidiNotes held_I) 60 →
   globalMidiNotes (handleButtonUp play_config held_I 0 (Num.ofZ 2000)).1 !! 60%Z
     = globalMidiNotes held_I !! 60%Z ∧
   noteOffs 60 (handleButtonUp play_config held_I 0 (Num.ofZ 2000)).2 = 0).
Proof.
  apply (release_twice_stops_at_most_once play_config held_I 0
           (Num.ofZ 2000) (Num.ofZ 2001) 60%Z).
  unfold held_I.
  destruct (handleButtonDown play_config (initial idle_sequencer) 0
              [60; 64; 67]%Z None (Num.ofZ 1000) 0%Qc 0%Qc) as [[st tr]|] eqn:E.
  - cbn [fmap option_fmap option_map default fst].
    refine (no_empty_entry_down play_config _ _ _ _ _ _ _ _ _ eq_refl E _).
    intros p hb H. cbn in H. rewrite lookup_empty in H. discriminate.
  - intros p hb H. cbn in H. rewrite lookup_empty in H. discriminate.
Defined.

End OwnershipClaims.

(** ** The arpeggiator sequence *)

Module ArpFacts.
Import Engine ChordButtons EventLoop Props.

Lemma removelast_snoc (xs : list Z) t : removelast (xs ++ [t]) = xs.
Proof. by rewrite removelast_last. Qed.

Lemma extendChord_succ (n : nat) (chord : list Z) :
  extendChord (S n) chord = chord ++ extendChord n ((λ note, (note + 12)%Z) <$> chord).
Proof.
  unfold extendChord. cbn [seq flat_map]. f_equal.
  - rewrite <- (map_id chord) at 2. apply map_ext. intros note. lia.
  - rewrite <- seq_shift, !flat_map_concat_map, map_map. f_equal.
    apply map_ext. intros oct.
    induction chord as [|note chord IH]; [done|].
    cbn [map fmap list_fmap]. f_equal; [lia | exact IH].
Qed.

(** The octave extension of the code is the expansion the specification
    describes. *)
Lemma extendChord_refines_spec (n : nat) : ∀ chord,
  extendChord n chord = octave_expanded n chord.
Proof.
  induction n as [|n IH]; intros chord; [done|].
  by rewrite extendChord_succ, IH.
Qed.

Lemma updown_refines_spec (l : list Z) :
  applyPattern Store.updown l = updown_spec l.
Proof.
  unfold applyPattern, updown_spec, slice_0_m1.
  destruct l as [|x l0] using rev_ind; [done|]. clear IHl0.
  rewrite rev_app_distr. cbn [rev app].
  rewrite removelast_snoc.
  rewrite take_app_length, drop_app_ge by lia.
  replace (S (List.length (l0 ++ [x])) - List.length (l0 ++ [x])) with 1 by lia.
  cbn [drop].
  destruct l0 as [|y l0].
  - done.
  - rewrite removelast_app by (cbn; intros E; by apply app_eq_nil in E as [_ ?]).
    rewrite <- app_assoc. cbn [app]. f_equal.
    cbn [rev]. destruct (rev l0 ++ [y]) eqn:E; [by apply app_eq_nil in E as [_ ?]|].
    done.
Qed.

End ArpFacts.


Module ArpRun.
Import Engine ChordButtons EventLoop Props ArpFacts LiveExamples.

Lemma sounded_app tr1 tr2 : sounded (tr1 ++ tr2) = sounded tr1 ++ sounded tr2.
Proof. apply omap_app. Qed.

Lemma stopped_app tr1 tr2 : stopped (tr1 ++ tr2) = stopped tr1 ++ stopped tr2.
Proof. apply omap_app. Qed.

(** One step of a non-random session plays the note under the cursor and
    moves the cursor on. *)
Lemma playNote_cursor s q t r1 r2 n :
  arp_pattern s ≠ Store.random →
  arpNotes s !! (currentNoteIndex s mod List.length (arpNotes s)) = Some n →
  ∃ s' q' tr,
    playNote s q t r1 r2 = Some (s', q', tr) ∧
    sounded tr = [n] ∧
    stopped tr = option_list (currentPlayingNote s) ∧
    arp_degree s' = arp_degree s ∧ arpNotes s' = arpNotes s ∧
    arp_pattern s' = arp_pattern s ∧
    currentNoteIndex s' = S (currentNoteIndex s) ∧
    currentPlayingNote s' = Some n.
Proof.
  intros Hpat Hn. unfold playNote.
  assert (Hi : noteIndex s r1 = currentNoteIndex s mod List.length (arpNotes s)).
  { unfold noteIndex. by destruct (arp_pattern s). }
  assert (Hx : nextIndex s = S (currentNoteIndex s)).
  { unfold nextIndex. by destruct (arp_pattern s). }
  rewrite Hi, Hn. cbn [mbind option_bind]. eexists _, _, _. split; [done|].
  cbn. split_and!; try done.
  - rewrite sounded_app. by destruct (currentPlayingNote s).
  - rewrite stopped_app. by destruct (currentPlayingNote s).
Qed.

Lemma stepTimer_cursor st sid s now r1 r2 n :
  sessions st !! sid = Some s →
  arpIntervals st !! arp_degree s = Some sid →
  arp_pattern s ≠ Store.random →
  arpNotes s !! (currentNoteIndex s mod List.length (arpNotes s)) = Some n →
  ∃ st' s' tr,
    stepTimer st sid now r1 r2 = Some (st', tr) ∧
    sounded tr = [n] ∧
    sessions st' !! sid = Some s' ∧
    arpIntervals st' !! arp_degree s' = Some sid ∧
    arpNotes s' = arpNotes s ∧ arp_pattern s' = arp_pattern s ∧
    currentNoteIndex s' = S (currentNoteIndex s).
Proof.
  intros Hs Hi Hpat Hn. unfold stepTimer. rewrite Hs.
  rewrite bool_decide_eq_true_2 by done.
  destruct (playNote_cursor s (sequencer st) now r1 r2 n Hpat Hn)
    as (s' & q' & tr & E & Hsnd & _ & Hdeg & Hnotes & Hp & Hidx & _).
  rewrite E. cbn. eexists _, s', _. split; [done|]. split; [done|].
  split; [|by rewrite Hdeg].
  apply list_lookup_insert_eq. by eapply lookup_lt_Some.
Qed.

Lemma cursor_lookup (cyc : list Z) i :
  cyc ≠ [] → cyc !! (i mod List.length cyc) = Some (nth (i mod List.length cyc) cyc 0%Z).
Proof.
  intros Hne. destruct (nth_lookup_or_length cyc (i mod List.length cyc) 0%Z) as [H|H];
    [done|].
  assert (0 < List.length cyc) by (destruct cyc; [done | cbn; lia]).
  pose proof (Nat.mod_upper_bound i (List.length cyc)). lia.
Qed.

(** A run of step timers walks the sequence cyclically from the cursor. *)
Lemma run_timers c sid (cyc : list Z) ticks : ∀ st s,
  cyc ≠ [] →
  sessions st !! sid = Some s →
  arpIntervals st !! arp_degree s = Some sid →
  arp_pattern s ≠ Store.random →
  arpNotes s = cyc →
  ∃ st' tr,
    run c st (timer sid <$> ticks) = Some (st', tr) ∧
    sounded tr =
      (λ k, nth ((currentNoteIndex s + k) mod List.length cyc) cyc 0%Z)
        <$> seq 0 (List.length ticks).
Proof.
  induction ticks as [|tk ticks IH]; intros st s Hne Hs Hi Hpat Hcyc.
  - exists st, []. done.
  - destruct (stepTimer_cursor st sid s tk.1.1 tk.1.2 tk.2
                (nth (currentNoteIndex s mod List.length cyc) cyc 0%Z) Hs Hi Hpat)
      as (st1 & s1 & tr1 & E1 & Hsnd & Hs1 & Hi1 & Hn1 & Hp1 & Hidx).
    { rewrite Hcyc. by apply cursor_lookup. }
    destruct (IH st1 s1 Hne Hs1 Hi1) as (st2 & tr2 & E2 & Hsnd2).
    { by rewrite Hp1. }
    { by rewrite Hn1. }
    exists st2, (tr1 ++ tr2). split.
    { cbn [fmap list_fmap]. eapply OwnershipFacts.run_cons; [exact E1 | exact E2]. }
    rewrite sounded_app, Hsnd, Hsnd2. cbn [List.length seq fmap list_fmap app].
    rewrite Nat.add_0_r. f_equal.
    rewrite <- fmap_S_seq, <- list_fmap_compose.
    apply list_fmap_ext. intros _ k _. cbn. rewrite Hidx.
    by replace (S (currentNoteIndex s) + k) with (currentNoteIndex s + S k) by lia.
Qed.


Lemma handleButtonDown_arp c st d chord et now r1 r2 n :
  audioEngine c = true → currentMode c = Store.arpeggiator →
  d ∉ activeButtons st →
  Store.pattern (arpSettings c) ≠ Store.random →
  buildArpNotes (arpSettings c) chord !! 0 = Some n →
  ∃ st' s tr,
    handleButtonDown c st d chord et now r1 r2 = Some (st', tr) ∧
    sounded tr = [n] ∧ stopped tr = [] ∧
    sessions st' = sessions st ++ [s] ∧
    arpIntervals st' = <[d := List.length (sessions st)]> (arpIntervals st) ∧
    globalMidiNotes st' = globalMidiNotes st ∧
    activeButtons st' = {[d]} ∪ activeButtons st ∧
    activeNotes st' = <[d := buildArpNotes (arpSettings c) chord]> (activeNotes st) ∧
    arp_degree s = d ∧ arpNotes s = buildArpNotes (arpSettings c) chord ∧
    arp_pattern s = Store.pattern (arpSettings c) ∧
    currentNoteIndex s = 1 ∧ currentPlayingNote s = Some n.
Proof.
  intros He Hm Hd Hpat Hn. unfold handleButtonDown. rewrite He, Hm.
  rewrite bool_decide_eq_false_2 by done. cbn [negb orb].
  match goal with |- context [playNote ?f ?q ?t ?a ?b] =>
    destruct (playNote_cursor f q t a b n)
      as (s & q' & tr & E & Hsnd & Hstop & H1 & H2 & H3 & H4 & H5);
      [done | by rewrite Nat.Div0.mod_0_l | ] end.
  rewrite E. cbn. eexists _, s, _. split; [done|].
  split_and!; done.
Qed.

(** C7.  For every chord, the up-down order built by the arpeggiator is the
    octave-expanded sequence (the chord, then the chord an octave up, and
    so on) followed by its reverse with the repeated top and the repeated
    bottom taken out; for the chord 60, 64, 67 it is 60, 64, 67, 64 over one
    octave and 60, 64, 67, 72, 76, 79, 76, 72, 67, 64 over two; and the steps
    of a held button walk that sequence cyclically, whatever the chord, the
    button and the number of octaves. *)
Theorem updown_sequence :
  (∀ a chord, Store.pattern a = Store.updown →
     buildArpNotes a chord = updown_spec (octave_expanded (Store.octaves a) chord)) ∧
  (∀ a, Store.pattern a = Store.updown → Store.octaves a = 1 →
     buildArpNotes a [60; 64; 67]%Z = [60; 64; 67; 64]%Z) ∧
  (∀ a, Store.pattern a = Store.updown → Store.octaves a = 2 →
     buildArpNotes a [60; 64; 67]%Z = [60; 64; 67; 72; 76; 79; 76; 72; 67; 64]%Z) ∧
  (∀ c st et now r1 r2 ticks,
     audioEngine c = true → currentMode c = Store.arpeggiator →
     Store.pattern (arpSettings c) = Store.updown →
     Store.octaves (arpSettings c) = 1 →
     0 ∉ activeButtons st →
     ∃ st' tr,
       run c st (ButtonDown 0 [60; 64; 67]%Z et now r1 r2
                 :: (timer (List.length (sessions st)) <$> ticks)) = Some (st', tr) ∧
       sounded tr =
         (λ k, nth (k mod 4) [60; 64; 67; 64]%Z 0%Z) <$> seq 0 (S (List.length ticks))) ∧
  (∀ c st d chord et now r1 r2 ticks,
     audioEngine c = true → currentMode c = Store.arpeggiator →
     Store.pattern (arpSettings c) = Store.updown →
     d ∉ activeButtons st →
     updown_spec (octave_expanded (Store.octaves (arpSettings c)) chord) ≠ [] →
     ∃ st' tr,
       run c st (ButtonDown d chord et now r1 r2
                 :: (timer (List.length (sessions st)) <$> ticks)) = Some (st', tr) ∧
       sounded tr =
         (λ k, nth (k mod List.length
                              (updown_spec
                                 (octave_expanded (Store.octaves (arpSettings c)) chord)))
                   (updown_spec (octave_expanded (Store.octaves (arpSettings c)) chord))
                   0%Z)
           <$> seq 0 (S (List.length ticks))).
Proof.
  assert (Hspec : ∀ a chord, Store.pattern a = Store.updown →
            buildArpNotes a chord
            = updown_spec (octave_expanded (Store.octaves a) chord)).
  { intros a chord Hp. unfold buildArpNotes.
    by rewrite Hp, updown_refines_spec, extendChord_refines_spec. }
  assert (Hwalk : ∀ c st d chord et now r1 r2 ticks,
     audioEngine c = true → currentMode c = Store.arpeggiator →
     Store.pattern (arpSettings c) = Store.updown →
     d ∉ activeButtons st →
     updown_spec (octave_expanded (Store.octaves (arpSettings c)) chord) ≠ [] →
     ∃ st' tr,
       run c st (ButtonDown d chord et now r1 r2
                 :: (timer (List.length (sessions st)) <$> ticks)) = Some (st', tr) ∧
       sounded tr =
         (λ k, nth (k mod List.length
                              (updown_spec
                                 (octave_expanded (Store.octaves (arpSettings c)) chord)))
                   (updown_spec (octave_expanded (Store.octaves (arpSettings c)) chord))
                   0%Z)
           <$> seq 0 (S (List.length ticks))).
  { intros c st d chord et now r1 r2 ticks He Hm Hp Hd Hne.
    set (cyc := updown_spec (octave_expanded (Store.octaves (arpSettings c)) chord)) in *.
    assert (Hcyc : buildArpNotes (arpSettings c) chord = cyc) by (by apply Hspec).
    destruct (handleButtonDown_arp c st d chord et now r1 r2 (nth 0 cyc 0%Z) He Hm Hd)
      as (st1 & s & tr1 & E1 & Hsnd & _ & Hss & Hint & _ & _ & _ & Hdeg & Hnotes & Hpat & Hidx & _).
    { by rewrite Hp. }
    { rewrite Hcyc. pose proof (cursor_lookup cyc 0 Hne) as H0.
      by rewrite Nat.Div0.mod_0_l in H0. }
    destruct (run_timers c (List.length (sessions st)) cyc ticks st1 s)
      as (st2 & tr2 & E2 & Hsnd2).
    { done. }
    { rewrite Hss. by apply list_lookup_middle. }
    { by rewrite Hint, Hdeg, lookup_insert_eq. }
    { by rewrite Hpat, Hp. }
    { by rewrite Hnotes. }
    exists st2, (tr1 ++ tr2). split.
    { eapply OwnershipFacts.run_cons; [exact E1 | exact E2]. }
    rewrite sounded_app, Hsnd, Hsnd2, Hidx. cbn [seq fmap list_fmap app].
    rewrite Nat.Div0.mod_0_l. f_equal.
    rewrite <- fmap_S_seq, <- list_fmap_compose. done. }
  assert (H1 : ∀ a, Store.pattern a = Store.updown → Store.octaves a = 1 →
            buildArpNotes a [60; 64; 67]%Z = [60; 64; 67; 64]%Z).
  { intros a Hp Ho. by rewrite Hspec, Ho. }
  assert (H2 : ∀ a, Store.pattern a = Store.updown → Store.octaves a = 2 →
            buildArpNotes a [60; 64; 67]%Z = [60; 64; 67; 72; 76; 79; 76; 72; 67; 64]%Z).
  { intros a Hp Ho. by rewrite Hspec, Ho. }
  split_and!; [done | done | done | | done].
  intros c st et now r1 r2 ticks He Hm Hp Ho Hd.
  destruct (Hwalk c st 0 [60; 64; 67]%Z et now r1 r2 ticks He Hm Hp Hd) as (st' & tr & E & Hs).
  { by rewrite Ho. }
  exists st', tr. split; [done|]. by rewrite Hs, Ho.
Qed.

Lemma updown_sequence_witness :
  ∃ st' tr,
    run updown_two_octaves (initial idle_sequencer)
      (ButtonDown 0 [60; 64; 67]%Z None (Num.ofZ 1000) 0%Qc 0%Qc
       :: (timer 0 <$> ten_ticks)) = Some (st', tr) ∧
    sounded tr = [60; 64; 67; 72; 76; 79; 76; 72; 67; 64; 60]%Z.
Proof.
  destruct (proj2 (proj2 (proj2 (proj2 updown_sequence))) updown_two_octaves
              (initial idle_sequencer) 0 [60; 64; 67]%Z None (Num.ofZ 1000) 0%Qc 0%Qc
              ten_ticks eq_refl eq_refl eq_refl) as (st' & tr & E & Hs).
  - cbn. set_solver.
  - by vm_compute.
  - exists st', tr. split; [exact E|]. rewrite Hs. by vm_compute.
Defined.

End ArpRun.


(** ** Numbers *)

Module NumFacts.
Import Props.
Local Open Scope Qc_scope.

Lemma Math_max_l x y : x ≤ Num.Math_max x y.
Proof. unfold Num.Math_max. case_decide; [done | apply Qcle_refl]. Qed.

Lemma Math_max_r x y : y ≤ Num.Math_max x y.
Proof.
  unfold Num.Math_max. case_decide as H; [apply Qcle_refl|].
  by apply Qclt_le_weak, Qcnot_le_lt.
Qed.

Lemma Math_max_cases x y : Num.Math_max x y = x ∨ Num.Math_max x y = y.
Proof. unfold Num.Math_max. case_decide; auto. Qed.

Lemma Math_max_list_is_maximum xs : ∀ x, is_maximum (Num.Math_max_list x xs) x xs.
Proof.
  unfold Num.Math_max_list, is_maximum.
  induction xs as [|y ys IH]; intros x; cbn [fold_left].
  - split; [set_solver|]. intros z Hz. apply list_elem_of_singleton in Hz as ->.
    apply Qcle_refl.
  - destruct (IH (Num.Math_max x y)) as [Hin Hub]. split.
    + apply elem_of_cons in Hin as [->|Hin]; [|set_solver].
      destruct (Math_max_cases x y) as [-> | ->]; set_solver.
    + intros z Hz.
      assert (Hm : Num.Math_max x y ≤ fold_left Num.Math_max ys (Num.Math_max x y))
        by (apply Hub; set_solver).
      apply elem_of_cons in Hz as [->|Hz].
      { eapply Qcle_trans; [apply Math_max_l | exact Hm]. }
      apply elem_of_cons in Hz as [->|Hz].
      { eapply Qcle_trans; [apply Math_max_r | exact Hm]. }
      apply Hub. set_solver.
Qed.

Lemma Math_max_scale x y k : 0 < k → Num.Math_max (x * k) (y * k) = Num.Math_max x y * k.
Proof.
  intros Hk. unfold Num.Math_max.
  destruct (decide (x ≤ y)) as [H|H].
  - rewrite decide_True; [done|]. by apply Qcmult_le_mono_pos_r.
  - rewrite decide_False; [done|]. by rewrite <- Qcmult_le_mono_pos_r.
Qed.

Lemma thousand_pos : 0 < Num.ofZ 1000.
Proof. done. Qed.

End NumFacts.

(** ** Recording capture *)

Module RecorderClaims.
Import Props PatternRecorder.

(** C6.  Saving an empty recording is refused and leaves the store as it
    was; saving a non-empty one hands out a pattern holding the recorded
    notes, whose length is the largest recorded time divided by 1000 plus
    half a second and whose captured parameters are the current synthesis
    and effects settings (the filter being a copy of the store's filter
    object, an empty object when the store has none), appends it to the
    patterns and empties the buffer. *)
Theorem savePattern_outcome (q : Store.Sequencer) (current : Store.Parameters)
    (patternName now1 now2 : string) (r : Qc) :
  match Store.recordedNotes q with
  | [] => savePattern q current patternName now1 now2 r = (q, EmptyRecording)
  | n :: ns =>
      ∃ p m q',
        savePattern q current patternName now1 now2 r = (q', Saved p) ∧
        is_maximum m (Store.time n) (Store.time <$> ns) ∧
        Store.length p = (m / Num.ofZ 1000 + Num.ratio 1 2)%Qc ∧
        (∃ params,
           Store.capturedParameters p = Some params ∧
           Store.waveform params = Store.waveform current ∧
           Store.adsr params = Store.adsr current ∧
           Store.filter params
           = Some (match Store.filter current with
                   | Some f => f
                   | None => Store.emptyFilter
                   end) ∧
           Store.lfo params = Store.lfo current ∧
           Store.detune params = Store.detune current ∧
           Store.effects params = Store.effects current) ∧
        Store.notes p = n :: ns ∧
        Store.recordedNotes q' = [] ∧
        Store.patterns q' = Store.patterns q ++ [p] ∧
        Store.isRecording q' = Store.isRecording q
  end.
Proof.
  unfold savePattern. destruct (Store.recordedNotes q) as [|n ns]; [done|].
  eexists _, (Num.Math_max_list (Store.time n) (Store.time <$> ns)), _.
  split; [done|]. cbn. split_and!; try done.
  - apply NumFacts.Math_max_list_is_maximum.
  - eexists. split; [done|]. unfold capture. cbn. by split_and!.
Qed.

End RecorderClaims.

(** ** The loop duration *)

Module LoopDuration.
Import Props Timeline.
Local Open Scope Qc_scope.

Lemma clipEnd_ms e clip p :
  clipEndSeconds e clip p * Num.ofZ 1000
  = Store.startTime clip * beatDuration e + Store.length p * Num.ofZ 1000.
Proof. unfold clipEndSeconds, beatDuration, Qcdiv. ring. Qed.

Lemma endsFrom_cons e clip clips :
  endsFrom e (clip :: clips) =
  match findPattern (patterns e) (Store.patternId clip) with
  | Some p =>
      (Store.startTime clip * beatDuration e + Store.length p * Num.ofZ 1000)
      :: endsFrom e clips
  | None => endsFrom e clips
  end.
Proof.
  unfold endsFrom. cbn [omap list_omap].
  by destruct (findPattern (patterns e) (Store.patternId clip)).
Qed.

Lemma loopEnd_fold e clips : ∀ acc,
  fold_left
    (λ loopEndTime clip,
       match findPattern (patterns e) (Store.patternId clip) with
       | Some p => Num.Math_max loopEndTime (clipEndSeconds e clip p)
       | None => loopEndTime
       end) clips acc * Num.ofZ 1000
  = Num.Math_max_list (acc * Num.ofZ 1000) (endsFrom e clips).
Proof.
  induction clips as [|clip clips IH]; intros acc; [done|].
  cbn [fold_left]. rewrite IH, endsFrom_cons.
  destruct (findPattern (patterns e) (Store.patternId clip)) as [p|]; [|done].
  unfold Num.Math_max_list. cbn [fold_left].
  by rewrite <- clipEnd_ms, NumFacts.Math_max_scale by apply NumFacts.thousand_pos.
Qed.

Lemma loopDurationMs_max e :
  loopDurationMs e = Num.Math_max_list 0 (clipEndsMs e).
Proof.
  unfold loopDurationMs, loopEndTime. rewrite loopEnd_fold.
  by rewrite Qcmult_0_l.
Qed.

End LoopDuration.

(** ** The playback interval *)

Module TimelineFacts.
Import Engine Props Timeline.

Lemma tag_origin o cs : Forall (λ x, x.1 = o) (tag o cs).
Proof. unfold tag. apply Forall_fmap. by apply Forall_true. Qed.

(** *** What one clip appends to the log *)

Lemma tag_note_calls o cs : Forall is_note_call cs → Forall (λ x, is_note_call x.2) (tag o cs).
Proof. intros H. unfold tag. by apply Forall_fmap. Qed.

Lemma dispatchNote_step clip rel pb log note :
  ∃ seg,
    (dispatchNote clip rel (pb, log) note).2 = log ++ seg ∧
    Forall (λ x, x.1 = ClipPlaying (Store.clip_id clip)) seg ∧
    Forall (λ x, is_note_call x.2) seg ∧
    lastTime (dispatchNote clip rel (pb, log) note).1 = lastTime pb ∧
    currentParametersClipId (dispatchNote clip rel (pb, log) note).1
      = currentParametersClipId pb.
Proof.
  unfold dispatchNote.
  destruct (Num.ltb _ _ && negb _).
  - destruct (Store.type note); cbn [fst snd]; eexists; (split; [done|]);
      split_and!; try done; try apply tag_origin; apply tag_note_calls.
    + apply Forall_app. split; [by destruct (Ordered.has _ _); repeat constructor|].
      by repeat constructor.
    + by repeat constructor.
  - exists []. cbn. by rewrite app_nil_r.
Qed.

Lemma dispatchNote_fold clip rel notes : ∀ pb log,
  ∃ seg,
    (fold_left (dispatchNote clip rel) notes (pb, log)).2 = log ++ seg ∧
    Forall (λ x, x.1 = ClipPlaying (Store.clip_id clip)) seg ∧
    Forall (λ x, is_note_call x.2) seg ∧
    lastTime (fold_left (dispatchNote clip rel) notes (pb, log)).1 = lastTime pb ∧
    currentParametersClipId (fold_left (dispatchNote clip rel) notes (pb, log)).1
      = currentParametersClipId pb.
Proof.
  induction notes as [|note notes IH]; intros pb log; cbn [fold_left].
  - exists []. cbn. by rewrite app_nil_r.
  - destruct (dispatchNote_step clip rel pb log note) as (seg1 & H1 & F1 & N1 & L1 & O1).
    destruct (dispatchNote clip rel (pb, log) note) as [pb1 log1]. cbn [fst snd] in *.
    destruct (IH pb1 log1) as (seg2 & H2 & F2 & N2 & L2 & O2).
    exists (seg1 ++ seg2). rewrite H2, L2, O2, L1, O1, H1, app_assoc.
    split_and!; try done; by apply Forall_app.
Qed.


Lemma applyParameters_no_filter params :
  Store.filter params = None →
  applyParameters params
  = ([ setWaveform (waveformMap (Store.waveform params));
       setADSR (Store.attack (Store.adsr params)) (Store.decay (Store.adsr params))
         (Store.sustain (Store.adsr params)) (Store.release (Store.adsr params)) ],
     Thrown).
Proof. intros Hf. unfold applyParameters. by rewrite Hf. Qed.

Lemma initClipTracking_log clip p pb :
  Forall (λ x, x.1 = ClipPlaying (Store.clip_id clip)) (initClipTracking clip p pb).1.2 ∧
  lastTime (initClipTracking clip p pb).1.1 = lastTime pb.
Proof.
  unfold initClipTracking. destruct (Store.capturedParameters p); [|by cbn].
  destruct (negb _); cbn [fst snd]; [|by cbn].
  destruct (applyParameters _) as [cs [|]]; cbn [fst snd];
    (split; [apply tag_origin | done]).
Qed.

Lemma clipEnded_log e clip pb :
  Forall (λ x, x.1 = ClipEnded (Store.clip_id clip)) (clipEnded e clip pb).1.2 ∧
  lastTime (clipEnded e clip pb).1.1 = lastTime pb.
Proof.
  unfold clipEnded.
  destruct (if bool_decide _ then _ else _) as [restore completion].
  cbn [fst snd]. split; [apply tag_origin | done].
Qed.

(** The turn of one clip appends one segment to the log, made for that
    clip by the branch that its state on this beat selects. *)
Lemma clipStep_log e beat pb log clip :
  ∃ seg,
    (clipStep e beat (pb, log) clip).1.2 = log ++ seg ∧
    turn e beat clip seg ∧
    lastTime (clipStep e beat (pb, log) clip).1.1 = lastTime pb.
Proof.
  unfold clipStep, turn.
  destruct (findPattern (patterns e) (Store.patternId clip)) as [p|];
    [|exists []; cbn; by rewrite app_nil_r].
  destruct (isClipPlaying e beat clip p).
  - destruct (negb (Ordered.mhas (Store.clip_id clip) (activeClips pb))).
    + destruct (initClipTracking_log clip p pb) as [F1 L1].
      destruct (initClipTracking clip p pb) as [[pb1 log1] [|]]; cbn [fst snd] in *.
      * destruct (dispatchNote_fold clip
                    ((beat - Store.startTime clip) * beatDuration e)%Qc
                    (Store.notes p) pb1 (log ++ log1)) as (seg & H & F & _ & L & _).
        exists (log1 ++ seg). rewrite H, L, L1, app_assoc.
        split_and!; [done | | done]. by apply Forall_app.
      * by exists log1.
    + destruct (dispatchNote_fold clip
                  ((beat - Store.startTime clip) * beatDuration e)%Qc
                  (Store.notes p) pb (log ++ [])) as (seg & H & F & _ & L & _).
      cbn [fst snd]. exists seg. by rewrite H, L, app_nil_r.
  - destruct (Ordered.mhas (Store.clip_id clip) (activeClips pb)).
    + destruct (clipEnded_log e clip pb) as [F1 L1].
      destruct (clipEnded e clip pb) as [[pb1 log1] completion]. cbn [fst snd] in *.
      by exists log1.
    + exists []. cbn. rewrite app_nil_r. split_and!; [done | by apply Forall_nil | done].
Qed.

Lemma turn_one_branch e beat clip seg : turn e beat clip seg → one_branch clip seg.
Proof.
  unfold turn, one_branch.
  destruct (findPattern (patterns e) (Store.patternId clip)) as [p|].
  - destruct (isClipPlaying e beat clip p); auto.
  - intros ->. left. by apply Forall_nil.
Qed.

Lemma one_branch_from clip seg k o c :
  one_branch clip seg → seg !! k = Some (o, c) →
  o = ClipPlaying (Store.clip_id clip) ∨ o = ClipEnded (Store.clip_id clip).
Proof.
  intros [F|F] Hk; rewrite Forall_lookup in F; specialize (F k (o, c) Hk); auto.
Qed.

Lemma one_branch_not_both clip seg i j a b ca cb :
  one_branch clip seg →
  seg !! i = Some (ClipPlaying a, ca) → seg !! j = Some (ClipEnded b, cb) → False.
Proof.
  intros [F|F] Hi Hj; rewrite Forall_lookup in F.
  - by specialize (F j _ Hj).
  - by specialize (F i _ Hi).
Qed.

(** Segments that follow the clips keep the order of the clips. *)
Lemma segments_in_order clips segs :
  Forall2 one_branch clips segs →
  from_clips clips (concat segs) ∧ in_timeline_order clips (concat segs).
Proof.
  induction 1 as [|clip seg1 clips segs B1 _ [F2 O2]]; cbn [concat].
  - split.
    + intros k o c Hk. by rewrite lookup_nil in Hk.
    + intros i j a b ca cb _ Hi. by rewrite lookup_nil in Hi.
  - split.
    + intros k o c Hk. apply lookup_app_Some in Hk as [Hk|[_ Hk]].
      * exists 0, clip. split; [done|]. by eapply one_branch_from.
      * destruct (F2 _ _ _ Hk) as (i & cl & Hi & Ho). by exists (S i), cl.
    + intros i j a b ca cb Hij Hi Hj.
      apply lookup_app_Some in Hi as [Hi|[Hile Hi]];
        apply lookup_app_Some in Hj as [Hj|[Hjle Hj]].
      * exfalso. by eapply one_branch_not_both.
      * destruct (one_branch_from _ _ _ _ _ B1 Hi) as [Ha|Ha]; [|done].
        destruct (F2 _ _ _ Hj) as (ib & cl & Hib & [Hb|Hb]); [done|].
        exists 0, (S ib). split; [lia|]. simplify_eq. split; [done|].
        change ((clip :: clips) !! S ib) with (clips !! ib). by rewrite Hib.
      * apply lookup_lt_Some in Hj. lia.
      * destruct (O2 (i - List.length seg1) (j - List.length seg1) a b ca cb)
          as (ia & ib & Hlt & Ha & Hb); [lia | done | done |].
        exists (S ia), (S ib). split; [lia | done].
Qed.

Lemma from_clips_more visited skipped seg :
  from_clips visited seg → from_clips (visited ++ skipped) seg.
Proof.
  intros F k o c Hk. destruct (F k o c Hk) as (i & clip & Hi & Ho).
  exists i, clip. split; [|done]. by apply lookup_app_l_Some.
Qed.

Lemma in_timeline_order_more visited skipped seg :
  in_timeline_order visited seg → in_timeline_order (visited ++ skipped) seg.
Proof.
  intros O i j a b ca cb Hij Hi Hj.
  destruct (O i j a b ca cb Hij Hi Hj) as (ia & ib & Hlt & Ha & Hb).
  exists ia, ib. split; [done|].
  destruct (visited !! ia) as [x|] eqn:Ea; [|done].
  destruct (visited !! ib) as [y|] eqn:Eb; [|done].
  by rewrite (lookup_app_l_Some _ _ _ _ Ea), (lookup_app_l_Some _ _ _ _ Eb).
Qed.

(** The pass visits the clips in order, one segment each, up to the clip
    whose turn throws, if any. *)
Lemma forEachClip_log e beat clips : ∀ pb log,
  ∃ segs visited skipped,
    (forEachClip e beat clips (pb, log)).1.2 = log ++ concat segs ∧
    clips = visited ++ skipped ∧
    Forall2 (turn e beat) visited segs ∧
    match (forEachClip e beat clips (pb, log)).2 with
    | Returned => skipped = []
    | Thrown => visited ≠ []
    end ∧
    lastTime (forEachClip e beat clips (pb, log)).1.1 = lastTime pb.
Proof.
  induction clips as [|clip clips IH]; intros pb log; cbn [forEachClip].
  - exists [], [], []. cbn. rewrite app_nil_r. by split_and!.
  - destruct (clipStep_log e beat pb log clip) as (seg1 & H1 & T1 & L1).
    destruct (clipStep e beat (pb, log) clip) as [[pb1 log1] [|]]; cbn [fst snd] in *.
    + destruct (IH pb1 log1) as (segs & visited & skipped & H2 & Hc & F2 & Hend & L2).
      exists (seg1 :: segs), (clip :: visited), skipped. split_and!.
      * rewrite H2, H1. cbn [concat]. by rewrite app_assoc.
      * by rewrite Hc.
      * by apply Forall2_cons.
      * revert Hend. by destruct (forEachClip e beat clips (pb1, log1)).2.
      * by rewrite L2, L1.
    + exists [seg1], [clip], clips. cbn [concat fst snd]. rewrite app_nil_r.
      split_and!; try done. by apply Forall2_cons.
Qed.

Lemma order_after_prefix clips pre seg :
  Forall (λ x, x.1 = LoopRestart) pre →
  in_timeline_order clips seg → in_timeline_order clips (pre ++ seg).
Proof.
  intros Hpre O i j a b ca cb Hij Hi Hj. rewrite Forall_lookup in Hpre.
  apply lookup_app_Some in Hi as [Hi|[Hile Hi]]; [by specialize (Hpre _ _ Hi)|].
  apply lookup_app_Some in Hj as [Hj|[Hjle Hj]]; [by specialize (Hpre _ _ Hj)|].
  apply (O (i - List.length pre) (j - List.length pre) a b ca cb); [lia | done..].
Qed.

(** Where clip ids are distinct, the order of the log is the order of the
    clips themselves. *)
Lemma order_begin_safe clips log :
  NoDup (Store.clip_id <$> clips) →
  in_timeline_order clips log → begin_safe_from_earlier clips log.
Proof.
  intros Hnd O i j ia ib a b p v Hij Hi Hj Ha Hb.
  destruct (O i j a b _ _ Hij Hi Hj) as (ia' & ib' & Hlt & Ha' & Hb').
  rewrite <- list_lookup_fmap in Ha, Hb, Ha', Hb'.
  rewrite (NoDup_lookup _ _ _ _ Hnd Ha Ha'), (NoDup_lookup _ _ _ _ Hnd Hb Hb'). done.
Qed.

End TimelineFacts.


Module TimelineClaims.
Import Engine Props Timeline TimelineFacts TimelineExamples.

Lemma pruneScheduled_lastTime pb : lastTime (pruneScheduled pb) = lastTime pb.
Proof. unfold pruneScheduled. by destruct (bool_decide _). Qed.

Lemma loopRestart_log pb : Forall (λ x, x.1 = LoopRestart) (loopRestart pb).2.
Proof. apply tag_origin. Qed.

(** The shape of a tick: the sweep of the loop restart, if any, and then
    the pass over the clips. *)
Lemma tick_structure e t pb :
  let pre := if loopRestartDetected e t pb then (loopRestart pb).2 else [] in
  match tick e t pb with
  | Running pb' log beat =>
      ∃ segs,
        beat = (effectiveElapsedMs e t / beatDuration e)%Qc ∧
        log = pre ++ concat segs ∧
        Forall2 (turn e beat) (timeline e) segs ∧
        lastTime pb' = t
  | Aborted pb' log beat =>
      ∃ segs visited skipped,
        beat = (effectiveElapsedMs e t / beatDuration e)%Qc ∧
        log = pre ++ concat segs ∧
        timeline e = visited ++ skipped ∧ visited ≠ [] ∧
        Forall2 (turn e beat) visited segs ∧
        lastTime pb' = t
  | Halted _ log => isLooping e = false ∧ Forall (λ x, x.1 = StopPlayback) log
  end.
Proof.
  unfold tick.
  destruct (negb (isLooping e) && Num.leb (loopDurationMs e) t) eqn:Hstop.
  - cbn. split; [|apply tag_origin].
    apply andb_true_iff in Hstop as [H _]. by destruct (isLooping e).
  - set (r := if loopRestartDetected e t pb then loopRestart pb else (pb, [])).
    assert (Hr : r.2 = if loopRestartDetected e t pb then (loopRestart pb).2 else [])
      by (unfold r; by destruct (loopRestartDetected e t pb)).
    destruct r as [pb1 log1]. cbn [snd] in Hr.
    destruct (forEachClip_log e (effectiveElapsedMs e t / beatDuration e)%Qc (timeline e)
                (set_lastTime t pb1) log1)
      as (segs & visited & skipped & H & Hc & F & Hend & L).
    destruct (forEachClip _ _ _ _) as [[pb3 log3] [|]]; cbn [fst snd] in *.
    + exists segs. subst skipped. rewrite app_nil_r in Hc. subst visited.
      rewrite pruneScheduled_lastTime, L, <- Hr. done.
    + exists segs, visited, skipped. rewrite L, <- Hr. done.
Qed.

(** C2 (as the code has it).  A tick first makes the calls of the
    loop-restart sweep, if there is one, and then visits the clips once, in
    timeline order: its log is the sweep followed by one segment for each
    clip, in the order of the timeline, a clip that is playing dispatching
    in its segment and a clip that has just ended being deactivated in its
    own; a turn that throws ends the pass, the clips after it being
    skipped.  Deactivations and dispatches are therefore interleaved by
    clip order and not run as two phases: a call made for a playing clip is
    followed by the force-stop of an ended clip only when the ended clip
    stands later in the timeline, so that, clip ids being distinct, a pitch
    begun for a clip is never force-stopped afterwards by the end of a clip
    that stands earlier. *)
Theorem tick_visits_clips_in_order (e : Env) (t : Qc) (pb : Playback) :
  match tick e t pb with
  | Running _ log beat =>
      ∃ pre seg,
        log = pre ++ seg ∧
        pre = (if loopRestartDetected e t pb then (loopRestart pb).2 else []) ∧
        Forall (λ x, x.1 = LoopRestart) pre ∧
        visited_in_order e beat (timeline e) seg ∧
        from_clips (timeline e) seg ∧
        in_timeline_order (timeline e) seg ∧
        (NoDup (Store.clip_id <$> timeline e) →
         begin_safe_from_earlier (timeline e) log)
  | Aborted _ log beat =>
      ∃ pre seg visited skipped,
        log = pre ++ seg ∧
        pre = (if loopRestartDetected e t pb then (loopRestart pb).2 else []) ∧
        Forall (λ x, x.1 = LoopRestart) pre ∧
        timeline e = visited ++ skipped ∧ visited ≠ [] ∧
        visited_in_order e beat visited seg ∧
        from_clips (timeline e) seg ∧
        in_timeline_order (timeline e) seg ∧
        (NoDup (Store.clip_id <$> timeline e) →
         begin_safe_from_earlier (timeline e) log)
  | Halted _ log => Forall (λ x, x.1 = StopPlayback) log
  end.
Proof.
  pose proof (tick_structure e t pb) as H. cbv zeta in H.
  assert (Hpre : Forall (λ x, x.1 = LoopRestart)
                   (if loopRestartDetected e t pb then (loopRestart pb).2 else [])).
  { destruct (loopRestartDetected e t pb); [apply loopRestart_log | apply Forall_nil_2]. }
  assert (Hsegs : ∀ clips segs, Forall2 (turn e (effectiveElapsedMs e t / beatDuration e)%Qc)
                                  clips segs →
                                Forall2 one_branch clips segs).
  { intros clips segs F. eapply Forall2_impl; [exact F|].
    intros clip seg. apply turn_one_branch. }
  destruct (tick e t pb) as [pb' log pos|pb' log pos|pb' log] eqn:Et; [| |by destruct H].
  - destruct H as (segs & -> & -> & F & _).
    destruct (segments_in_order _ _ (Hsegs _ _ F)) as [Hfrom Hord].
    eexists _, (concat segs). split; [done|]. split_and!; try done.
    + by exists segs.
    + intros Hnd. by apply order_begin_safe, order_after_prefix.
  - destruct H as (segs & visited & skipped & -> & -> & Hc & Hne & F & _).
    destruct (segments_in_order _ _ (Hsegs _ _ F)) as [Hfrom Hord].
    assert (Hord' : in_timeline_order (timeline e) (concat segs))
      by (rewrite Hc; by apply in_timeline_order_more).
    eexists _, (concat segs), visited, skipped. split; [done|]. split_and!; try done.
    + by exists segs.
    + rewrite Hc. by apply from_clips_more.
    + intros Hnd. by apply order_begin_safe, order_after_prefix.
Qed.

(** C2, counterexample.  Clip A starts on the beat on which clip B, placed
    after it in the timeline, ends with pitch 60 still sounding: the tick
    restarts 60 for A and then B's deactivation force-stops it. *)
Lemma begin_stopped_by_later_clip_end :
  calls (logOf (tick backToBack (Num.ofZ 500)
                  (runTicks backToBack fresh [0%Qc; Num.ofZ 490]).1))
    = [timelineNoteOff 60; timelineNoteOn 60 (Num.ratio 7 10); timelineNoteOff 60] ∧
  ¬ begin_survives
      (logOf (tick backToBack (Num.ofZ 500)
                (runTicks backToBack fresh [0%Qc; Num.ofZ 490]).1)).
Proof.
  split; [by vm_compute|].
  intros H. apply (H 1 2 "A"%string "B"%string 60%Z (Num.ratio 7 10)); [lia | |];
    by vm_compute.
Qed.





End TimelineClaims.

Module FloorFacts.
Local Open Scope Qc_scope.

Lemma this_ofZ z : (this (Num.ofZ z) == inject_Z z)%Q.
Proof. unfold Num.ofZ. cbn. apply Qred_correct. Qed.

Lemma floor_unique (x : Qc) (n : Z) :
  Num.ofZ n ≤ x → x < Num.ofZ (n + 1) → Num.Math_floor x = n.
Proof.
  unfold Qcle, Qclt, Num.Math_floor. rewrite !this_ofZ. intros Hlo Hhi.
  pose proof (Qfloor_le (this x)) as Hf1.
  pose proof (Qlt_floor (this x)) as Hf2.
  assert (H1 : (inject_Z n < inject_Z (Qfloor (this x) + 1))%Q)
    by (eapply Qle_lt_trans; eassumption).
  assert (H2 : (inject_Z (Qfloor (this x)) < inject_Z (n + 1))%Q)
    by (eapply Qle_lt_trans; eassumption).
  rewrite <- Zlt_Qlt in H1, H2. lia.
Qed.

Lemma div_mul (x d : Qc) : 0 < d → x / d * d = x.
Proof.
  intros Hd. rewrite Qcmult_comm. apply Qcmult_div_r.
  intros ->. by apply (Qclt_not_eq 0 0).
Qed.

Lemma floor_div (x d : Qc) (k : Z) :
  0 < d → Num.ofZ k * d ≤ x → x < Num.ofZ (k + 1) * d → Num.Math_floor (x / d) = k.
Proof.
  intros Hd Hlo Hhi. apply floor_unique.
  - apply (Qcmult_le_mono_pos_r _ _ d Hd). by rewrite div_mul.
  - apply (Qcmult_lt_mono_pos_r _ _ d Hd). by rewrite div_mul.
Qed.

End FloorFacts.

Module LoopRestartFacts.
Import Engine Props Timeline TimelineFacts TimelineClaims.
Local Open Scope Qc_scope.

Section looping.
Variable e : Env.
Hypothesis Hloop : isLooping e = true.
Hypothesis Hpos : 0 < loopDurationMs e.

Lemma detected_iff t pb :
  loopRestartDetected e t pb =
  bool_decide (Num.Math_floor (lastTime pb / loopDurationMs e)
               < Num.Math_floor (t / loopDurationMs e))%Z.
Proof.
  unfold loopRestartDetected. rewrite Hloop.
  by rewrite (bool_decide_eq_true_2 (0 < loopDurationMs e)).
Qed.

Lemma floor_first x :
  0 ≤ x → x < loopDurationMs e → Num.Math_floor (x / loopDurationMs e) = 0%Z.
Proof.
  intros H0 H1. apply FloorFacts.floor_div; [done | |].
  - by rewrite Qcmult_0_l.
  - by rewrite Qcmult_1_l.
Qed.

Lemma floor_second x :
  loopDurationMs e ≤ x → x < loopDurationMs e + loopDurationMs e →
  Num.Math_floor (x / loopDurationMs e) = 1%Z.
Proof.
  intros H0 H1. apply FloorFacts.floor_div; [done | |].
  - by rewrite Qcmult_1_l.
  - replace (Num.ofZ (1 + 1) * loopDurationMs e)
      with (loopDurationMs e + loopDurationMs e); [done|].
    replace (Num.ofZ (1 + 1)) with (1 + 1) by (by apply Qc_is_canon). ring.
Qed.

(** A tick of a looping playback never stops it: the callback runs to its
    end or is left by an exception, and has stored the elapsed time. *)
Lemma tick_runs t pb :
  ∃ pb' log pos,
    (tick e t pb = Running pb' log pos ∨ tick e t pb = Aborted pb' log pos) ∧
    lastTime pb' = t.
Proof.
  pose proof (tick_structure e t pb) as H. cbv zeta in H.
  destruct (tick e t pb) as [pb' log pos|pb' log pos|pb' log].
  - destruct H as (segs & _ & _ & _ & L). exists pb', log, pos. auto.
  - destruct H as (segs & visited & skipped & _ & _ & _ & _ & _ & L).
    exists pb', log, pos. auto.
  - destruct H as [H _]. congruence.
Qed.

Lemma sweeps_cons t pb ticks :
  ∃ pb', lastTime pb' = t ∧
    sweeps e pb (t :: ticks)
    = ((if loopRestartDetected e t pb then 1 else 0) + sweeps e pb' ticks)%nat.
Proof.
  destruct (tick_runs t pb) as (pb' & log & pos & [E|E] & Hl);
    exists pb'; cbn [sweeps]; by rewrite E.
Qed.

(** Once the playhead is in the second pass, no tick of that pass sweeps. *)
Lemma sweeps_none ticks : ∀ pb,
  loopDurationMs e ≤ lastTime pb →
  nondecreasing_from (lastTime pb) ticks →
  (∀ t, t ∈ ticks → t < loopDurationMs e + loopDurationMs e) →
  sweeps e pb ticks = 0%nat.
Proof.
  induction ticks as [|t ticks IH]; intros pb Hlast Hmono Hup; [done|].
  cbn [nondecreasing_from] in *. destruct Hmono as [Hle Hmono].
  destruct (sweeps_cons t pb ticks) as (pb' & Hl & ->).
  assert (Ht : loopDurationMs e ≤ t) by (by eapply Qcle_trans).
  assert (Hup' : t < loopDurationMs e + loopDurationMs e) by (apply Hup; set_solver).
  rewrite detected_iff, !floor_second; try done.
  - rewrite bool_decide_eq_false_2 by lia.
    rewrite IH; [done | by rewrite Hl | by rewrite Hl | intros; apply Hup; set_solver].
  - by eapply Qcle_lt_trans.
Qed.

(** A run that starts in the first pass and reaches the second sweeps on
    exactly one tick: the first one past the loop duration. *)
Lemma sweeps_once ticks : ∀ pb,
  0 ≤ lastTime pb → lastTime pb < loopDurationMs e →
  nondecreasing_from (lastTime pb) ticks →
  (∀ t, t ∈ ticks → t < loopDurationMs e + loopDurationMs e) →
  (∃ t, t ∈ ticks ∧ loopDurationMs e ≤ t) →
  sweeps e pb ticks = 1%nat.
Proof.
  induction ticks as [|t ticks IH]; intros pb H0 H1 Hmono Hup Hex.
  { destruct Hex as (t & Ht & _). inversion Ht. }
  cbn [nondecreasing_from] in *. destruct Hmono as [Hle Hmono].
  destruct (sweeps_cons t pb ticks) as (pb' & Hl & ->).
  assert (Hup' : t < loopDurationMs e + loopDurationMs e) by (apply Hup; set_solver).
  rewrite detected_iff, (floor_first (lastTime pb)) by done.
  destruct (decide (loopDurationMs e ≤ t)) as [Ht|Ht].
  - rewrite floor_second by done. rewrite bool_decide_eq_true_2 by lia.
    rewrite sweeps_none; [done | by rewrite Hl | by rewrite Hl |
                          intros; apply Hup; set_solver].
  - apply Qcnot_le_lt in Ht.
    rewrite floor_first by (by (eapply Qcle_trans) || done).
    rewrite bool_decide_eq_false_2 by lia.
    rewrite IH; [done | rewrite Hl; by eapply Qcle_trans | by rewrite Hl |
                 by rewrite Hl | intros; apply Hup; set_solver |].
    destruct Hex as (t' & Hin & Hge). exists t'. split; [|done].
    apply elem_of_cons in Hin as [->|]; [|done].
    exfalso. by apply (Qclt_not_le _ _ Ht).
Qed.

End looping.

End LoopRestartFacts.


Module LoopClaims.
Import Engine Props Timeline TimelineFacts TimelineExamples LoopRestartFacts.
Local Open Scope Qc_scope.

Lemma sixteen_thousand : Num.ofZ 8000 + Num.ofZ 8000 = Num.ofZ 16000.
Proof. by apply Qc_is_canon. Qed.

Lemma rem_8050 : Num.rem (Num.ofZ 8050) (Num.ofZ 8000) = Num.ofZ 50.
Proof. by apply Qc_is_canon. Qed.

Lemma sweep_stops_tracked pb cid notes m :
  (cid, notes) ∈ activeClips pb → m ∈ notes →
  (LoopRestart, timelineNoteOff m) ∈ (loopRestart pb).2.
Proof.
  intros Hc Hm. cbn. unfold tag, sweepNotes.
  apply list_elem_of_fmap. exists (timelineNoteOff m). split; [done|].
  apply list_elem_of_fmap. exists m. split; [done|].
  apply list_elem_of_In, in_flat_map. exists (cid, notes).
  split; by apply list_elem_of_In.
Qed.

(** C3.  With looping on and a loop of 8000 ms, the tick on which the
    elapsed time first reaches 8000 ms takes the loop-restart branch: it
    force-stops every pitch tracked for any active clip, leaves the
    scheduled-note set, the clip tracking and the parameter owner empty and
    lets the clips be visited from that cleared state within the same tick,
    whether that pass runs to its end or is left by an exception; no other
    tick before 16000 ms takes the branch; and 8050 ms of elapsed time are
    50 ms into the loop. *)
Theorem loop_restart_at_8000 (e : Env) :
  isLooping e = true → loopDurationMs e = Num.ofZ 8000 →
  effectiveElapsedMs e (Num.ofZ 8050) = Num.ofZ 50 ∧
  (∀ pb t,
     0 ≤ lastTime pb → lastTime pb < Num.ofZ 8000 →
     Num.ofZ 8000 ≤ t → t < Num.ofZ 16000 →
     loopRestartDetected e t pb = true ∧
     (loopRestart pb).2 = tag LoopRestart (map timelineNoteOff (sweepNotes pb)) ∧
     (∀ cid notes m, (cid, notes) ∈ activeClips pb → m ∈ notes →
        (LoopRestart, timelineNoteOff m) ∈ logOf (tick e t pb)) ∧
     scheduledNotes (loopRestart pb).1 = ∅ ∧
     activeClips (loopRestart pb).1 = [] ∧
     timelineNotes (loopRestart pb).1 = [] ∧
     currentParametersClipId (loopRestart pb).1 = None ∧
     tick e t pb =
       (let pass :=
          forEachClip e (effectiveElapsedMs e t / beatDuration e)
            (timeline e) (set_lastTime t (loopRestart pb).1, (loopRestart pb).2) in
        match pass.2 with
        | Returned =>
            Running (pruneScheduled pass.1.1) pass.1.2
              (effectiveElapsedMs e t / beatDuration e)
        | Thrown =>
            Aborted pass.1.1 pass.1.2 (effectiveElapsedMs e t / beatDuration e)
        end)) ∧
  (∀ pb ticks,
     0 ≤ lastTime pb → lastTime pb < Num.ofZ 8000 →
     nondecreasing_from (lastTime pb) ticks →
     (∀ t, t ∈ ticks → t < Num.ofZ 16000) →
     (∃ t, t ∈ ticks ∧ Num.ofZ 8000 ≤ t) →
     sweeps e pb ticks = 1%nat).
Proof.
  intros Hloop Hdur.
  assert (Hpos : 0 < loopDurationMs e) by (by rewrite Hdur).
  split_and!.
  - unfold effectiveElapsedMs. rewrite Hloop, Hdur. cbn [andb].
    rewrite bool_decide_eq_true_2 by done. apply rem_8050.
  - intros pb t H0 H1 H2 H3.
    assert (Hdet : loopRestartDetected e t pb = true).
    { rewrite detected_iff by done.
      rewrite floor_first, floor_second by (rewrite ?Hdur, ?sixteen_thousand; done).
      by apply bool_decide_eq_true_2. }
    assert (Htick : tick e t pb =
       (let pass :=
          forEachClip e (effectiveElapsedMs e t / beatDuration e)
            (timeline e) (set_lastTime t (loopRestart pb).1, (loopRestart pb).2) in
        match pass.2 with
        | Returned =>
            Running (pruneScheduled pass.1.1) pass.1.2
              (effectiveElapsedMs e t / beatDuration e)
        | Thrown =>
            Aborted pass.1.1 pass.1.2 (effectiveElapsedMs e t / beatDuration e)
        end)).
    { unfold tick. rewrite Hloop, Hdet. cbn [negb andb loopRestart fst snd].
      by destruct (forEachClip _ _ _ _) as [[pb3 log3] [|]]. }
    split_and!; try done.
    intros cid notes m Hc Hm. rewrite Htick. cbn zeta.
    destruct (forEachClip_log e (effectiveElapsedMs e t / beatDuration e) (timeline e)
                (set_lastTime t (loopRestart pb).1) (loopRestart pb).2)
      as (segs & visited & skipped & Hlog & _).
    assert (Hin : (LoopRestart, timelineNoteOff m)
                  ∈ (forEachClip e (effectiveElapsedMs e t / beatDuration e) (timeline e)
                       (set_lastTime t (loopRestart pb).1, (loopRestart pb).2)).1.2).
    { rewrite Hlog. apply elem_of_app. left. by eapply sweep_stops_tracked. }
    by destruct (forEachClip _ _ _ _) as [[pb3 log3] [|]].
  - intros pb ticks H0 H1 Hmono Hup Hex.
    apply sweeps_once; rewrite ?Hdur, ?sixteen_thousand; done.
Qed.

Lemma loop_restart_at_8000_witness :
  effectiveElapsedMs eightSeconds (Num.ofZ 8050) = Num.ofZ 50 ∧
  sweeps eightSeconds fresh
    [Num.ofZ 10; Num.ofZ 7990; Num.ofZ 8000; Num.ofZ 8010; Num.ofZ 15990] = 1%nat.
Proof.
  pose proof (loop_restart_at_8000 eightSeconds eq_refl ltac:(by vm_compute))
    as (H1 & _ & H3).
  split; [exact H1|]. apply H3; try done.
  - intros t Ht. repeat (apply elem_of_cons in Ht as [->|Ht]; [by vm_compute|]). inversion Ht.
  - exists (Num.ofZ 8000). split; [apply list_elem_of_In; cbn; tauto | by vm_compute].
Defined.

End LoopClaims.


Module LoopDurationClaims.
Import Engine Props Timeline TimelineExamples LoopDuration.
Local Open Scope Qc_scope.

Lemma zero_duration_never_loops e t pb :
  loopDurationMs e = 0 →
  effectiveElapsedMs e t = t ∧ loopRestartDetected e t pb = false.
Proof.
  intros H0. unfold effectiveElapsedMs, loopRestartDetected. rewrite H0.
  rewrite (bool_decide_eq_false_2 (0 < 0)) by done.
  by rewrite andb_false_r.
Qed.

Lemma zero_duration_halts e t pb :
  loopDurationMs e = 0 → isLooping e = false → 0 ≤ t →
  tick e t pb = Halted (stopPlayback pb).1 (stopPlayback pb).2.
Proof.
  intros H0 Hl Ht. unfold tick. rewrite Hl, H0. unfold Num.leb.
  by rewrite bool_decide_eq_true_2.
Qed.

(** C8 (as the code has it).  The loop duration is the largest end, in
    milliseconds, among the placed clips whose pattern exists (a clip's end
    being its start converted from beats plus its pattern's length), and 0
    when there is none.  No default stands in for it: a duration of 0 turns
    wrap-around and loop restart off, and a non-looping playback then halts
    on its first tick. *)
Theorem loopDurationMs_is_rightmost_end (e : Env) :
  is_maximum (loopDurationMs e) 0 (clipEndsMs e) ∧
  (∀ x xs, clipEndsMs e = x :: xs → (∀ y, y ∈ x :: xs → 0 ≤ y) →
     is_maximum (loopDurationMs e) x xs) ∧
  (clipEndsMs e = [] → loopDurationMs e = 0) ∧
  (loopDurationMs e = 0 →
     ∀ t pb,
       effectiveElapsedMs e t = t ∧ loopRestartDetected e t pb = false ∧
       (isLooping e = false → 0 ≤ t →
        tick e t pb = Halted (stopPlayback pb).1 (stopPlayback pb).2)).
Proof.
  assert (Hmax : is_maximum (loopDurationMs e) 0 (clipEndsMs e)).
  { rewrite loopDurationMs_max. apply NumFacts.Math_max_list_is_maximum. }
  split_and!; [done | | |].
  - intros x xs Hends Hnn. rewrite Hends in Hmax. destruct Hmax as [Hin Hub].
    split; [|intros y Hy; apply Hub; set_solver].
    apply elem_of_cons in Hin as [H0|Hin]; [|done].
    assert (x = 0) as ->.
    { apply Qcle_antisym; [rewrite <- H0; apply Hub; set_solver | apply Hnn; set_solver]. }
    rewrite H0. set_solver.
  - intros Hends. rewrite loopDurationMs_max, Hends. done.
  - intros H0 t pb. destruct (zero_duration_never_loops e t pb H0) as [H1 H2].
    split_and!; [done..|]. intros. by apply zero_duration_halts.
Qed.

(** C8, counterexample.  With no clip on the timeline the loop duration is 0
    although 32 beats (16000 ms at 120 bpm) are configured: the default
    only reaches the logged [loopEndBeat], the playhead runs past 16000 ms
    without wrapping and no tick restarts the loop. *)
Lemma no_default_loop_duration :
  timeline noClips = [] ∧
  loopEndBeat noClips = totalBeats noClips ∧
  totalBeats noClips * beatDuration noClips = Num.ofZ 16000 ∧
  loopDurationMs noClips = 0 ∧
  effectiveElapsedMs noClips (Num.ofZ 16010) = Num.ofZ 16010 ∧
  sweeps noClips fresh [Num.ofZ 10; Num.ofZ 15990; Num.ofZ 16010; Num.ofZ 32010] = 0%nat.
Proof. split_and!; by vm_compute. Qed.

End LoopDurationClaims.

Module ArpClaims.
Import Engine ChordButtons EventLoop Props LiveExamples.

Lemma handleButtonUp_sessions c st d t :
  sessions (handleButtonUp c st d t).1 = sessions st.
Proof.
  unfold handleButtonUp. destruct (negb (audioEngine c)); [done|].
  destruct (negb (bool_decide (d ∈ activeButtons st))); [done|].
  destruct (activeNotes st !! d); [|done].
  by destruct (fold_left _ _ _) as [[??]?].
Qed.

(** C4, at the failing input.  Releasing a held arpeggiator button
    unregisters the step interval and does nothing else: no note-off is
    issued, the closure still holds pitch 60 as sounding and, with a gate
    below 1, its timeout is still pending; with a gate of 1 there is no
    timeout either, so nothing is left to stop the pitch.  In no state does
    [handleButtonUp] touch the arpeggiator closures. *)
Theorem arp_release_leaves_note_sounding :
  arpView <$> run (arpConfig 120 (Num.ratio 8 10))
                (initial idle_sequencer) pressAndRelease
    = Some ([60%Z], [], None, [(Some 60%Z, Some 60%Z)]) ∧
  arpView <$> run (arpConfig 120 (Num.ofZ 1))
                (initial idle_sequencer) pressAndRelease
    = Some ([60%Z], [], None, [(Some 60%Z, None)]) ∧
  (∀ c st d t, sessions (handleButtonUp c st d t).1 = sessions st).
Proof.
  split_and!; [by vm_compute | by vm_compute | apply handleButtonUp_sessions].
Qed.

Lemma releaseNote_fold_discards d imm start t chord : ∀ g q tr,
  ¬ (0 < start)%Qc →
  (fold_left (releaseNote d imm true start t) chord (g, q, tr)).1.2 = q.
Proof.
  induction chord as [|m chord IH]; intros g q tr Hs; [done|].
  cbn [fold_left]. unfold releaseNote at 2.
  rewrite (bool_decide_eq_false_2 (0 < start)%Qc) by done. cbn [andb].
  destruct (g !! m) as [hb|]; [destruct (bool_decide _)|]; by apply IH.
Qed.

(** A button release while recording is armed and not yet started leaves
    the recorder as it is. *)
Lemma release_discarded_before_start c st d t :
  Store.isRecording (sequencer st) = true →
  Store.recordingStartTime (sequencer st) = 0%Qc →
  sequencer (handleButtonUp c st d t).1 = sequencer st.
Proof.
  intros Hr Hs. unfold handleButtonUp. destruct (negb (audioEngine c)); [done|].
  destruct (negb (bool_decide (d ∈ activeButtons st))); [done|].
  destruct (activeNotes st !! d) as [chord|]; [|done].
  rewrite Hr, Hs.
  match goal with |- context [fold_left ?f chord ?a] =>
    pose proof (releaseNote_fold_discards d
                  (negb (bool_decide (currentMode c = Store.play))) 0%Qc t chord
                  (globalMidiNotes st) (sequencer st) []) as H;
    destruct (fold_left f chord a) as [[g q] tr] end.
  cbn in *. by apply H.
Qed.

(** A gate timeout whose step read the unset start time records nothing. *)
Lemma gateOff_discarded_on_captured_sentinel s q t to :
  noteOffTimeout s = Some to → to_recordingStartTime to = 0%Qc →
  (gateOff s q t).1.2 = q.
Proof.
  intros Hto Hs. unfold gateOff. rewrite Hto, Hs.
  rewrite (bool_decide_eq_false_2 (0 < 0)%Qc) by done. rewrite andb_false_r.
  by destruct (bool_decide _).
Qed.

(** C10, at the failing input.  The gate timeout of the second step tests
    the recording flags its step read (recording, started at 1000 ms), not
    those of the store: fired after the recorder has been stopped and armed
    again, it appends its note-off, timed 675 ms, to the empty buffer while
    the start time is still unset.  A button release in that state, and a
    timeout whose own step read the unset start time, record nothing. *)
Theorem stale_gate_off_recorded_before_start :
  recorderView <$> run (arpConfig 40 (Num.ratio 8 10))
                     (initial idle_sequencer) rearmDuringGate
    = Some (true, 0%Qc, [mkNote (Num.ofZ 675) Store.TNoteOff 64 0%Qc 1]) ∧
  (∀ c st d t,
     Store.isRecording (sequencer st) = true →
     Store.recordingStartTime (sequencer st) = 0%Qc →
     sequencer (handleButtonUp c st d t).1 = sequencer st) ∧
  (∀ s q t to,
     noteOffTimeout s = Some to → to_recordingStartTime to = 0%Qc →
     (gateOff s q t).1.2 = q).
Proof.
  split_and!; [by vm_compute | apply release_discarded_before_start
              | apply gateOff_discarded_on_captured_sentinel].
Qed.

End ArpClaims.

(** ** Play mode: what any run of events leaves behind *)

Module LiveFacts.
Import Engine ChordButtons EventLoop Props OwnershipFacts LiveProps.

Lemma handleButtonDown_sessions c st d chord et now r1 r2 st' tr :
  currentMode c = Store.play →
  handleButtonDown c st d chord et now r1 r2 = Some (st', tr) →
  sessions st' = sessions st.
Proof.
  intros Hm E. unfold handleButtonDown in E. rewrite Hm in E.
  destruct (negb (audioEngine c) || bool_decide (d ∈ activeButtons st));
    [by simplify_eq|].
  destruct (fold_left _ _ _) as [g tr0]. by simplify_eq.
Qed.

Lemma handleButtonUp_keeps_sessions c st d t :
  sessions (handleButtonUp c st d t).1 = sessions st.
Proof.
  unfold handleButtonUp. destruct (negb (audioEngine c)); [done|].
  destruct (negb (bool_decide (d ∈ activeButtons st))); [done|].
  destruct (activeNotes st !! d); [|done].
  by destruct (fold_left _ _ _) as [[??]?].
Qed.

Lemma handleButtonUp_fields c st d t :
  audioEngine c = true → d ∈ activeButtons st →
  activeButtons (handleButtonUp c st d t).1 = activeButtons st ∖ {[d]} ∧
  activeNotes (handleButtonUp c st d t).1 = delete d (activeNotes st) ∧
  sessions (handleButtonUp c st d t).1 = sessions st.
Proof.
  intros He Hd. unfold handleButtonUp. rewrite He.
  rewrite (bool_decide_eq_true_2 (d ∈ activeButtons st)) by done. cbn [negb].
  destruct (activeNotes st !! d); [|done].
  by destruct (fold_left _ _ _) as [[??]?].
Qed.

Lemma holders_active_down c st d chord et now r1 r2 st' tr :
  currentMode c = Store.play →
  handleButtonDown c st d chord et now r1 r2 = Some (st', tr) →
  holders_active st → holders_active st'.
Proof.
  intros Hm E Hinv.
  destruct (decide (d ∈ activeButtons st)) as [Hd|Hd].
  { rewrite handleButtonDown_idle in E by done. by simplify_eq. }
  destruct (audioEngine c) eqn:He;
    [|unfold handleButtonDown in E; rewrite He in E; cbn in E; by simplify_eq].
  destruct (handleButtonDown_play c st d chord et now r1 r2 He Hm Hd)
    as (st2 & tr2 & E2 & Hab & Han & Hp).
  rewrite E in E2. simplify_eq. intros p hb d' Hg Hd'.
  destruct (Hp p) as (Hl & _). rewrite Hg in Hl. unfold heldAfter in Hl.
  rewrite Hab, Han. case_bool_decide as Hin.
  - simplify_eq. apply elem_of_union in Hd' as [Hd'|Hd'].
    + apply elem_of_singleton in Hd' as ->. split; [set_solver|].
      exists chord. by rewrite lookup_insert_eq.
    + unfold holders in Hd'.
      destruct (globalMidiNotes st !! p) as [hb|] eqn:Hg0; [|set_solver].
      destruct (Hinv p hb d' Hg0 Hd') as (Ha & ch & Hch & Hpch).
      split; [set_solver|]. exists ch. split; [|done].
      rewrite lookup_insert_ne; [done|]. by intros ->.
  - destruct (Hinv p hb d' (eq_sym Hl) Hd') as (Ha & ch & Hch & Hpch).
    split; [set_solver|]. exists ch. split; [|done].
    rewrite lookup_insert_ne; [done|]. by intros ->.
Qed.

Lemma holders_active_up c st d t :
  holders_active st → holders_active (handleButtonUp c st d t).1.
Proof.
  intros Hinv.
  destruct (audioEngine c) eqn:He; [|by rewrite handleButtonUp_off].
  destruct (decide (d ∈ activeButtons st)) as [Hd|Hd];
    [|by rewrite handleButtonUp_idle].
  destruct (handleButtonUp_fields c st d t He Hd) as (Hab & Han & _).
  intros p hb d' Hg Hd'. rewrite Hab, Han.
  destruct (activeNotes st !! d) as [chord|] eqn:Hn.
  - destruct (handleButtonUp_active c st d t chord He Hd Hn) as (_ & _ & Hp).
    destruct (Hp p) as (Hl & _). rewrite Hg in Hl. unfold releasedAfter in Hl.
    case_bool_decide as Hin.
    + destruct (globalMidiNotes st !! p) as [hb0|] eqn:Hg0; cbn in Hl; [|done].
      case_bool_decide; simplify_eq.
      apply elem_of_difference in Hd' as [Hd' Hne].
      destruct (Hinv p hb0 d' Hg0 Hd') as (Ha & ch & Hch & Hpch).
      split; [set_solver|]. exists ch. split; [|done].
      rewrite lookup_delete_ne; [done|]. set_solver.
    + destruct (Hinv p hb d' (eq_sym Hl) Hd') as (Ha & ch & Hch & Hpch).
      assert (d' ≠ d) by (intros ->; by simplify_eq).
      split; [set_solver|]. exists ch. split; [|done].
      by rewrite lookup_delete_ne.
  - destruct (handleButtonUp_no_notes c st d t Hn) as [Hsame _].
    rewrite Hsame in Hg.
    destruct (Hinv p hb d' Hg Hd') as (Ha & ch & Hch & Hpch).
    assert (d' ≠ d) by (intros ->; by simplify_eq).
    split; [set_solver|]. exists ch. split; [|done].
    by rewrite lookup_delete_ne.
Qed.

Lemma play_inv_initial q : play_inv (initial q).
Proof.
  split_and!; [| |done].
  - intros p hb H. cbn in H. by rewrite lookup_empty in H.
  - intros p hb d H. cbn in H. by rewrite lookup_empty in H.
Qed.

Lemma play_step c st ev :
  currentMode c = Store.play → play_inv st →
  ∃ st1 tr1,
    step c st ev = Some (st1, tr1) ∧ play_inv st1 ∧
    ∀ P,
      noteOns P tr1 =
        (if decide (holders (globalMidiNotes st) P = ∅ ∧
                    holders (globalMidiNotes st1) P ≠ ∅) then 1 else 0) ∧
      noteOffs P tr1 =
        (if decide (holders (globalMidiNotes st) P ≠ ∅ ∧
                    holders (globalMidiNotes st1) P = ∅) then 1 else 0).
Proof.
  intros Hm (Hwf & Hact & Hs).
  assert (Hquiet : ∀ q,
    ∃ st1 tr1, Some (with_sequencer st q, @nil call) = Some (st1, tr1) ∧ play_inv st1 ∧
      ∀ P, noteOns P tr1 =
             (if decide (holders (globalMidiNotes st) P = ∅ ∧
                         holders (globalMidiNotes st1) P ≠ ∅) then 1 else 0) ∧
           noteOffs P tr1 =
             (if decide (holders (globalMidiNotes st) P ≠ ∅ ∧
                         holders (globalMidiNotes st1) P = ∅) then 1 else 0)).
  { intros q. eexists _, _. split; [done|]. split; [by split_and!|].
    intros P. cbn. rewrite !decide_False by tauto. done. }
  assert (Hnone : ∃ st1 tr1, Some (st, @nil call) = Some (st1, tr1) ∧ play_inv st1 ∧
      ∀ P, noteOns P tr1 =
             (if decide (holders (globalMidiNotes st) P = ∅ ∧
                         holders (globalMidiNotes st1) P ≠ ∅) then 1 else 0) ∧
           noteOffs P tr1 =
             (if decide (holders (globalMidiNotes st) P ≠ ∅ ∧
                         holders (globalMidiNotes st1) P = ∅) then 1 else 0)).
  { eexists _, _. split; [done|]. split; [by split_and!|].
    intros P. cbn. rewrite !decide_False by tauto. done. }
  destruct ev as [d chord et now r1 r2|d t|sid now r1 r2|sid now| |]; cbn [step].
  - destruct (button_step c st (ButtonDown d chord et now r1 r2) 0%Z Hm Hwf I)
      as (st1 & tr1 & E & Hwf1 & _).
    cbn [step] in E. exists st1, tr1. split; [done|]. split.
    { split_and!; [done | by eapply holders_active_down |].
      erewrite handleButtonDown_sessions; done. }
    intros P.
    destruct (button_step c st (ButtonDown d chord et now r1 r2) P Hm Hwf I)
      as (st2 & tr2 & E2 & _ & Hon & Hoff).
    cbn [step] in E2. rewrite E in E2. by simplify_eq.
  - exists (handleButtonUp c st d t).1, (handleButtonUp c st d t).2.
    split; [by rewrite <- surjective_pairing|]. split.
    { split_and!; [by apply no_empty_entry_up | by apply holders_active_up |].
      by rewrite handleButtonUp_keeps_sessions. }
    intros P.
    destruct (button_step c st (ButtonUp d t) P Hm Hwf I)
      as (st2 & tr2 & E2 & _ & Hon & Hoff).
    cbn [step] in E2. rewrite (surjective_pairing (handleButtonUp c st d t)) in E2.
    by simplify_eq.
  - unfold stepTimer. rewrite Hs, lookup_nil. exact Hnone.
  - unfold gateTimer. rewrite Hs, lookup_nil. exact Hnone.
  - apply Hquiet.
  - apply Hquiet.
Qed.

Lemma play_run c evs : ∀ st,
  currentMode c = Store.play → play_inv st →
  ∃ st' tr,
    run c st evs = Some (st', tr) ∧ play_inv st' ∧
    ∀ P, noteOns P tr + sounding (globalMidiNotes st) P
         = noteOffs P tr + sounding (globalMidiNotes st') P.
Proof.
  induction evs as [|ev evs IH]; intros st Hm Hinv.
  - exists st, []. split; [done|]. split; [done|]. intros P. done.
  - destruct (play_step c st ev Hm Hinv) as (st1 & tr1 & E1 & Hinv1 & Hc1).
    destruct (IH st1 Hm Hinv1) as (st2 & tr2 & E2 & Hinv2 & Hc2).
    exists st2, (tr1 ++ tr2). split; [by eapply run_cons|]. split; [done|].
    intros P. destruct (Hc1 P) as [Hon Hoff]. specialize (Hc2 P).
    rewrite noteOns_app, noteOffs_app, Hon, Hoff. unfold sounding in *.
    repeat case_decide; try lia; tauto.
Qed.

Lemma all_released st :
  no_empty_entry (globalMidiNotes st) → holders_active st →
  activeButtons st = ∅ → globalMidiNotes st = ∅.
Proof.
  intros Hwf Hact Hab. apply map_empty. intros p.
  destruct (globalMidiNotes st !! p) as [hb|] eqn:Hg; [|done].
  exfalso. apply (Hwf p hb Hg). apply set_eq. intros d. split; [|set_solver].
  intros Hd. destruct (Hact p hb d Hg Hd) as [Ha _]. set_solver.
Qed.

(** *** What a press and a release record *)

Lemma set_recordedNotes_twice q a b :
  Store.set_recordedNotes (Store.set_recordedNotes q a) b = Store.set_recordedNotes q b.
Proof. done. Qed.

Lemma releaseNote_fold_records d imm start t chord : ∀ g q tr,
  (0 < start)%Qc →
  (fold_left (releaseNote d imm true start t) chord (g, q, tr)).1.2
  = match chord with
    | [] => q
    | _ => Store.set_recordedNotes q
             (Store.recordedNotes q ++ releasedAt (t - start) d chord)
    end.
Proof.
  induction chord as [|m chord IH]; intros g q tr Hs; [done|].
  cbn [fold_left]. unfold releaseNote at 2.
  rewrite (bool_decide_eq_true_2 (0 < start)%Qc) by done. cbn [andb].
  match goal with |- context [fold_left ?f chord (let '(g', tr') := ?x in _)] =>
    destruct x as [g' tr'] end.
  rewrite IH by done. destruct chord as [|m' chord]; [done|].
  rewrite set_recordedNotes_twice. cbn [Store.recordedNotes Store.set_recordedNotes
    Store.set_recording]. unfold releasedAt. cbn [map]. by rewrite <- app_assoc.
Qed.

Lemma handleButtonUp_records c st d t chord :
  audioEngine c = true → d ∈ activeButtons st → activeNotes st !! d = Some chord →
  Store.isRecording (sequencer st) = true →
  (0 < Store.recordingStartTime (sequencer st))%Qc →
  Store.recordedNotes (sequencer (handleButtonUp c st d t).1)
  = Store.recordedNotes (sequencer st)
    ++ releasedAt (t - Store.recordingStartTime (sequencer st)) d chord ∧
  Store.recordingStartTime (sequencer (handleButtonUp c st d t).1)
  = Store.recordingStartTime (sequencer st) ∧
  Store.isRecording (sequencer (handleButtonUp c st d t).1) = true.
Proof.
  intros He Hd Hn Hr Hs. unfold handleButtonUp. rewrite He, Hn, Hr.
  rewrite (bool_decide_eq_true_2 (d ∈ activeButtons st)) by done. cbn [negb].
  match goal with |- context [fold_left ?f chord ?a] =>
    pose proof (releaseNote_fold_records d
                  (negb (bool_decide (currentMode c = Store.play)))
                  (Store.recordingStartTime (sequencer st)) t chord
                  (globalMidiNotes st) (sequencer st) [] Hs) as H;
    destruct (fold_left f chord a) as [[g q] tr] end.
  cbn in H. cbn. subst q. destruct chord; cbn.
  - by rewrite app_nil_r.
  - done.
Qed.

Lemma handleButtonDown_records c st d chord et now r1 r2 :
  audioEngine c = true → currentMode c = Store.play → d ∉ activeButtons st →
  ∃ st' tr,
    handleButtonDown c st d chord et now r1 r2 = Some (st', tr) ∧
    sequencer st' =
      recordChord (sequencer st) (Store.isRecording (sequencer st))
        (Store.recordingStartTime (sequencer st)) (pressTimeOf et now)
        default_velocity d chord.
Proof.
  intros He Hm Hd. unfold handleButtonDown. rewrite He, Hm.
  rewrite bool_decide_eq_false_2 by done. cbn [negb orb].
  destruct (fold_left _ _ _) as [g tr]. by eexists _, _.
Qed.

Lemma recordChord_started q start t v d chord :
  start ≠ 0%Qc →
  Store.recordedNotes (recordChord q true start t v d chord)
  = Store.recordedNotes q ++ pressedAt (t - start) v d chord.
Proof.
  intros Hs. unfold recordChord. cbn [andb].
  rewrite (bool_decide_eq_false_2 (start = 0%Qc)) by done.
  destruct chord as [|m chord]; cbn.
  - by rewrite app_nil_r.
  - done.
Qed.

Lemma recordChord_first q t v d chord :
  chord ≠ [] →
  recordChord q true 0%Qc t v d chord
  = Store.set_recording q t (pressedAt 0%Qc v d chord).
Proof.
  intros Hne. unfold recordChord. cbn [andb].
  rewrite (bool_decide_eq_true_2 (0%Qc = 0%Qc)) by done.
  destruct chord; [done|]. done.
Qed.

Lemma times_max (d : nat) (v delta : Qc) (chord : list Z) n ns :
  chord ≠ [] → (0 ≤ delta)%Qc →
  n :: ns = pressedAt 0%Qc v d chord ++ releasedAt delta d chord →
  Num.Math_max_list (Store.time n) (Store.time <$> ns) = delta.
Proof.
  intros Hne Hpos Hl.
  destruct (NumFacts.Math_max_list_is_maximum (Store.time <$> ns) (Store.time n))
    as [Hin Hmax].
  set (m := Num.Math_max_list (Store.time n) (Store.time <$> ns)) in *.
  assert (Hall : ∀ y, y ∈ Store.time n :: (Store.time <$> ns) ↔
                      y = 0%Qc ∨ y = delta).
  { intros y. change (Store.time n :: (Store.time <$> ns))
      with (Store.time <$> (n :: ns)). rewrite Hl, fmap_app, elem_of_app.
    unfold pressedAt, releasedAt. rewrite <- !list_fmap_compose.
    rewrite !list_elem_of_fmap. destruct chord as [|c0 chord]; [done|].
    split.
    - intros [(x & -> & _)|(x & -> & _)]; cbn; auto.
    - intros [-> | ->]; [left | right]; exists c0; (split; [done | set_solver]). }
  apply Hall in Hin as [H0|Hd]; [|done].
  apply Qcle_antisym.
  - by rewrite H0.
  - apply Hmax. apply Hall. by right.
Qed.

(** *** The arpeggiator as a single voice *)

Lemma voice_app tr1 : ∀ cur tr2,
  voice cur (tr1 ++ tr2) = voice cur tr1 ≫= λ c1, voice c1 tr2.
Proof.
  induction tr1 as [|x tr1 IH]; intros cur tr2; [done|].
  destruct x; cbn [app voice]; try apply IH.
  - destruct cur; [done | apply IH].
  - case_bool_decide; [apply IH | done].
Qed.

Lemma releaseNote_fold_empty d imm rec start t chord : ∀ q tr,
  ∃ q', fold_left (releaseNote d imm rec start t) chord (∅, q, tr) = (∅, q', tr).
Proof.
  induction chord as [|m chord IH]; intros q tr; [by eexists|].
  cbn [fold_left]. unfold releaseNote at 2. rewrite lookup_empty. apply IH.
Qed.

Lemma handleButtonUp_no_holders c st d t :
  globalMidiNotes st = ∅ →
  globalMidiNotes (handleButtonUp c st d t).1 = ∅ ∧ (handleButtonUp c st d t).2 = [].
Proof.
  intros Hg. unfold handleButtonUp. destruct (negb (audioEngine c)); [done|].
  destruct (negb (bool_decide (d ∈ activeButtons st))); [done|].
  destruct (activeNotes st !! d) as [chord|]; [|done]. rewrite Hg.
  match goal with |- context [fold_left (releaseNote _ ?i ?r ?s _) chord (_, ?q, _)] =>
    destruct (releaseNote_fold_empty d i r s t chord q []) as [q' ->] end.
  done.
Qed.

Lemma floor_bounds (x : Qc) (a b : Z) :
  (Num.ofZ a ≤ x)%Qc → (x < Num.ofZ b)%Qc → (a ≤ Num.Math_floor x < b)%Z.
Proof.
  unfold Qcle, Qclt, Num.Math_floor. rewrite !FloorFacts.this_ofZ. intros Hlo Hhi.
  pose proof (Qfloor_le (this x)) as Hf1.
  pose proof (Qlt_floor (this x)) as Hf2.
  assert (H1 : (inject_Z a < inject_Z (Qfloor (this x) + 1))%Q)
    by (eapply Qle_lt_trans; eassumption).
  assert (H2 : (inject_Z (Qfloor (this x)) < inject_Z b)%Q)
    by (eapply Qle_lt_trans; eassumption).
  rewrite <- Zlt_Qlt in H1, H2. lia.
Qed.

Lemma noteIndex_in_range s r :
  arpNotes s ≠ [] → (0 ≤ r)%Qc → (r < 1)%Qc →
  noteIndex s r < List.length (arpNotes s).
Proof.
  intros Hne Hr0 Hr1.
  assert (Hlen : 0 < List.length (arpNotes s)) by (destruct (arpNotes s); [done | cbn; lia]).
  unfold noteIndex. destruct (arp_pattern s); try (by apply Nat.mod_upper_bound; lia).
  set (n := Z.of_nat (List.length (arpNotes s))).
  assert (Hn : (0 < Num.ofZ n)%Qc).
  { unfold Qclt. rewrite FloorFacts.this_ofZ. change (this 0%Qc) with (inject_Z 0).
    rewrite <- Zlt_Qlt. lia. }
  destruct (floor_bounds (r * Num.ofZ n) 0 n) as [H1 H2].
  - assert (Num.ofZ 0 = 0%Qc) as -> by (by apply Qc_is_canon).
    rewrite <- (Qcmult_0_l (Num.ofZ n)). by apply Qcmult_le_mono_pos_r.
  - rewrite <- (Qcmult_1_l (Num.ofZ n)) at 2. by apply Qcmult_lt_mono_pos_r.
  - fold n. lia.
Qed.

Lemma playNote_voice s q t r1 r2 :
  arpNotes s ≠ [] → (0 ≤ r1)%Qc → (r1 < 1)%Qc →
  ∃ s' q' tr n,
    playNote s q t r1 r2 = Some (s', q', tr) ∧
    voice (currentPlayingNote s) tr = Some (Some n) ∧
    sounded tr = [n] ∧ n ∈ arpNotes s ∧
    currentPlayingNote s' = Some n ∧ arpNotes s' = arpNotes s ∧
    arp_degree s' = arp_degree s.
Proof.
  intros Hne Hr0 Hr1. unfold playNote.
  destruct (lookup_lt_is_Some_2 (arpNotes s) (noteIndex s r1)) as [n Hn];
    [by apply noteIndex_in_range|].
  rewrite Hn. cbn [mbind option_bind]. eexists _, _, _, n. split; [done|].
  cbn. split_and!; try done.
  - destruct (currentPlayingNote s) as [n0|]; cbn; [|done].
    by rewrite bool_decide_eq_true_2.
  - by destruct (currentPlayingNote s).
  - by eapply list_elem_of_lookup_2.
Qed.

Lemma gateOff_voice s q t :
  ∃ cur, voice (currentPlayingNote s) (gateOff s q t).2 = Some cur ∧
         currentPlayingNote (gateOff s q t).1.1 = cur ∧
         arpNotes (gateOff s q t).1.1 = arpNotes s ∧
         sounded (gateOff s q t).2 = [].
Proof.
  unfold gateOff. destruct (noteOffTimeout s) as [to|]; [|by eexists].
  case_bool_decide as Hc; cbn.
  - exists None. rewrite Hc. cbn. by rewrite bool_decide_eq_true_2.
  - by eexists.
Qed.

Lemma arp_step c st ev cur notes :
  notes ≠ [] → arp_inv notes st cur → ¬ isButtonDown ev → unitDraws ev →
  ∃ st1 tr1 cur1,
    step c st ev = Some (st1, tr1) ∧ voice cur tr1 = Some cur1 ∧
    arp_inv notes st1 cur1 ∧ ∀ x, x ∈ sounded tr1 → x ∈ notes.
Proof.
  intros Hne [Hg Hs] Hev Hr.
  destruct ev as [d chord et now r1 r2|d t|sid now r1 r2|sid now| |]; cbn [step].
  - by destruct Hev.
  - destruct (handleButtonUp_no_holders c st d t Hg) as [Hg' Htr].
    exists (handleButtonUp c st d t).1, [], cur.
    split; [by rewrite <- Htr, <- surjective_pairing|]. split; [done|].
    split; [|set_solver]. split; [done|]. by rewrite handleButtonUp_keeps_sessions.
  - unfold stepTimer.
    destruct (sessions st) as [|s [|s2 rest]] eqn:Es; [| |done].
    + rewrite lookup_nil. exists st, [], cur. split; [done|]. split; [done|].
      split; [|set_solver]. split; [done|]. by rewrite Es.
    + destruct Hs as [Hcur Hnotes]. destruct sid as [|sid]; cbn [lookup list_lookup];
        [|rewrite ?lookup_nil; exists st, [], cur; split; [done|]; split; [done|];
          split; [|set_solver]; split; [done|]; by rewrite Es].
      case_bool_decide; [|exists st, [], cur; split; [done|]; split; [done|];
          split; [|set_solver]; split; [done|]; by rewrite Es].
      cbn in Hr. destruct Hr as [Hr0 Hr1].
      destruct (playNote_voice s (sequencer st) now r1 r2)
        as (s' & q' & tr & n & E & Hv & Hsnd & Hin & Hcur' & Hnotes' & _);
        [by rewrite Hnotes | done | done |].
      rewrite E. cbn. eexists _, tr, (Some n). split; [done|].
      split; [by rewrite <- Hcur|]. split.
      * split; [done|]. cbn. rewrite Es. cbn. split; [done|]. by rewrite Hnotes'.
      * intros x Hx. rewrite Hsnd in Hx. apply list_elem_of_singleton in Hx as ->.
        by rewrite <- Hnotes.
  - unfold gateTimer.
    destruct (sessions st) as [|s [|s2 rest]] eqn:Es; [| |done].
    + rewrite lookup_nil. exists st, [], cur. split; [done|]. split; [done|].
      split; [|set_solver]. split; [done|]. by rewrite Es.
    + destruct Hs as [Hcur Hnotes]. destruct sid as [|sid]; cbn [lookup list_lookup];
        [|rewrite ?lookup_nil; exists st, [], cur; split; [done|]; split; [done|];
          split; [|set_solver]; split; [done|]; by rewrite Es].
      destruct (noteOffTimeout s) as [to|] eqn:Eto;
        [|exists st, [], cur; split; [done|]; split; [done|];
          split; [|set_solver]; split; [done|]; by rewrite Es].
      case_bool_decide; [|exists st, [], cur; split; [done|]; split; [done|];
          split; [|set_solver]; split; [done|]; by rewrite Es].
      destruct (gateOff_voice s (sequencer st) now) as (cur1 & Hv & Hc1 & Hn1 & Hsnd).
      destruct (gateOff s (sequencer st) now) as [[s' q'] tr] eqn:Eg. cbn [fst snd] in *.
      eexists _, tr, cur1. split; [done|]. split; [by rewrite <- Hcur|]. split.
      * split; [done|]. cbn. rewrite Es. cbn. split; [done|]. by rewrite Hn1.
      * intros x Hx. rewrite Hsnd in Hx. set_solver.
  - eexists _, [], cur. split; [done|]. split; [done|]. split; [|set_solver]. by split.
  - eexists _, [], cur. split; [done|]. split; [done|]. split; [|set_solver]. by split.
Qed.

Lemma arp_run c notes evs : ∀ st cur,
  notes ≠ [] → arp_inv notes st cur →
  Forall (λ ev, ¬ isButtonDown ev) evs → Forall unitDraws evs →
  ∃ st' tr cur',
    run c st evs = Some (st', tr) ∧ voice cur tr = Some cur' ∧
    arp_inv notes st' cur' ∧ ∀ x, x ∈ sounded tr → x ∈ notes.
Proof.
  induction evs as [|ev evs IH]; intros st cur Hne Hinv Hnb Hr.
  - exists st, [], cur. split; [done|]. split; [done|]. split; [done|]. set_solver.
  - apply Forall_cons in Hnb as [Hev Hnb]. apply Forall_cons in Hr as [Hr1 Hr].
    destruct (arp_step c st ev cur notes Hne Hinv Hev Hr1)
      as (st1 & tr1 & cur1 & E1 & Hv1 & Hinv1 & Hs1).
    destruct (IH st1 cur1 Hne Hinv1 Hnb Hr) as (st2 & tr2 & cur2 & E2 & Hv2 & Hinv2 & Hs2).
    exists st2, (tr1 ++ tr2), cur2. split; [by eapply run_cons|].
    split; [by rewrite voice_app, Hv1|]. split; [done|].
    intros x. rewrite ArpRun.sounded_app, elem_of_app. intros [?|?]; auto.
Qed.

Lemma removelast_subseteq (l : list Z) x : x ∈ removelast l → x ∈ l.
Proof.
  intros Hx. apply list_elem_of_In in Hx. apply list_elem_of_In.
  induction l as [|a [|b l] IH]; [done | done |].
  cbn [removelast] in Hx. destruct Hx as [->|Hx]; [by left | right; by apply IH].
Qed.

Lemma buildArpNotes_extension a chord x :
  x ∈ buildArpNotes a chord → inExtension (Store.octaves a) chord x.
Proof.
  assert (Hext : ∀ y, y ∈ extendChord (Store.octaves a) chord →
                      inExtension (Store.octaves a) chord y).
  { intros y Hy. unfold extendChord in Hy. apply list_elem_of_In, in_flat_map in Hy.
    destruct Hy as (oct & Hoct & Hy). apply in_seq in Hoct.
    apply in_map_iff in Hy as (m & <- & Hm). exists m, oct.
    split; [by apply list_elem_of_In|]. split; [lia | done]. }
  unfold buildArpNotes, applyPattern. intros Hx. apply Hext.
  assert (Hrev : ∀ l : list Z, x ∈ rev l → x ∈ l).
  { intros l H. apply list_elem_of_In in H. apply in_rev in H. by apply list_elem_of_In. }
  destruct (Store.pattern a); try done.
  - by apply Hrev.
  - unfold slice_0_m1 in Hx. apply elem_of_app in Hx as [Hx|Hx].
    + by apply removelast_subseteq.
    + apply removelast_subseteq in Hx. by apply Hrev.
Qed.

Lemma arp_press c q d chord et now r1 r2 evs :
  currentMode c = Store.arpeggiator →
  buildArpNotes (arpSettings c) chord ≠ [] →
  Forall (λ ev, ¬ isButtonDown ev) evs →
  Forall unitDraws (ButtonDown d chord et now r1 r2 :: evs) →
  ∃ st' tr cur,
    run c (initial q) (ButtonDown d chord et now r1 r2 :: evs) = Some (st', tr) ∧
    voice None tr = Some cur ∧
    ∀ x, x ∈ sounded tr → x ∈ buildArpNotes (arpSettings c) chord.
Proof.
  intros Hm Hne Hnb Hr. apply Forall_cons in Hr as [[Hr0 Hr1] Hr].
  assert (Hfirst : ∃ st1 tr1 cur1,
            handleButtonDown c (initial q) d chord et now r1 r2 = Some (st1, tr1) ∧
            voice None tr1 = Some cur1 ∧
            arp_inv (buildArpNotes (arpSettings c) chord) st1 cur1 ∧
            ∀ x, x ∈ sounded tr1 → x ∈ buildArpNotes (arpSettings c) chord).
  { unfold handleButtonDown. rewrite Hm. destruct (audioEngine c); cbn [negb orb].
    - rewrite bool_decide_eq_false_2 by set_solver.
      match goal with |- context [playNote ?f ?q0 ?t ?a ?b] =>
        destruct (playNote_voice f q0 t a b)
          as (s' & q' & tr & n & E & Hv & Hsnd & Hin & Hcur & Hnotes & _);
          [done | done | done |] end.
      rewrite E. cbn. eexists _, tr, (Some n). split; [done|]. split; [done|].
      split; [by split|]. intros x Hx. rewrite Hsnd in Hx.
      by apply list_elem_of_singleton in Hx as ->.
    - exists (initial q), [], None. split; [done|]. split; [done|].
      split; [by split|]. set_solver. }
  destruct Hfirst as (st1 & tr1 & cur1 & E1 & Hv1 & Hinv1 & Hs1).
  destruct (arp_run c _ evs st1 cur1 Hne Hinv1 Hnb Hr)
    as (st2 & tr2 & cur2 & E2 & Hv2 & _ & Hs2).
  exists st2, (tr1 ++ tr2), cur2. split; [by eapply run_cons|].
  split; [by rewrite voice_app, Hv1|].
  intros x. rewrite ArpRun.sounded_app, elem_of_app. intros [?|?]; auto.
Qed.

End LiveFacts.

Module LiveClaims.
Import Engine ChordButtons EventLoop Props OwnershipFacts LiveProps LiveFacts LiveExamples
  RecordingExamples.

(** In play mode, whatever events run from the initial state, every pitch
    has been started exactly as often as it has been stopped, plus once if a
    button still holds it; once no button is active no holder is left and
    starts and stops are balanced for every pitch. *)
Theorem play_run_balanced (c : Config) (q : Store.Sequencer) (evs : list Event) :
  currentMode c = Store.play →
  ∃ st' tr,
    run c (initial q) evs = Some (st', tr) ∧
    (∀ P, noteOns P tr =
          noteOffs P tr +
          (if decide (holders (globalMidiNotes st') P = ∅) then 0 else 1)) ∧
    (activeButtons st' = ∅ →
     globalMidiNotes st' = ∅ ∧ ∀ P, noteOns P tr = noteOffs P tr).
Proof.
  intros Hm.
  destruct (play_run c evs (initial q) Hm (play_inv_initial q))
    as (st' & tr & E & (Hwf & Hact & _) & Hbal).
  assert (Hcount : ∀ P, noteOns P tr =
            noteOffs P tr +
            (if decide (holders (globalMidiNotes st') P = ∅) then 0 else 1)).
  { intros P. specialize (Hbal P). unfold sounding in Hbal.
    rewrite (decide_True (P := holders (globalMidiNotes (initial q)) P = ∅)) in Hbal
      by done. lia. }
  exists st', tr. split; [done|]. split; [done|].
  intros Hab. pose proof (all_released st' Hwf Hact Hab) as Hg. split; [done|].
  intros P. rewrite (Hcount P), Hg. rewrite decide_True; [lia | done].
Qed.

Lemma play_run_balanced_witness :
  ∃ st' tr,
    run play_config (initial idle_sequencer) chainOfThree = Some (st', tr) ∧
    (∀ P, noteOns P tr =
          noteOffs P tr +
          (if decide (holders (globalMidiNotes st') P = ∅) then 0 else 1)) ∧
    (activeButtons st' = ∅ →
     globalMidiNotes st' = ∅ ∧ ∀ P, noteOns P tr = noteOffs P tr).
Proof.
  apply (play_run_balanced play_config idle_sequencer chainOfThree). reflexivity.
Defined.

(** In play mode, pressing an idle button and releasing it again gives the
    ownership map, the active buttons and the stored chords back as they
    were, and the release stops exactly the pitches that the press had
    started. *)
Theorem press_release_round_trip (c : Config) (st : State) (d : nat)
    (chord : list Z) (et : option Qc) (now r1 r2 t : Qc) :
  audioEngine c = true → currentMode c = Store.play →
  d ∉ activeButtons st →
  no_empty_entry (globalMidiNotes st) →
  (∀ p, d ∉ holders (globalMidiNotes st) p) →
  ∃ st1 tr1,
    handleButtonDown c st d chord et now r1 r2 = Some (st1, tr1) ∧
    globalMidiNotes (handleButtonUp c st1 d t).1 = globalMidiNotes st ∧
    activeButtons (handleButtonUp c st1 d t).1 = activeButtons st ∧
    activeNotes (handleButtonUp c st1 d t).1 = delete d (activeNotes st) ∧
    ∀ p, noteOffs p (handleButtonUp c st1 d t).2 = noteOns p tr1 ∧
         noteOffs p tr1 = 0 ∧ noteOns p (handleButtonUp c st1 d t).2 = 0.
Proof.
  intros He Hm Hd Hwf Hfree.
  destruct (handleButtonDown_play c st d chord et now r1 r2 He Hm Hd)
    as (st1 & tr1 & E & Hab & Han & Hp).
  exists st1, tr1. split; [done|].
  assert (Hd1 : d ∈ activeButtons st1) by (rewrite Hab; set_solver).
  assert (Hn1 : activeNotes st1 !! d = Some chord) by (by rewrite Han, lookup_insert_eq).
  destruct (handleButtonUp_active c st1 d t chord He Hd1 Hn1) as (Hab2 & Han2 & Hp2).
  assert (Hback : ∀ p, leave d (Some ({[d]} ∪ holders (globalMidiNotes st) p))
                       = globalMidiNotes st !! p ∧
                       lastOut d (Some ({[d]} ∪ holders (globalMidiNotes st) p))
                       = bool_decide (holders (globalMidiNotes st) p = ∅)).
  { intros p. specialize (Hfree p). cbn [leave lastOut].
    assert (({[d]} ∪ holders (globalMidiNotes st) p) ∖ {[d]}
            = holders (globalMidiNotes st) p) as -> by set_solver.
    split; [|done]. unfold holders in *.
    destruct (globalMidiNotes st !! p) as [hb|] eqn:Hg; cbn [default] in *.
    - rewrite bool_decide_eq_false_2; [done|]. by eapply Hwf.
    - by rewrite bool_decide_eq_true_2. }
  split_and!.
  - apply map_eq. intros p. destruct (Hp2 p) as (-> & _). destruct (Hp p) as (Hl & _).
    unfold releasedAfter. rewrite Hl. unfold heldAfter. case_bool_decide; [|done].
    by destruct (Hback p) as [-> _].
  - rewrite Hab2, Hab. set_solver.
  - rewrite Han2, Han. by rewrite delete_insert_eq.
  - intros p. destruct (Hp2 p) as (_ & -> & ->). destruct (Hp p) as (Hl & -> & ->).
    split; [|done]. unfold offsAdded, onsAdded. rewrite Hl. unfold heldAfter.
    case_bool_decide; [|done]. cbn [andb]. destruct (Hback p) as [_ ->].
    by destruct (bool_decide _).
Qed.

Lemma press_release_round_trip_witness :
  ∃ st1 tr1,
    handleButtonDown play_config held_I 5 [57; 60; 64]%Z None (Num.ofZ 1200) 0%Qc 0%Qc
      = Some (st1, tr1) ∧
    globalMidiNotes (handleButtonUp play_config st1 5 (Num.ofZ 1500)).1
      = globalMidiNotes held_I ∧
    activeButtons (handleButtonUp play_config st1 5 (Num.ofZ 1500)).1
      = activeButtons held_I ∧
    activeNotes (handleButtonUp play_config st1 5 (Num.ofZ 1500)).1
      = delete 5 (activeNotes held_I) ∧
    ∀ p, noteOffs p (handleButtonUp play_config st1 5 (Num.ofZ 1500)).2 = noteOns p tr1 ∧
         noteOffs p tr1 = 0 ∧
         noteOns p (handleButtonUp play_config st1 5 (Num.ofZ 1500)).2 = 0.
Proof.
  assert (Hheld : ∃ tr0,
            handleButtonDown play_config (initial idle_sequencer) 0
              [60; 64; 67]%Z None (Num.ofZ 1000) 0%Qc 0%Qc = Some (held_I, tr0)).
  { unfold held_I.
    destruct (handleButtonDown_play play_config (initial idle_sequencer) 0
                [60; 64; 67]%Z None (Num.ofZ 1000) 0%Qc 0%Qc eq_refl eq_refl)
      as (st & tr & E & _); [set_solver|].
    rewrite E. by exists tr. }
  destruct Hheld as [tr0 E].
  destruct (play_inv_initial idle_sequencer) as (Hwf0 & Hact0 & _).
  pose proof (no_empty_entry_down play_config _ _ _ _ _ _ _ _ _ eq_refl E Hwf0) as Hwf.
  pose proof (holders_active_down play_config _ _ _ _ _ _ _ _ _ eq_refl E Hact0) as Hact.
  destruct (handleButtonDown_play play_config (initial idle_sequencer) 0
              [60; 64; 67]%Z None (Num.ofZ 1000) 0%Qc 0%Qc eq_refl eq_refl)
    as (st & tr & E2 & Hab & _); [set_solver|].
  rewrite E in E2. injection E2 as <- <-.
  assert (H5 : 5 ∉ activeButtons held_I) by (rewrite Hab; cbn; set_solver).
  apply (press_release_round_trip play_config held_I 5 [57; 60; 64]%Z None
           (Num.ofZ 1200) 0%Qc 0%Qc (Num.ofZ 1500)); [done | done | done | done |].
  intros p Hin. unfold holders in Hin.
  destruct (globalMidiNotes held_I !! p) as [hb|] eqn:Hg; cbn in Hin; [|set_solver].
  by destruct (Hact p hb 5 Hg Hin) as [Ha _].
Defined.

(** In play mode, while a recording is running, a press and a release are
    recorded button by button: the press of an idle button appends a
    note-on for every note of its chord and the release a note-off for
    every note of it, timed from the start of the recording, also for a
    pitch that another button holds, for which the engine is sent neither a
    note-on nor a note-off. *)
Theorem recording_follows_buttons (c : Config) (st : State) (d : nat) :
  audioEngine c = true → currentMode c = Store.play →
  no_empty_entry (globalMidiNotes st) →
  Store.isRecording (sequencer st) = true →
  (0 < Store.recordingStartTime (sequencer st))%Qc →
  (∀ chord et now r1 r2,
     d ∉ activeButtons st →
     ∃ st' tr,
       handleButtonDown c st d chord et now r1 r2 = Some (st', tr) ∧
       Store.recordedNotes (sequencer st') =
         Store.recordedNotes (sequencer st) ++
         pressedAt (pressTimeOf et now - Store.recordingStartTime (sequencer st))
           default_velocity d chord ∧
       ∀ p, holders (globalMidiNotes st) p ≠ ∅ → noteOns p tr = 0) ∧
  (∀ chord t,
     d ∈ activeButtons st → activeNotes st !! d = Some chord →
     Store.recordedNotes (sequencer (handleButtonUp c st d t).1) =
       Store.recordedNotes (sequencer st) ++
       releasedAt (t - Store.recordingStartTime (sequencer st)) d chord ∧
     ∀ p, holders (globalMidiNotes st) p ∖ {[d]} ≠ ∅ →
          noteOffs p (handleButtonUp c st d t).2 = 0).
Proof.
  intros He Hm Hwf Hr Hs. split.
  - intros chord et now r1 r2 Hd.
    destruct (handleButtonDown_records c st d chord et now r1 r2 He Hm Hd)
      as (st' & tr & E & Hq).
    exists st', tr. split; [done|]. split.
    + rewrite Hq, Hr. apply recordChord_started. intros H0.
      by apply Qclt_not_eq in Hs.
    + intros p Hheld.
      destruct (handleButtonDown_play c st d chord et now r1 r2 He Hm Hd)
        as (st2 & tr2 & E2 & _ & _ & Hp).
      rewrite E in E2. simplify_eq. destruct (Hp p) as (_ & -> & _).
      unfold onsAdded. rewrite (bool_decide_eq_false_2 (holders _ p = ∅)) by done.
      by rewrite andb_false_r.
  - intros chord t Hd Hn. split.
    + by destruct (handleButtonUp_records c st d t chord He Hd Hn Hr Hs) as [-> _].
    + intros p Hheld.
      destruct (handleButtonUp_active c st d t chord He Hd Hn) as (_ & _ & Hp).
      destruct (Hp p) as (_ & -> & _). unfold offsAdded, holders in *.
      destruct (globalMidiNotes st !! p) as [hb|]; cbn [lastOut default] in *.
      * rewrite (bool_decide_eq_false_2 (hb ∖ {[d]} = ∅)) by done.
        by rewrite andb_false_r.
      * by rewrite andb_false_r.
Qed.

Lemma recording_follows_buttons_witness :
  (∀ chord et now r1 r2,
     ∃ st' tr,
       handleButtonDown play_config recording_I 5 chord et now r1 r2 = Some (st', tr) ∧
       Store.recordedNotes (sequencer st') =
         Store.recordedNotes (sequencer recording_I) ++
         pressedAt (pressTimeOf et now - Store.recordingStartTime (sequencer recording_I))
           default_velocity 5 chord ∧
       ∀ p, holders (globalMidiNotes recording_I) p ≠ ∅ → noteOns p tr = 0) ∧
  (∀ t,
     Store.recordedNotes (sequencer (handleButtonUp play_config recording_I 0 t).1) =
       Store.recordedNotes (sequencer recording_I) ++
       releasedAt (t - Store.recordingStartTime (sequencer recording_I)) 0 [60; 64; 67]%Z ∧
     ∀ p, holders (globalMidiNotes recording_I) p ∖ {[0]} ≠ ∅ →
          noteOffs p (handleButtonUp play_config recording_I 0 t).2 = 0).
Proof.
  assert (Hwf : no_empty_entry (globalMidiNotes recording_I)).
  { destruct (play_run play_config
                [ArmRecording; ButtonDown 0 [60; 64; 67]%Z None (Num.ofZ 1000) 0%Qc 0%Qc]
                (initial idle_sequencer) eq_refl (play_inv_initial _))
      as (st' & tr & E & (Hwf & _) & _).
    unfold recording_I. rewrite E. exact Hwf. }
  assert (Hrec : Store.isRecording (sequencer recording_I) = true) by (by vm_compute).
  assert (Hstart : (0 < Store.recordingStartTime (sequencer recording_I))%Qc)
    by (by vm_compute).
  split.
  - intros chord et now r1 r2.
    apply (proj1 (recording_follows_buttons play_config recording_I 5
                    eq_refl eq_refl Hwf Hrec Hstart)).
    by vm_compute.
  - intros t.
    apply (proj2 (recording_follows_buttons play_config recording_I 0
                    eq_refl eq_refl Hwf Hrec Hstart) [60; 64; 67]%Z t); by vm_compute.
Defined.

(** A take from arming to saving, in play mode: with recording armed,
    pressing a button at [t0] and releasing it at [t1] and then stopping
    and saving gives a pattern that holds a note-on at time 0 and a
    note-off at time [t1 - t0] for every note of the chord, and lasts
    [t1 - t0] milliseconds plus half a second. *)
Theorem take_is_saved_as_played (c : Config) (q0 : Store.Sequencer) (d : nat)
    (chord : list Z) (et : option Qc) (now r1 r2 t1 : Qc)
    (current : Store.Parameters) (patternName now1 now2 : string) (r : Qc) :
  audioEngine c = true → currentMode c = Store.play → chord ≠ [] →
  (0 < pressTimeOf et now)%Qc → (pressTimeOf et now ≤ t1)%Qc →
  ∃ st tr q' p,
    run c (initial q0)
      [ArmRecording; ButtonDown d chord et now r1 r2; ButtonUp d t1; StopRecording]
      = Some (st, tr) ∧
    PatternRecorder.savePattern (sequencer st) current patternName now1 now2 r
      = (q', PatternRecorder.Saved p) ∧
    Store.notes p =
      pressedAt 0%Qc default_velocity d chord ++
      releasedAt (t1 - pressTimeOf et now) d chord ∧
    Store.length p = ((t1 - pressTimeOf et now) / Num.ofZ 1000 + Num.ratio 1 2)%Qc ∧
    Store.recordedNotes q' = [] ∧ Store.isRecording q' = false.
Proof.
  intros He Hm Hne Ht0 Ht1.
  set (t0 := pressTimeOf et now) in *.
  set (st1 := with_sequencer (initial q0) (PatternRecorder.enableRecording q0)).
  assert (Hd : d ∉ activeButtons st1) by (cbn; set_solver).
  destruct (handleButtonDown_play c st1 d chord et now r1 r2 He Hm Hd)
    as (st2 & tr2 & E2 & Hab & Han & _).
  destruct (handleButtonDown_records c st1 d chord et now r1 r2 He Hm Hd)
    as (st2' & tr2' & E2' & Hq2).
  rewrite E2 in E2'. symmetry in E2'. simplify_eq.
  cbn [st1 with_sequencer sequencer PatternRecorder.enableRecording
       Store.isRecording Store.recordingStartTime] in Hq2.
  rewrite recordChord_first in Hq2 by done. fold t0 in Hq2.
  assert (Hd2 : d ∈ activeButtons st2) by (rewrite Hab; set_solver).
  assert (Hn2 : activeNotes st2 !! d = Some chord) by (by rewrite Han, lookup_insert_eq).
  destruct (handleButtonUp_records c st2 d t1 chord He Hd2 Hn2) as (Hrec & Hstart & Hrun).
  { by rewrite Hq2. }
  { by rewrite Hq2. }
  rewrite Hq2 in Hrec. cbn [Store.recordedNotes Store.recordingStartTime
    Store.set_recording] in Hrec.
  set (st3 := (handleButtonUp c st2 d t1).1) in *.
  set (st4 := with_sequencer st3 (PatternRecorder.stopRecording (sequencer st3))).
  assert (Erun : ∃ tr, run c (initial q0)
            [ArmRecording; ButtonDown d chord et now r1 r2; ButtonUp d t1; StopRecording]
            = Some (st4, tr)).
  { eexists. eapply run_cons; [done|]. eapply run_cons; [exact E2|].
    eapply run_cons; [cbn [step]; by rewrite (surjective_pairing (handleButtonUp _ _ _ _))|].
    eapply run_cons; done. }
  destruct Erun as [tr Erun]. exists st4, tr.
  unfold PatternRecorder.savePattern.
  cbn [st4 with_sequencer sequencer PatternRecorder.stopRecording Store.recordedNotes].
  destruct (Store.recordedNotes (sequencer st3)) as [|n ns] eqn:En.
  { destruct chord; [done | discriminate]. }
  eexists _, _. split; [exact Erun|]. split; [done|].
  cbn [Store.notes Store.length Store.recordedNotes Store.isRecording].
  split; [done|]. split; [|done].
  unfold PatternRecorder.patternLength. erewrite times_max; [done | done | | done].
  unfold Qcminus. rewrite <- (Qcplus_opp_r t0). by apply Qcplus_le_mono_r.
Qed.

Lemma take_is_saved_as_played_witness :
  ∃ st tr q' p,
    run play_config (initial idle_sequencer)
      [ArmRecording; ButtonDown 0 [60; 64; 67]%Z None (Num.ofZ 1000) 0%Qc 0%Qc;
       ButtonUp 0 (Num.ofZ 1800); StopRecording]
      = Some (st, tr) ∧
    PatternRecorder.savePattern (sequencer st) TimelineExamples.defaultParameters
      "take" "1" "2" 0%Qc = (q', PatternRecorder.Saved p) ∧
    Store.notes p =
      pressedAt 0%Qc default_velocity 0 [60; 64; 67]%Z ++
      releasedAt (Num.ofZ 1800 - pressTimeOf None (Num.ofZ 1000)) 0 [60; 64; 67]%Z ∧
    Store.length p =
      ((Num.ofZ 1800 - pressTimeOf None (Num.ofZ 1000)) / Num.ofZ 1000 + Num.ratio 1 2)%Qc ∧
    Store.recordedNotes q' = [] ∧ Store.isRecording q' = false.
Proof.
  apply (take_is_saved_as_played play_config idle_sequencer 0 [60; 64; 67]%Z None
           (Num.ofZ 1000) 0%Qc 0%Qc (Num.ofZ 1800)
           TimelineExamples.defaultParameters "take" "1" "2" 0%Qc);
    [done | done | done | by vm_compute | by vm_compute].
Defined.

(** A held arpeggiator button drives a single voice: along the press and any
    later step timers, gate timers and releases, every note-on finds the
    voice silent and every note-off stops the pitch that is sounding. *)
Theorem arp_voice_is_monophonic (c : Config) (q : Store.Sequencer) (d : nat)
    (chord : list Z) (et : option Qc) (now r1 r2 : Qc) (evs : list Event) :
  currentMode c = Store.arpeggiator →
  buildArpNotes (arpSettings c) chord ≠ [] →
  Forall (λ ev, ¬ isButtonDown ev) evs →
  Forall unitDraws (ButtonDown d chord et now r1 r2 :: evs) →
  ∃ st' tr cur,
    run c (initial q) (ButtonDown d chord et now r1 r2 :: evs) = Some (st', tr) ∧
    voice None tr = Some cur.
Proof.
  intros Hm Hne Hnb Hr.
  destruct (arp_press c q d chord et now r1 r2 evs Hm Hne Hnb Hr)
    as (st' & tr & cur & E & Hv & _).
  by exists st', tr, cur.
Qed.

Lemma arp_voice_is_monophonic_witness :
  ∃ st' tr cur,
    run updown_config (initial idle_sequencer)
      (ButtonDown 0 [60; 64; 67]%Z None (Num.ofZ 1000) 0%Qc (Num.ratio 1 2)
       :: stepsAndGates) = Some (st', tr) ∧
    voice None tr = Some cur.
Proof.
  apply (arp_voice_is_monophonic updown_config idle_sequencer 0 [60; 64; 67]%Z None
           (Num.ofZ 1000) 0%Qc (Num.ratio 1 2) stepsAndGates).
  - reflexivity.
  - by vm_compute.
  - repeat constructor; by intros [].
  - repeat constructor; by vm_compute.
Defined.

(** Every pitch a held arpeggiator button sounds is a note of its chord
    raised by a whole number of octaves below the octave setting. *)
Theorem arp_plays_extension_only (c : Config) (q : Store.Sequencer) (d : nat)
    (chord : list Z) (et : option Qc) (now r1 r2 : Qc) (evs : list Event) :
  currentMode c = Store.arpeggiator →
  buildArpNotes (arpSettings c) chord ≠ [] →
  Forall (λ ev, ¬ isButtonDown ev) evs →
  Forall unitDraws (ButtonDown d chord et now r1 r2 :: evs) →
  ∃ st' tr,
    run c (initial q) (ButtonDown d chord et now r1 r2 :: evs) = Some (st', tr) ∧
    ∀ x, x ∈ sounded tr → inExtension (Store.octaves (arpSettings c)) chord x.
Proof.
  intros Hm Hne Hnb Hr.
  destruct (arp_press c q d chord et now r1 r2 evs Hm Hne Hnb Hr)
    as (st' & tr & cur & E & _ & Hs).
  exists st', tr. split; [done|]. intros x Hx.
  by apply buildArpNotes_extension, Hs.
Qed.

Lemma arp_plays_extension_only_witness :
  ∃ st' tr,
    run updown_config (initial idle_sequencer)
      (ButtonDown 0 [60; 64; 67]%Z None (Num.ofZ 1000) 0%Qc (Num.ratio 1 2)
       :: stepsAndGates) = Some (st', tr) ∧
    ∀ x, x ∈ sounded tr →
         inExtension (Store.octaves (arpSettings updown_config)) [60; 64; 67]%Z x.
Proof.
  apply (arp_plays_extension_only updown_config idle_sequencer 0 [60; 64; 67]%Z None
           (Num.ofZ 1000) 0%Qc (Num.ratio 1 2) stepsAndGates).
  - reflexivity.
  - by vm_compute.
  - repeat constructor; by intros [].
  - repeat constructor; by vm_compute.
Defined.

End LiveClaims.

(** ** The keyboard *)

Module KeyboardClaims.
Import Engine ChordButtons LiveProps RecordingExamples.
Import Keyboard.

Lemma handleKeyDown_pressed c chords ks e now r1 r2 ks1 tr1 :
  typing e = false → isChordKey (key e) = true →
  handleKeyDown c chords ks e now r1 r2 = Some (ks1, tr1) →
  key e ∈ pressedKeys ks1.
Proof.
  intros Ht Hk E. unfold handleKeyDown in E. rewrite Ht, Hk in E.
  case_bool_decide as Hin; [by simplify_eq|].
  destruct (buttonDown _ _ _ _ _ _ _) as [[st tr]|]; [|done].
  cbn in E. simplify_eq. cbn. set_solver.
Qed.

Lemma repeat_step c chords ks k ev :
  isChordKey k = true → k ∈ pressedKeys ks → repeatOrTyped k ev →
  Keyboard.step c chords ks ev = Some (ks, []).
Proof.
  intros Hk Hin Hev. destruct ev as [e now r1 r2|e now]; cbn in Hev; cbn [Keyboard.step].
  - unfold handleKeyDown. destruct (typing e); [done|]. rewrite Hev, Hk.
    by rewrite bool_decide_eq_true_2.
  - unfold handleKeyUp. by rewrite Hev.
Qed.

(** Once the key-down of a chord key has been handled, every further
    key-down of that key, and every key-up that goes to a text field,
    changes nothing and calls nothing: a held key does not retrigger, and a
    key released while a text field has the focus stays pressed. *)
Theorem key_repeat_is_ignored (c : Config) (chords : nat → option (list Z))
    (ks ks1 : Keyboard.State) (e : KeyboardEvent) (now r1 r2 : Qc)
    (tr1 : list call) (evs : list KeyEvent) :
  typing e = false → isChordKey (key e) = true →
  handleKeyDown c chords ks e now r1 r2 = Some (ks1, tr1) →
  Forall (repeatOrTyped (key e)) evs →
  Keyboard.run c chords ks1 evs = Some (ks1, []).
Proof.
  intros Ht Hk E Hevs.
  pose proof (handleKeyDown_pressed c chords ks e now r1 r2 ks1 tr1 Ht Hk E) as Hin.
  induction Hevs as [|ev evs Hev _ IH]; [done|].
  cbn [Keyboard.run]. rewrite (repeat_step c chords ks1 (key e) ev Hk Hin Hev).
  cbn. by rewrite IH.
Qed.

Lemma key_repeat_is_ignored_witness :
  ∃ ks1 tr1,
    handleKeyDown LiveExamples.play_config cMajor noKeys (bodyKey "1")
      (Num.ofZ 1000) 0%Qc 0%Qc = Some (ks1, tr1) ∧
    Keyboard.run LiveExamples.play_config cMajor ks1
      [ KeyDown (bodyKey "1") (Num.ofZ 1030) 0%Qc 0%Qc;
        KeyUp (inputKey "1") (Num.ofZ 1500);
        KeyDown (bodyKey "1") (Num.ofZ 2000) 0%Qc 0%Qc ] = Some (ks1, []).
Proof.
  destruct (handleKeyDown LiveExamples.play_config cMajor noKeys (bodyKey "1")
              (Num.ofZ 1000) 0%Qc 0%Qc) as [[ks1 tr1]|] eqn:E; [|by vm_compute in E].
  exists ks1, tr1. split; [done|].
  apply (key_repeat_is_ignored LiveExamples.play_config cMajor noKeys ks1
           (bodyKey "1") (Num.ofZ 1000) 0%Qc 0%Qc tr1); [done | done | done |].
  repeat constructor.
Defined.

(** A key whose name is a single character is a chord key exactly when the
    character is a digit from 1 to 7, and it then drives the button numbered
    one less than the digit. *)
Theorem single_key_drives_button (a : Ascii.ascii) :
  isChordKey (String a EmptyString)
  = bool_decide (49 ≤ Z.of_N (Ascii.N_of_ascii a) ≤ 55)%Z ∧
  (isChordKey (String a EmptyString) = true →
   degreeOf (String a EmptyString) = Z.to_nat (Z.of_N (Ascii.N_of_ascii a) - 49)).
Proof.
  destruct a as [[] [] [] [] [] [] [] []]; split; try reflexivity;
    intros H; try discriminate H; reflexivity.
Qed.

End KeyboardClaims.

(** ** The arranger *)

Module RationalFacts.
Local Open Scope Qc_scope.

Ltac qconst :=
  repeat match goal with
  | |- context [Qinv (inject_Z (Zpos ?p))] =>
      change (Qinv (inject_Z (Zpos p))) with (1 # p)%Q
  | H : context [Qinv (inject_Z (Zpos ?p))] |- _ =>
      change (Qinv (inject_Z (Zpos p))) with (1 # p)%Q in H
  | |- context [inject_Z (Zpos ?p)] =>
      change (inject_Z (Zpos p)) with (Zpos p # 1)%Q
  | H : context [inject_Z (Zpos ?p)] |- _ =>
      change (inject_Z (Zpos p)) with (Zpos p # 1)%Q in H
  end.

(** Turn a goal on canonical rationals into one on rationals. *)
Ltac qc2q :=
  unfold Qcle, Qclt, Qcminus, Qcdiv, Num.ofZ, Num.ratio in *;
  cbn [this Qcplus Qcmult Qcopp Qcinv Q2Qc] in *;
  rewrite ?Qred_correct in *; qconst.

Lemma floor_spec (y : Qc) :
  Num.ofZ (Num.Math_floor y) ≤ y ∧ y < Num.ofZ (Num.Math_floor y + 1).
Proof.
  unfold Qcle, Qclt, Num.Math_floor. rewrite !FloorFacts.this_ofZ.
  split; [apply Qfloor_le | apply Qlt_floor].
Qed.

Lemma ofZ_le (a b : Z) : (a ≤ b)%Z ↔ Num.ofZ a ≤ Num.ofZ b.
Proof. unfold Qcle. rewrite !FloorFacts.this_ofZ. by rewrite Zle_Qle. Qed.

Lemma ofZ_0 : Num.ofZ 0 = 0.
Proof. by apply Qc_is_canon. Qed.

End RationalFacts.

Module EditorFacts.
Import Engine Timeline TimelineEditor TimelineProps.
Import RationalFacts.
Local Open Scope Qc_scope.

Lemma round_spec (y : Qc) :
  Num.ofZ (Math_round y) ≤ y + Num.ratio 1 2 ∧
  y + Num.ratio 1 2 < Num.ofZ (Math_round y + 1).
Proof. apply floor_spec. Qed.

Lemma findPattern_filter ps pid x :
  pid ≠ x →
  findPattern (List.filter (λ p, negb (bool_decide (Store.id p = x))) ps) pid
  = findPattern ps pid.
Proof.
  intros Hne. unfold findPattern.
  induction ps as [|p ps IH]; [done|]. cbn [List.filter List.find].
  destruct (decide (Store.id p = x)) as [Hx|Hx].
  - rewrite (bool_decide_eq_true_2 (Store.id p = x)) by done. cbn [negb].
    rewrite (bool_decide_eq_false_2 (Store.id p = pid)) by congruence. done.
  - rewrite (bool_decide_eq_false_2 (Store.id p = x)) by done. cbn [negb List.find].
    by rewrite IH.
Qed.

Lemma findPattern_filter_self ps x :
  findPattern (List.filter (λ p, negb (bool_decide (Store.id p = x))) ps) x = None.
Proof.
  unfold findPattern. induction ps as [|p ps IH]; [done|]. cbn [List.filter].
  destruct (decide (Store.id p = x)) as [Hx|Hx].
  - by rewrite (bool_decide_eq_true_2 (Store.id p = x)) by done.
  - rewrite (bool_decide_eq_false_2 (Store.id p = x)) by done. cbn [negb List.find].
    by rewrite (bool_decide_eq_false_2 (Store.id p = x)) by done.
Qed.

Lemma reach_grows e acc clip : acc ≤ reach e acc clip.
Proof.
  unfold reach. destruct (findPattern _ _); [apply NumFacts.Math_max_l | apply Qcle_refl].
Qed.

Lemma Math_max_mono a b c : a ≤ b → Num.Math_max a c ≤ Num.Math_max b c.
Proof.
  intros Hab. unfold Num.Math_max.
  destruct (decide (a ≤ c)) as [Hac|Hac]; destruct (decide (b ≤ c)) as [Hbc|Hbc].
  - apply Qcle_refl.
  - by apply Qclt_le_weak, Qcnot_le_lt.
  - by eapply Qcle_trans.
  - done.
Qed.

Lemma reach_mono e a b clip : a ≤ b → reach e a clip ≤ reach e b clip.
Proof.
  intros Hab. unfold reach. destruct (findPattern _ _); [by apply Math_max_mono | done].
Qed.

Lemma fold_reach_le e clips : ∀ a b (keep : Store.TimelineClip → bool),
  a ≤ b →
  fold_left (reach e) (List.filter keep clips) a ≤ fold_left (reach e) clips b.
Proof.
  induction clips as [|c clips IH]; intros a b keep Hab; [done|].
  cbn [List.filter fold_left]. destruct (keep c); cbn [fold_left].
  - apply IH. by apply reach_mono.
  - apply IH. eapply Qcle_trans; [exact Hab | apply reach_grows].
Qed.

Lemma fold_reach_ext e1 e2 clips : ∀ a,
  bpm e1 = bpm e2 →
  (∀ c, c ∈ clips →
        findPattern (patterns e1) (Store.patternId c)
        = findPattern (patterns e2) (Store.patternId c)) →
  fold_left (reach e1) clips a = fold_left (reach e2) clips a.
Proof.
  induction clips as [|c clips IH]; intros a Hb Hsame; [done|].
  cbn [fold_left].
  assert (reach e1 a c = reach e2 a c) as ->.
  { unfold reach. rewrite Hsame by set_solver. unfold clipEndSeconds. by rewrite Hb. }
  apply IH; [done|]. intros c' Hc'. apply Hsame. set_solver.
Qed.

Lemma loopEndTime_fold e : loopEndTime e = fold_left (reach e) (timeline e) 0.
Proof. done. Qed.

Lemma startBeatOf_whole x l :
  ∃ n : Z, (0 ≤ n)%Z ∧ startBeatOf x l = Num.ofZ n.
Proof.
  unfold startBeatOf. set (k := pixelsToBeats _). clearbody k.
  unfold Num.Math_max. case_decide as Hk.
  - exists k. split; [|done]. apply ofZ_le. by rewrite ofZ_0.
  - exists 0%Z. split; [done|]. by rewrite ofZ_0.
Qed.

Lemma resolved_alt q :
  resolved q ↔
  Forall (λ c, findPattern (Store.patterns q) (Store.patternId c) ≠ None) (Store.timeline q).
Proof. unfold resolved. by rewrite Forall_forall. Qed.

End EditorFacts.

Module EditorClaims.
Import Engine Timeline TimelineEditor TimelineProps EditorFacts EditorExamples.
Import RationalFacts.
Local Open Scope Qc_scope.

(** A whole number of beats survives the trip to pixels and back, and a
    pixel position snaps to the grid line nearest to it: at most 30 pixels
    to its right and less than 30 to its left. *)
Theorem grid_snaps_to_nearest_beat :
  (∀ n : Z, pixelsToBeats (beatsToPixels (Num.ofZ n)) = n) ∧
  (∀ x : Qc,
     beatsToPixels (Num.ofZ (pixelsToBeats x)) ≤ x + Num.ofZ 30 ∧
     x - Num.ofZ 30 < beatsToPixels (Num.ofZ (pixelsToBeats x))).
Proof.
  split.
  - intros n. unfold pixelsToBeats, beatsToPixels, Math_round, BEAT_WIDTH.
    apply FloorFacts.floor_unique.
    + qc2q. field_simplify. lra.
    + qc2q. rewrite inject_Z_plus. qconst. field_simplify. lra.
  - intros x. unfold pixelsToBeats, beatsToPixels, BEAT_WIDTH.
    destruct (round_spec (x / Num.ofZ 60)) as [H1 H2].
    set (n := Math_round (x / Num.ofZ 60)) in *. clearbody n. split.
    + qc2q. lra.
    + qc2q. rewrite inject_Z_plus in H2. qconst. lra.
Qed.

(** However tracks and beats are added and removed, at least one track and
    at least eight beats remain, provided that beats are added by
    non-negative counts. *)
Theorem grid_keeps_its_minimum (ops : list GridOp) (g : Grid) :
  (1 ≤ trackCount g)%Z → (8 ≤ totalBeats g)%Z →
  Forall (λ op, match op with AddBeats count => (0 ≤ count)%Z | _ => True end) ops →
  (1 ≤ trackCount (fold_left gridStep ops g))%Z ∧
  (8 ≤ totalBeats (fold_left gridStep ops g))%Z.
Proof.
  intros Ht Hb Hops. revert g Ht Hb.
  induction Hops as [|op ops Hop _ IH]; intros g Ht Hb; [done|].
  cbn [fold_left]. apply IH.
  - destruct op; cbn; unfold removeTrack, removeBeats;
      repeat case_bool_decide; cbn; lia.
  - destruct op; cbn; unfold removeTrack, removeBeats;
      repeat case_bool_decide; cbn; lia.
Qed.

Lemma grid_keeps_its_minimum_witness :
  (1 ≤ trackCount (fold_left gridStep
          [RemoveTrack; RemoveTrack; RemoveTrack; RemoveTrack; RemoveBeats 8;
           RemoveBeats 8; RemoveBeats 8; RemoveBeats 4; AddBeats 4; RemoveBeats 8]
          initialGrid))%Z ∧
  (8 ≤ totalBeats (fold_left gridStep
          [RemoveTrack; RemoveTrack; RemoveTrack; RemoveTrack; RemoveBeats 8;
           RemoveBeats 8; RemoveBeats 8; RemoveBeats 4; AddBeats 4; RemoveBeats 8]
          initialGrid))%Z.
Proof.
  apply (grid_keeps_its_minimum
           [RemoveTrack; RemoveTrack; RemoveTrack; RemoveTrack; RemoveBeats 8;
            RemoveBeats 8; RemoveBeats 8; RemoveBeats 4; AddBeats 4; RemoveBeats 8]
           initialGrid).
  - by vm_compute.
  - by vm_compute.
  - repeat constructor; by vm_compute.
Defined.

(** Whatever a drop adds to the timeline or changes in it starts on a whole
    beat that is not negative, wherever the pointer is, and lies on the
    track that received the drop. *)
Theorem drop_lands_on_whole_beat (q : Store.Sequencer) (dr : Drag)
    (clientX rectLeft : Qc) (track : nat) (now : string) :
  ∃ n : Z, (0 ≤ n)%Z ∧
    ∀ c, c ∈ Store.timeline (handleTrackDrop q dr clientX rectLeft track now).1 →
         c ∉ Store.timeline q →
         Store.startTime c = Num.ofZ n ∧ Store.track c = track.
Proof.
  destruct (startBeatOf_whole clientX rectLeft) as (n & Hn & Hs).
  exists n. split; [done|]. intros c Hin Hold. unfold handleTrackDrop in Hin.
  rewrite Hs in Hin. destruct (draggedPattern dr) as [p|].
  - cbn in Hin. apply elem_of_app in Hin as [Hin|Hin]; [done|].
    by apply list_elem_of_singleton in Hin as ->.
  - destruct (draggedClip dr) as [dc|]; [|done]. cbn in Hin.
    apply list_elem_of_fmap in Hin as (c0 & -> & Hc0).
    case_bool_decide; [done|]. done.
Qed.

(** A drop never touches the patterns and never leaves a clip without its
    pattern.  With a pattern being dragged it appends one clip of that
    pattern and keeps every clip as it was, also when a clip is being
    dragged as well; otherwise it keeps the number of clips, their order,
    their ids and their patterns. *)
Theorem drop_keeps_clips_and_patterns (q : Store.Sequencer) (dr : Drag)
    (clientX rectLeft : Qc) (track : nat) (now : string) :
  resolved q →
  (∀ p, draggedPattern dr = Some p →
        findPattern (Store.patterns q) (Store.id p) ≠ None) →
  resolved (handleTrackDrop q dr clientX rectLeft track now).1 ∧
  Store.patterns (handleTrackDrop q dr clientX rectLeft track now).1 = Store.patterns q ∧
  match draggedPattern dr with
  | Some p =>
      ∃ c, Store.timeline (handleTrackDrop q dr clientX rectLeft track now).1
           = Store.timeline q ++ [c] ∧
           Store.patternId c = Store.id p ∧ Store.clip_id c = now
  | None =>
      (λ c, (Store.clip_id c, Store.patternId c))
        <$> Store.timeline (handleTrackDrop q dr clientX rectLeft track now).1
      = (λ c, (Store.clip_id c, Store.patternId c)) <$> Store.timeline q
  end.
Proof.
  intros Hres Hp. unfold handleTrackDrop. destruct (draggedPattern dr) as [p|].
  - cbn. split_and!; [|done|by eexists].
    intros c Hc. cbn in Hc. apply elem_of_app in Hc as [Hc|Hc]; [by apply Hres|].
    apply list_elem_of_singleton in Hc as ->. cbn. by apply Hp.
  - destruct (draggedClip dr) as [dc|]; [|done]. cbn. split_and!; [|done|].
    + intros c Hc. cbn in Hc. apply list_elem_of_fmap in Hc as (c0 & -> & Hc0).
      case_bool_decide; cbn; by apply Hres.
    + rewrite <- list_fmap_compose. apply list_fmap_ext. intros _ c _. cbn.
      by case_bool_decide.
Qed.

Lemma drop_keeps_clips_and_patterns_witness :
  resolved (handleTrackDrop onePattern bothDragged (Num.ofZ 300) (Num.ofZ 20) 2 "B").1 ∧
  Store.patterns (handleTrackDrop onePattern bothDragged (Num.ofZ 300) (Num.ofZ 20) 2 "B").1
  = Store.patterns onePattern ∧
  ∃ c, Store.timeline
         (handleTrackDrop onePattern bothDragged (Num.ofZ 300) (Num.ofZ 20) 2 "B").1
       = (Store.timeline onePattern ++ (c :: nil))%list ∧
       Store.patternId c = Store.id (TimelineExamples.openNote "p" None) ∧
       Store.clip_id c = "B"%string.
Proof.
  apply (drop_keeps_clips_and_patterns onePattern bothDragged
           (Num.ofZ 300) (Num.ofZ 20) 2 "B").
  - intros c Hc. cbn in Hc. apply list_elem_of_singleton in Hc as ->. by vm_compute.
  - intros p Hp. injection Hp as <-. by vm_compute.
Defined.

(** Deleting a pattern from the library takes with it exactly the clips
    that played it: no clip of the timeline refers to it afterwards, every
    other clip stays, in order, and still finds the pattern it found
    before; so a timeline in which every clip had its pattern stays so. *)
Theorem deletePattern_leaves_no_orphans (pid : string) (q : Store.Sequencer) :
  findPattern (Store.patterns (deletePattern pid q)) pid = None ∧
  Store.timeline (deletePattern pid q)
  = List.filter (λ c, negb (bool_decide (Store.patternId c = pid))) (Store.timeline q) ∧
  (∀ c, c ∈ Store.timeline (deletePattern pid q) →
        c ∈ Store.timeline q ∧ Store.patternId c ≠ pid ∧
        findPattern (Store.patterns (deletePattern pid q)) (Store.patternId c)
        = findPattern (Store.patterns q) (Store.patternId c)) ∧
  (resolved q → resolved (deletePattern pid q)).
Proof.
  assert (Hc : ∀ c, c ∈ Store.timeline (deletePattern pid q) →
        c ∈ Store.timeline q ∧ Store.patternId c ≠ pid ∧
        findPattern (Store.patterns (deletePattern pid q)) (Store.patternId c)
        = findPattern (Store.patterns q) (Store.patternId c)).
  { intros c Hin. cbn in Hin. apply list_elem_of_In, filter_In in Hin as [Hin Hk].
    apply negb_true_iff, bool_decide_eq_false_1 in Hk.
    split; [by apply list_elem_of_In|]. split; [done|].
    cbn. by apply findPattern_filter. }
  split_and!; [apply findPattern_filter_self | done | done |].
  intros Hres c Hin. destruct (Hc c Hin) as (Hold & _ & ->). by apply Hres.
Qed.

(** Editing moves the end of the loop the way one expects: removing a clip
    or deleting a pattern never makes the loop longer, and dropping a
    pattern of the library on the timeline makes it reach at least the end
    of the new clip and never makes it shorter. *)
Theorem loop_end_follows_edits (q : Store.Sequencer) (bpm totalBeats : Qc)
    (isLooping : bool) (global : Store.Parameters) :
  (∀ clipId,
     loopEndTime (env (removeClip clipId q) bpm totalBeats isLooping global)
     ≤ loopEndTime (env q bpm totalBeats isLooping global)) ∧
  (∀ pid,
     loopEndTime (env (deletePattern pid q) bpm totalBeats isLooping global)
     ≤ loopEndTime (env q bpm totalBeats isLooping global)) ∧
  (∀ dr p p0 clientX rectLeft track now,
     draggedPattern dr = Some p →
     findPattern (Store.patterns q) (Store.id p) = Some p0 →
     let e := env q bpm totalBeats isLooping global in
     let q' := (handleTrackDrop q dr clientX rectLeft track now).1 in
     let clipEnd :=
       startBeatOf clientX rectLeft * Num.ofZ 60 / bpm + Store.length p0 in
     loopEndTime (env q' bpm totalBeats isLooping global)
     = Num.Math_max (loopEndTime e) clipEnd ∧
     loopEndTime e ≤ loopEndTime (env q' bpm totalBeats isLooping global) ∧
     clipEnd ≤ loopEndTime (env q' bpm totalBeats isLooping global)).
Proof.
  split_and!.
  - intros clipId. rewrite !loopEndTime_fold. cbn [env timeline removeClip set_timeline
      Store.timeline].
    apply (fold_reach_le (env q bpm totalBeats isLooping global)). apply Qcle_refl.
  - intros pid. rewrite !loopEndTime_fold. cbn [env timeline deletePattern Store.timeline].
    erewrite (fold_reach_ext _ (env q bpm totalBeats isLooping global)); [|done|].
    + apply (fold_reach_le (env q bpm totalBeats isLooping global)). apply Qcle_refl.
    + intros c Hc. cbn [env patterns deletePattern Store.patterns].
      apply list_elem_of_In, filter_In in Hc as [_ Hk].
      apply negb_true_iff, bool_decide_eq_false_1 in Hk. by apply findPattern_filter.
  - intros dr p p0 clientX rectLeft track now Hdr Hp e q' clipEnd.
    assert (E : loopEndTime (env q' bpm totalBeats isLooping global)
                = Num.Math_max (loopEndTime e) clipEnd).
    { unfold q', handleTrackDrop. rewrite Hdr. rewrite !loopEndTime_fold.
      cbn [fst env timeline set_timeline Store.timeline].
      rewrite fold_left_app. cbn [fold_left].
      erewrite (fold_reach_ext _ e); [|done|done].
      unfold reach at 1. unfold e, clipEnd.
      cbn [env patterns Store.patternId Store.patterns set_timeline].
      rewrite Hp. done. }
    rewrite E. split; [done|]. split; [apply NumFacts.Math_max_l | apply NumFacts.Math_max_r].
Qed.

End EditorClaims.

(** ** The timeline pool, pitch by pitch *)

Module OrderedFacts.
Section with_key.
Context {K : Type} `{EqDecision K}.

Lemma elem_of_add (x y : K) (l : list K) : y ∈ Ordered.add x l ↔ y = x ∨ y ∈ l.
Proof.
  unfold Ordered.add, Ordered.has. case_bool_decide as Hx.
  - split; [auto | intros [->|?]; done].
  - rewrite elem_of_app, list_elem_of_singleton. tauto.
Qed.

Lemma elem_of_remove (x y : K) (l : list K) : y ∈ Ordered.remove x l ↔ y ≠ x ∧ y ∈ l.
Proof.
  unfold Ordered.remove. rewrite list_elem_of_In, filter_In, <- list_elem_of_In.
  rewrite negb_true_iff, bool_decide_eq_false. tauto.
Qed.

Lemma elem_of_fold_remove (ns : list K) : ∀ (tn : list K) (y : K),
  y ∈ fold_left (λ tn m, Ordered.remove m tn) ns tn ↔ y ∈ tn ∧ y ∉ ns.
Proof.
  induction ns as [|n ns IH]; intros tn y; cbn [fold_left].
  - set_solver.
  - rewrite IH, elem_of_remove, not_elem_of_cons. tauto.
Qed.

Context {V : Type}.

Lemma mhas_keys (k : K) (m : list (K * V)) : Ordered.mhas k m = true ↔ k ∈ m.*1.
Proof.
  unfold Ordered.mhas. induction m as [|[k' v] m IH]; cbn [Ordered.get fmap list_fmap].
  - split; [done | by intros ?%elem_of_nil].
  - case_bool_decide as Hk; cbn [fst].
    + subst. split; [intros _; by left | done].
    + rewrite IH, elem_of_cons. split; [auto | intros [?|?]; [congruence | done]].
Qed.

Lemma get_Some_elem (k : K) (v : V) (m : list (K * V)) :
  Ordered.get k m = Some v → (k, v) ∈ m.
Proof.
  induction m as [|[k' v'] m IH]; cbn [Ordered.get]; [done|].
  case_bool_decide as Hk.
  - intros [= ->]. subst. by left.
  - intros H. right. by apply IH.
Qed.

Lemma get_unique (k : K) (v : V) (m : list (K * V)) :
  NoDup m.*1 → (k, v) ∈ m → Ordered.get k m = Some v.
Proof.
  induction m as [|[k' v'] m IH]; intros Hnd Hin; [by apply elem_of_nil in Hin|].
  cbn [fmap list_fmap fst] in Hnd. apply NoDup_cons in Hnd as [Hk' Hnd].
  cbn [Ordered.get]. apply elem_of_cons in Hin as [Heq|Hin].
  - injection Heq as -> ->. by rewrite bool_decide_eq_true_2.
  - case_bool_decide as Hk.
    + subst. exfalso. apply Hk'. apply list_elem_of_fmap. by exists (k, v).
    + by apply IH.
Qed.

Lemma alter_keys (f : V → V) (k : K) (m : list (K * V)) :
  (Ordered.alter f k m).*1 = m.*1.
Proof.
  induction m as [|[k' v] m IH]; [done|]. cbn [Ordered.alter].
  case_bool_decide; cbn [fmap list_fmap fst]; [done | by rewrite IH].
Qed.

Lemma elem_of_alter (f : V → V) (k c : K) (n : V) (m : list (K * V)) :
  (c, n) ∈ m →
  ∃ n', (c, n') ∈ Ordered.alter f k m ∧ (n' = n ∨ n' = f n).
Proof.
  induction m as [|[k' v] m IH]; intros Hin; [by apply elem_of_nil in Hin|].
  cbn [Ordered.alter]. apply elem_of_cons in Hin as [Heq|Hin].
  - injection Heq as -> ->. case_bool_decide.
    + exists (f v). split; [by left | by right].
    + exists v. split; [by left | by left].
  - case_bool_decide.
    + exists n. split; [by right | by left].
    + destruct (IH Hin) as (n' & Hn' & Hor). exists n'. split; [by right | done].
Qed.

Lemma alter_first (f : V → V) (k : K) (m : list (K * V)) :
  Ordered.mhas k m = true → ∃ n, (k, f n) ∈ Ordered.alter f k m.
Proof.
  unfold Ordered.mhas. induction m as [|[k' v] m IH]; cbn [Ordered.get Ordered.alter];
    [done|].
  case_bool_decide as Hk.
  - subst. intros _. exists v. by left.
  - intros H. destruct (IH H) as [n Hn]. exists n. by right.
Qed.

Lemma elem_of_mremove (k c : K) (n : V) (m : list (K * V)) :
  (c, n) ∈ Ordered.mremove k m ↔ c ≠ k ∧ (c, n) ∈ m.
Proof.
  unfold Ordered.mremove. rewrite list_elem_of_In, filter_In, <- list_elem_of_In.
  rewrite negb_true_iff, bool_decide_eq_false. cbn. tauto.
Qed.

Lemma mremove_NoDup (k : K) (m : list (K * V)) :
  NoDup m.*1 → NoDup (Ordered.mremove k m).*1.
Proof.
  unfold Ordered.mremove. induction m as [|[k' v] m IH]; intros Hnd; [done|].
  cbn [fmap list_fmap fst] in Hnd. apply NoDup_cons in Hnd as [Hk' Hnd].
  cbn [List.filter fst]. destruct (negb (bool_decide (k' = k))).
  - cbn [fmap list_fmap fst]. apply NoDup_cons. split; [|by apply IH].
    intros Hin. apply Hk'. apply list_elem_of_fmap in Hin as ([c n] & -> & Hin).
    apply list_elem_of_In, filter_In in Hin as [Hin _].
    apply list_elem_of_fmap. exists (c, n). split; [done | by apply list_elem_of_In].
  - by apply IH.
Qed.

End with_key.
End OrderedFacts.

Module PoolFacts.
Import Engine Timeline TimelineEditor TimelineProps OrderedFacts.

Lemma calls_app l1 l2 : calls (l1 ++ l2) = calls l1 ++ calls l2.
Proof. apply map_app. Qed.

Lemma calls_tag o cs : calls (tag o cs) = cs.
Proof.
  unfold calls, tag. rewrite map_map. cbn. apply map_id.
Qed.

Lemma poolVoice_app m cs1 : ∀ s cs2,
  poolVoice m s (cs1 ++ cs2) = poolVoice m s cs1 ≫= λ s', poolVoice m s' cs2.
Proof.
  induction cs1 as [|c cs1 IH]; intros s cs2; [done|].
  destruct c; cbn [app poolVoice]; try apply IH.
  - case_bool_decide; [|apply IH]. destruct s; [done | apply IH].
  - case_bool_decide; apply IH.
Qed.

Lemma poolVoice_offs m ns : ∀ s,
  poolVoice m s (map timelineNoteOff ns)
  = Some (if bool_decide (m ∈ ns) then false else s).
Proof.
  induction ns as [|n ns IH]; intros s; cbn [map poolVoice].
  - by rewrite bool_decide_eq_false_2 by set_solver.
  - destruct (decide (n = m)) as [->|Hn].
    + rewrite (bool_decide_eq_true_2 (m = m)) by done.
      rewrite IH. rewrite (bool_decide_eq_true_2 (m ∈ m :: ns)) by set_solver.
      by destruct (bool_decide (m ∈ ns)).
    + rewrite (bool_decide_eq_false_2 (n = m)) by done.
      rewrite IH. f_equal.
      rewrite (bool_decide_ext (m ∈ n :: ns) (m ∈ ns)); [done|].
      rewrite elem_of_cons. split; [intros [?|?]; [congruence | done] | auto].
Qed.

Lemma poolVoice_live m ns : ∀ s,
  poolVoice m s (map (λ n, noteOff n true) ns) = Some s.
Proof. induction ns as [|n ns IH]; intros s; [done | apply IH]. Qed.

Lemma poolVoice_parameters m s p : poolVoice m s (applyParameters p).1 = Some s.
Proof. unfold applyParameters. by destruct (Store.filter p). Qed.

(** Appending calls that leave every pitch as it is. *)
Lemma pool_inv_quiet pb pb' cs new :
  pool_inv pb cs →
  (∀ m s, poolVoice m s new = Some s) →
  activeClips pb' = activeClips pb → timelineNotes pb' = timelineNotes pb →
  pool_inv pb' (cs ++ new).
Proof.
  intros (Hnd & Htr & Hv) Hq Hac Htn. split_and!.
  - by rewrite Hac.
  - intros m. unfold tracked in Htr. rewrite Htn, Hac. apply Htr.
  - intros m. destruct (Hv m) as (s & Hs & Hin). exists s.
    rewrite poolVoice_app, Hs. cbn. rewrite Hq. split; [done|]. by rewrite Htn.
Qed.

Lemma dispatchNote_inv clip rel pb log note pre :
  pool_inv pb (pre ++ calls log) →
  Ordered.mhas (Store.clip_id clip) (activeClips pb) = true →
  pool_inv (dispatchNote clip rel (pb, log) note).1
    (pre ++ calls (dispatchNote clip rel (pb, log) note).2) ∧
  Ordered.mhas (Store.clip_id clip)
    (activeClips (dispatchNote clip rel (pb, log) note).1) = true.
Proof.
  intros (Hnd & Htr & Hv) Hhas. unfold dispatchNote.
  destruct (Num.ltb _ _ && negb _); [|by split].
  set (m0 := Store.midiNote note). set (cid := Store.clip_id clip) in *.
  destruct (Store.type note); cbn [fst snd activeClips timelineNotes].
  - split; [|by rewrite mhas_keys, alter_keys, <- mhas_keys].
    rewrite calls_app, calls_tag, app_assoc. split_and!.
    + cbn [activeClips]. by rewrite alter_keys.
    + intros m Hm. cbn [timelineNotes activeClips] in *.
      apply elem_of_add in Hm as [->|Hm].
      * destruct (alter_first (Ordered.add m0) cid (activeClips pb) Hhas) as [n Hn].
        exists cid, (Ordered.add m0 n). split; [done|]. apply elem_of_add. by left.
      * destruct (Htr m Hm) as (c & n & Hc & Hmn).
        destruct (elem_of_alter (Ordered.add m0) cid c n _ Hc) as (n' & Hn' & [->| ->]).
        -- by exists c, n.
        -- exists c, (Ordered.add m0 n). split; [done|]. apply elem_of_add. by right.
    + intros m. destruct (Hv m) as (s & Hs & Hin). cbn [timelineNotes].
      rewrite poolVoice_app, Hs. cbn [mbind option_bind].
      destruct (decide (m = m0)) as [->|Hne].
      * exists true. split; [|intros _; apply elem_of_add; by left].
        unfold Ordered.has. case_bool_decide as Hpl; cbn [app poolVoice].
        -- by rewrite !bool_decide_eq_true_2 by done.
        -- rewrite bool_decide_eq_true_2 by done. destruct s; [|done].
           by destruct Hpl; apply Hin.
      * exists s. split; [|intros Ht; apply elem_of_add; right; by apply Hin].
        unfold Ordered.has. case_bool_decide; cbn [app poolVoice];
          by rewrite ?bool_decide_eq_false_2 by congruence.
  - split; [|by rewrite mhas_keys, alter_keys, <- mhas_keys].
    rewrite calls_app, calls_tag, app_assoc. split_and!.
    + cbn [activeClips]. by rewrite alter_keys.
    + intros m Hm. cbn [timelineNotes activeClips] in *.
      apply elem_of_remove in Hm as [Hne Hm].
      destruct (Htr m Hm) as (c & n & Hc & Hmn).
      destruct (elem_of_alter (Ordered.remove m0) cid c n _ Hc) as (n' & Hn' & [->| ->]).
      * by exists c, n.
      * exists c, (Ordered.remove m0 n). split; [done|]. by apply elem_of_remove.
    + intros m. destruct (Hv m) as (s & Hs & Hin). cbn [timelineNotes].
      rewrite poolVoice_app, Hs. cbn [mbind option_bind poolVoice].
      destruct (decide (m = m0)) as [->|Hne].
      * exists false. by rewrite bool_decide_eq_true_2.
      * exists s. rewrite bool_decide_eq_false_2 by congruence. split; [done|].
        intros Ht. apply elem_of_remove. split; [done | by apply Hin].
Qed.

Lemma dispatchNote_fold_inv clip rel notes pre : ∀ pb log,
  pool_inv pb (pre ++ calls log) →
  Ordered.mhas (Store.clip_id clip) (activeClips pb) = true →
  pool_inv (fold_left (dispatchNote clip rel) notes (pb, log)).1
    (pre ++ calls (fold_left (dispatchNote clip rel) notes (pb, log)).2).
Proof.
  induction notes as [|note notes IH]; intros pb log Hinv Hhas; [done|].
  cbn [fold_left].
  destruct (dispatchNote_inv clip rel pb log note pre Hinv Hhas) as [Hinv1 Hhas1].
  destruct (dispatchNote clip rel (pb, log) note) as [pb1 log1]. by apply IH.
Qed.

Lemma initClipTracking_inv clip p pb cs :
  pool_inv pb cs →
  Ordered.mhas (Store.clip_id clip) (activeClips pb) = false →
  pool_inv (initClipTracking clip p pb).1.1 (cs ++ calls (initClipTracking clip p pb).1.2) ∧
  Ordered.mhas (Store.clip_id clip) (activeClips (initClipTracking clip p pb).1.1) = true.
Proof.
  intros (Hnd & Htr & Hv) Hno.
  assert (Hclips : Ordered.set (Store.clip_id clip) [] (activeClips pb)
                   = activeClips pb ++ [(Store.clip_id clip, [])]).
  { unfold Ordered.set. by rewrite Hno. }
  assert (Hkey : Store.clip_id clip ∉ (activeClips pb).*1).
  { rewrite <- mhas_keys. by rewrite Hno. }
  assert (Hgoal : ∀ pb' new,
            activeClips pb' = activeClips pb ++ [(Store.clip_id clip, [])] →
            timelineNotes pb' = timelineNotes pb →
            (∀ m s, poolVoice m s new = Some s) →
            pool_inv pb' (cs ++ new) ∧
            Ordered.mhas (Store.clip_id clip) (activeClips pb') = true).
  { intros pb' new Hac Htn Hq. split.
    - split_and!.
      + rewrite Hac, fmap_app. apply NoDup_app. split; [done|].
        split; [|apply NoDup_singleton].
        intros k Hk Hk'. apply list_elem_of_singleton in Hk'. cbn in Hk'. by subst.
      + intros m Hm. rewrite Htn in Hm. destruct (Htr m Hm) as (c & n & Hc & Hmn).
        exists c, n. split; [|done]. rewrite Hac, elem_of_app. by left.
      + intros m. destruct (Hv m) as (s & Hs & Hin). exists s.
        rewrite poolVoice_app, Hs. cbn. rewrite Hq. split; [done|]. by rewrite Htn.
    - rewrite mhas_keys, Hac, fmap_app, elem_of_app. right. cbn. by left. }
  unfold initClipTracking, track. rewrite Hclips.
  destruct (Store.capturedParameters p) as [params|].
  - destruct (negb _); cbn [fst snd].
    + pose proof (λ m s, poolVoice_parameters m s params) as Hq.
      destruct (applyParameters params) as [ps [|]]; cbn [fst snd] in *;
        (apply Hgoal; [done | done |]); intros m s; by rewrite calls_tag.
    + by apply Hgoal.
  - by apply Hgoal.
Qed.

Lemma clipEnded_inv e clip pb cs :
  pool_inv pb cs →
  pool_inv (clipEnded e clip pb).1.1 (cs ++ calls (clipEnded e clip pb).1.2).
Proof.
  intros (Hnd & Htr & Hv). unfold clipEnded.
  set (cid := Store.clip_id clip).
  set (ns := default [] (Ordered.get cid (activeClips pb))).
  assert (Htail : ∀ m s',
            poolVoice m s'
              (if bool_decide (currentParametersClipId pb = Some cid)
               then applyParameters (globalParameters e) else ([], Returned)).1 = Some s').
  { intros m s'. destruct (bool_decide _); [apply poolVoice_parameters | done]. }
  destruct (if bool_decide (currentParametersClipId pb = Some cid)
            then applyParameters (globalParameters e) else ([], Returned))
    as [restore completion]. cbn [fst snd] in *.
  rewrite calls_tag. split_and!.
  - cbn [activeClips]. by apply mremove_NoDup.
  - intros m Hm. cbn [timelineNotes activeClips] in *.
    apply elem_of_fold_remove in Hm as [Hm Hout].
    destruct (Htr m Hm) as (c & n & Hc & Hmn). exists c, n. split; [|done].
    apply elem_of_mremove. split; [|done]. intros ->. apply Hout.
    unfold ns. by rewrite (get_unique cid n _ Hnd Hc).
  - intros m. destruct (Hv m) as (s & Hs & Hin). cbn [timelineNotes].
    rewrite poolVoice_app, Hs. cbn [mbind option_bind].
    rewrite poolVoice_app, poolVoice_offs. cbn [mbind option_bind].
    rewrite Htail. eexists. split; [done|].
    destruct (decide (m ∈ ns)) as [Hmn|Hmn].
    { by rewrite (bool_decide_eq_true_2 (m ∈ ns)) by done. }
    rewrite (bool_decide_eq_false_2 (m ∈ ns)) by done. intros Ht.
    apply elem_of_fold_remove. split; [by apply Hin | done].
Qed.

Lemma clipStep_inv e beat pb log clip pre :
  pool_inv pb (pre ++ calls log) →
  pool_inv (clipStep e beat (pb, log) clip).1.1
    (pre ++ calls (clipStep e beat (pb, log) clip).1.2).
Proof.
  intros Hinv. unfold clipStep.
  destruct (findPattern (patterns e) (Store.patternId clip)) as [p|]; [|done].
  destruct (isClipPlaying e beat clip p).
  - destruct (Ordered.mhas (Store.clip_id clip) (activeClips pb)) eqn:Hhas; cbn [negb].
    + cbn [fst snd]. rewrite app_nil_r. by apply dispatchNote_fold_inv.
    + destruct (initClipTracking_inv clip p pb _ Hinv Hhas) as [Hinv1 Hhas1].
      destruct (initClipTracking clip p pb) as [[pb1 log1] [|]]; cbn [fst snd] in *.
      * apply dispatchNote_fold_inv; [|done]. by rewrite calls_app, app_assoc.
      * by rewrite calls_app, app_assoc.
  - destruct (Ordered.mhas (Store.clip_id clip) (activeClips pb)); [|done].
    pose proof (clipEnded_inv e clip pb _ Hinv) as Hinv1.
    destruct (clipEnded e clip pb) as [[pb1 log1] completion]. cbn [fst snd] in *.
    by rewrite calls_app, app_assoc.
Qed.

Lemma clips_inv e beat clips pre : ∀ pb log,
  pool_inv pb (pre ++ calls log) →
  pool_inv (forEachClip e beat clips (pb, log)).1.1
    (pre ++ calls (forEachClip e beat clips (pb, log)).1.2).
Proof.
  induction clips as [|clip clips IH]; intros pb log Hinv; [done|].
  cbn [forEachClip]. pose proof (clipStep_inv e beat pb log clip pre Hinv) as Hinv1.
  destruct (clipStep e beat (pb, log) clip) as [[pb1 log1] [|]]; [by apply IH | done].
Qed.

Lemma sweep_covers pb m :
  tracked pb → m ∈ timelineNotes pb → m ∈ sweepNotes pb.
Proof.
  intros Htr Hm. destruct (Htr m Hm) as (c & n & Hc & Hmn).
  unfold sweepNotes. apply list_elem_of_In, in_flat_map. exists (c, n).
  split; by apply list_elem_of_In.
Qed.

Lemma loopRestart_silent pb cs m :
  pool_inv pb cs → poolVoice m false (cs ++ calls (loopRestart pb).2) = Some false.
Proof.
  intros (Hnd & Htr & Hv). destruct (Hv m) as (s & Hs & Hin).
  rewrite poolVoice_app, Hs. cbn [mbind option_bind loopRestart snd].
  rewrite calls_tag, poolVoice_offs. f_equal. case_bool_decide as Hsw; [done|].
  destruct s; [|done]. destruct Hsw. by apply sweep_covers, Hin.
Qed.

Lemma loopRestart_inv pb cs :
  pool_inv pb cs → pool_inv (loopRestart pb).1 (cs ++ calls (loopRestart pb).2).
Proof.
  intros Hinv. split_and!.
  - cbn. apply NoDup_nil_2.
  - intros m Hm. cbn in Hm. by apply elem_of_nil in Hm.
  - intros m. exists false. split; [by apply loopRestart_silent | done].
Qed.

Lemma pool_inv_fields pb pb' cs :
  pool_inv pb cs →
  activeClips pb' = activeClips pb → timelineNotes pb' = timelineNotes pb →
  pool_inv pb' cs.
Proof.
  intros Hinv Hac Htn. rewrite <- (app_nil_r cs). by eapply pool_inv_quiet.
Qed.

Lemma tick_inv e t pb pre :
  pool_inv pb pre →
  match tick e t pb with
  | Running pb' log _ | Aborted pb' log _ => pool_inv pb' (pre ++ calls log)
  | Halted _ log => ∀ m, ∃ s, poolVoice m false (pre ++ calls log) = Some s
  end.
Proof.
  intros Hinv. unfold tick.
  destruct (negb (isLooping e) && Num.leb (loopDurationMs e) t).
  - unfold stopPlayback. cbv beta iota zeta.
    intros m. destruct Hinv as (_ & _ & Hv). destruct (Hv m) as (s & Hs & _).
    exists s. rewrite calls_tag, poolVoice_app, Hs. cbn [mbind option_bind].
    apply poolVoice_live.
  - assert (H1 : pool_inv
              (if loopRestartDetected e t pb then loopRestart pb else (pb, [])).1
              (pre ++ calls
                 (if loopRestartDetected e t pb then loopRestart pb else (pb, [])).2)).
    { destruct (loopRestartDetected e t pb); [by apply loopRestart_inv|].
      cbn. by rewrite app_nil_r. }
    destruct (if loopRestartDetected e t pb then loopRestart pb else (pb, []))
      as [pb1 log1]. cbn [fst snd] in H1.
    assert (H2 : pool_inv (set_lastTime t pb1) (pre ++ calls log1))
      by (by eapply pool_inv_fields).
    pose proof (clips_inv e (effectiveElapsedMs e t / beatDuration e)%Qc (timeline e)
                  pre _ _ H2) as H3.
    destruct (forEachClip _ _ _ _) as [[pb3 log3] [|]]; cbn [fst snd] in H3; [|done].
    eapply pool_inv_fields; [exact H3 | |]; unfold pruneScheduled;
      by destruct (bool_decide _).
Qed.

Lemma run_inv e ticks : ∀ pb pre,
  pool_inv pb pre →
  (∀ m, ∃ s, poolVoice m false (pre ++ calls (runTicks e pb ticks).2) = Some s) ∧
  (allRunning e pb ticks = true →
   pool_inv (runTicks e pb ticks).1 (pre ++ calls (runTicks e pb ticks).2)).
Proof.
  induction ticks as [|t ticks IH]; intros pb pre Hinv; cbn [runTicks allRunning].
  - cbn. rewrite app_nil_r. split; [|done]. intros m.
    destruct Hinv as (_ & _ & Hv). destruct (Hv m) as (s & Hs & _). by exists s.
  - pose proof (tick_inv e t pb pre Hinv) as Ht.
    destruct (tick e t pb) as [pb' log pos|pb' log pos|pb' log].
    + destruct (IH pb' (pre ++ calls log) Ht) as [Hv Hrun].
      destruct (runTicks e pb' ticks) as [pb'' log'']. cbn [fst snd] in *.
      rewrite calls_app, app_assoc. done.
    + destruct (IH pb' (pre ++ calls log) Ht) as [Hv Hrun].
      destruct (runTicks e pb' ticks) as [pb'' log'']. cbn [fst snd] in *.
      rewrite calls_app, app_assoc. done.
    + cbn [fst snd]. split; [done | done].
Qed.

Lemma pool_inv_fresh : pool_inv fresh [].
Proof.
  split_and!.
  - cbn. apply NoDup_nil_2.
  - intros m Hm. cbn in Hm. by apply elem_of_nil in Hm.
  - intros m. by exists false.
Qed.

End PoolFacts.

Module PoolClaims.
Import Engine Timeline TimelineEditor TimelineProps PoolFacts TimelineExamples.

(** Along any playback from a fresh state, whatever patterns the clips play
    and whether its ticks run to their end or are left by an exception, and
    for every pitch, a timeline note-on is never sent while the pitch is
    sounding in the timeline pool: between two note-ons of a pitch there is
    always a note-off of it. *)
Theorem timeline_note_ons_never_overlap (e : Env) (ticks : list Qc) (m : Z) :
  ∃ s, poolVoice m false (calls (runTicks e fresh ticks).2) = Some s.
Proof.
  destruct (run_inv e ticks fresh [] pool_inv_fresh) as [Hv _]. apply (Hv m).
Qed.

(** Whenever the loop restarts during a playback, also one in which ticks
    were left by an exception, the sweep of the restart leaves no pitch
    sounding in the timeline pool. *)
Theorem loop_restart_silences_pool (e : Env) (ticks : list Qc) :
  allRunning e fresh ticks = true →
  ∀ m, poolVoice m false
         (calls (runTicks e fresh ticks).2 ++
          calls (loopRestart (runTicks e fresh ticks).1).2) = Some false.
Proof.
  intros Hrun m. destruct (run_inv e ticks fresh [] pool_inv_fresh) as [_ Hinv].
  by apply loopRestart_silent, Hinv.
Qed.

Lemma loop_restart_silences_pool_witness :
  allRunning overlapping fresh [0%Qc; Num.ofZ 500; Num.ofZ 510; Num.ofZ 1000; Num.ofZ 1010] = true ∧
  ∀ m, poolVoice m false
         (calls (runTicks overlapping fresh [0%Qc; Num.ofZ 500; Num.ofZ 510; Num.ofZ 1000; Num.ofZ 1010]).2 ++
          calls (loopRestart
                   (runTicks overlapping fresh [0%Qc; Num.ofZ 500; Num.ofZ 510; Num.ofZ 1000; Num.ofZ 1010]).1).2)
       = Some false.
Proof.
  split; [by vm_compute|].
  apply (loop_restart_silences_pool overlapping [0%Qc; Num.ofZ 500; Num.ofZ 510; Num.ofZ 1000; Num.ofZ 1010]).
  by vm_compute.
Defined.

(** Pausing a playback, also one in which ticks were left by an exception,
    sends a timeline note-off for every tracked pitch: no pitch is left
    sounding in the timeline pool and nothing is tracked any more. *)
Theorem pause_silences_pool (e : Env) (ticks : list Qc) :
  allRunning e fresh ticks = true →
  timelineNotes (pauseButton (runTicks e fresh ticks).1).1 = [] ∧
  activeClips (pauseButton (runTicks e fresh ticks).1).1 = [] ∧
  ∀ m, poolVoice m false
         (calls (runTicks e fresh ticks).2 ++
          (pauseButton (runTicks e fresh ticks).1).2) = Some false.
Proof.
  intros Hrun. split; [done|]. split; [done|]. intros m.
  destruct (run_inv e ticks fresh [] pool_inv_fresh) as [_ Hinv].
  destruct (Hinv Hrun) as (_ & _ & Hv). destruct (Hv m) as (s & Hs & Hin).
  cbn [app] in Hs.
  rewrite poolVoice_app, Hs. cbn [mbind option_bind pauseButton cleanup snd].
  rewrite poolVoice_offs. f_equal. case_bool_decide as Hm; [done|].
  destruct s; [|done]. destruct Hm. by apply Hin.
Qed.

Lemma pause_silences_pool_witness :
  timelineNotes
    (pauseButton (runTicks overlapping fresh [0%Qc; Num.ofZ 500; Num.ofZ 510; Num.ofZ 1000; Num.ofZ 1010]).1).1 = [] ∧
  activeClips
    (pauseButton (runTicks overlapping fresh [0%Qc; Num.ofZ 500; Num.ofZ 510; Num.ofZ 1000; Num.ofZ 1010]).1).1 = [] ∧
  ∀ m, poolVoice m false
         (calls (runTicks overlapping fresh [0%Qc; Num.ofZ 500; Num.ofZ 510; Num.ofZ 1000; Num.ofZ 1010]).2 ++
          (pauseButton
             (runTicks overlapping fresh [0%Qc; Num.ofZ 500; Num.ofZ 510; Num.ofZ 1000; Num.ofZ 1010]).1).2)
       = Some false.
Proof.
  apply (pause_silences_pool overlapping [0%Qc; Num.ofZ 500; Num.ofZ 510; Num.ofZ 1000; Num.ofZ 1010]).
  by vm_compute.
Defined.

(** The stop button sends the engine an immediate live note-off for each
    tracked pitch and no timeline call at all, the cleanup that follows
    finding nothing left to stop: what sounds in the timeline pool before
    the stop sounds in it after, while nothing is tracked any more. *)
Theorem stop_sends_no_timeline_note_off (pb : Playback) :
  (stopButton pb).2 = map (λ m, noteOff m true) (timelineNotes pb) ∧
  timelineNotes (stopButton pb).1 = [] ∧
  activeClips (stopButton pb).1 = [] ∧
  ∀ cs m, poolVoice m false (cs ++ (stopButton pb).2) = poolVoice m false cs.
Proof.
  assert (Hcalls : (stopButton pb).2 = map (λ m, noteOff m true) (timelineNotes pb)).
  { unfold stopButton, stopPlayback, cleanup. cbn [snd timelineNotes map].
    by rewrite calls_tag, app_nil_r. }
  split; [done|]. split; [done|]. split; [done|]. intros cs m.
  rewrite poolVoice_app, Hcalls. destruct (poolVoice m false cs) as [s|]; [|done].
  apply poolVoice_live.
Qed.

End PoolClaims.

(** ** The engine wrapper *)

Module EngineFacts.
Import Wasm EngineProps.






Lemma invoke_none st ms :
  wasmEngine st = false → (run st (Invoke <$> ms)).2 = [] ∧ (run st (Invoke <$> ms)).1 = st.
Proof.
  intros Hw. induction ms as [|m ms IH]; [done|].
  cbn [fmap list_fmap run step]. unfold invoke. rewrite Hw.
  destruct (run st (Invoke <$> ms)) as [st2 os2]. cbn in *. by destruct IH as [-> ->].
Qed.

End EngineFacts.

Module EngineClaims.
Import Wasm EngineProps EngineFacts.
Local Open Scope Qc_scope.



(** Before [initialize()] and after [dispose()] no method reaches the Rust
    engine; a second [initialize()] does nothing; and the first one leaves
    the master volume at 1, both pool volumes at 0.7 and the live envelope
    at 10 ms, 200 ms, full sustain and 300 ms, without sending an envelope
    to the timeline pool. *)
Theorem engine_lifecycle :
  (∀ ms, (run created (Invoke <$> ms)).2 = []) ∧
  (∀ st ms, (run (dispose st) (Invoke <$> ms)).2 = []) ∧
  (∀ st ctx ctx', initialize (initialize st ctx).1 ctx' = ((initialize st ctx).1, [])) ∧
  (∀ ctx,
     let os := (initialize created ctx).2 in
     masterVolume None os = Some (Num.ofZ 1) ∧
     volume Live None os = Some (Num.ratio 7 10) ∧
     volume Timeline None os = Some (Num.ratio 7 10) ∧
     envelope Live None os
     = Some {| Store.attack := Num.ratio 1 100; Store.decay := Num.ratio 2 10;
               Store.sustain := Num.ofZ 1; Store.release := Num.ratio 3 10 |} ∧
     envelope Timeline None os = None).
Proof.
  split_and!.
  - intros ms. by apply invoke_none.
  - intros st ms. by apply invoke_none.
  - intros st ctx ctx'. unfold initialize.
    destruct (isInitialized st) eqn:E; cbn [fst isInitialized]; by rewrite ?E.
  - intros ctx. by split_and!.
Qed.

(** [stopAllNotes()] sends a live note-off for every MIDI note from 0 to
    127 and nothing else: no note above 127 and no note of the timeline pool
    is stopped. *)
Theorem stopAllNotes_covers_midi_range (o : op) :
  o ∈ ops stopAllNotes ↔ ∃ n : Z, (0 ≤ n < 128)%Z ∧ o = note_off Live n.
Proof.
  unfold ops. rewrite list_elem_of_fmap. split.
  - intros (i & -> & Hi). apply list_elem_of_In, in_seq in Hi.
    exists (Z.of_nat i). split; [lia | done].
  - intros (n & Hn & ->). exists (Z.to_nat n). split.
    + f_equal. lia.
    + apply list_elem_of_In, in_seq. lia.
Qed.

(** The volume slider of the control panel sets the live volume of the
    engine, but any change of the timeline volume sets the live volume back
    to 0.7, whatever the slider and the store say; neither touches the
    master volume. *)
Theorem timeline_volume_resets_live_volume (v tv : Qc) (live master : option Qc) :
  (Volume.handleVolumeChange true v).1 = v ∧
  volume Live live (performed (Volume.handleVolumeChange true v).2) = Some v ∧
  volume Live live
    (performed ((Volume.handleVolumeChange true v).2 ++
                Volume.timelineVolumeEffect true tv)) = Some (Num.ratio 7 10) ∧
  volume Timeline None
    (performed ((Volume.handleVolumeChange true v).2 ++
                Volume.timelineVolumeEffect true tv)) = Some tv ∧
  masterVolume master
    (performed ((Volume.handleVolumeChange true v).2 ++
                Volume.timelineVolumeEffect true tv)) = master.
Proof. by split_and!. Qed.

End EngineClaims.

(** ** Presets and generated patterns *)

Module PresetFacts.

Lemma find_is_None {A} (f : A → bool) (l : list A) :
  (∀ x, x ∈ l → f x = false) → List.find f l = None.
Proof.
  induction l as [|a l IH]; intros H; [done|]. cbn.
  rewrite (H a) by apply list_elem_of_here.
  apply IH. intros x Hx. apply H. by apply list_elem_of_further.
Qed.

End PresetFacts.

Module PresetClaims.
Import Engine ArtistPresets.

(** Looking a preset up by its id gives that preset back, for the default
    preset and for each artist preset: the ids are distinct.  An id that no
    preset has gives nothing, and the selector then shows the default
    preset. *)
Theorem getPresetById_round_trip :
  (∀ p, p ∈ getAllPresets → getPresetById (id p) = Some p) ∧
  NoDup (id <$> getAllPresets) ∧
  List.length getAllPresets = 10 ∧
  (∀ i, (∀ p, p ∈ getAllPresets → id p ≠ i) →
        getPresetById i = None ∧ currentPreset i = defaultPreset).
Proof.
  split_and!.
  - intros p Hp. unfold getAllPresets, artistPresets in Hp.
    repeat (apply elem_of_cons in Hp as [->|Hp]; [reflexivity|]).
    by apply elem_of_nil in Hp.
  - apply (bool_decide_unpack (NoDup (id <$> getAllPresets))). by vm_compute.
  - done.
  - intros i Hi.
    assert (Hnone : List.find (λ p, bool_decide (id p = i)) getAllPresets = None).
    { apply PresetFacts.find_is_None. intros p Hp.
      apply bool_decide_eq_false_2. by apply Hi. }
    unfold getPresetById, currentPreset. by rewrite Hnone.
Qed.

(** Applying a preset hands the flanger's depth to the engine as its rate
    and its rate as its depth, whereas the timeline, starting a clip whose
    pattern was recorded under the settings that the preset left in the
    store, hands them over in the engine's order; the two send the engine
    the same flanger only when rate and depth are equal, which they are for
    no preset of the table. *)
Theorem preset_flanger_arguments_are_exchanged (st : PresetSelector.Settings)
    (preset : ArtistPreset) :
  let f := Store.flanger (effects preset) in
  let applied := (PresetSelector.applyPresetInternal st preset).2 in
  let stored := PresetSelector.parameters (PresetSelector.applyPresetInternal st preset).1.1 in
  let recorded := PatternRecorder.capture stored in
  (∀ e r d fb x, Wasm.Call (setFlanger e r d fb x) ∈ applied →
     e = Store.flanger_enabled f ∧ r = Store.flanger_depth f ∧
     d = Store.flanger_rate f ∧ fb = Store.flanger_feedback f ∧
     x = Store.flanger_mix f) ∧
  Wasm.Call (setFlanger (Store.flanger_enabled f) (Store.flanger_depth f)
               (Store.flanger_rate f) (Store.flanger_feedback f)
               (Store.flanger_mix f)) ∈ applied ∧
  (∀ e r d fb x, setFlanger e r d fb x ∈ (Timeline.applyParameters stored).1 →
     e = Store.flanger_enabled f ∧ r = Store.flanger_rate f ∧
     d = Store.flanger_depth f ∧ fb = Store.flanger_feedback f ∧
     x = Store.flanger_mix f) ∧
  (∀ e r d fb x, setFlanger e r d fb x ∈ (Timeline.applyParameters recorded).1 →
     e = Store.flanger_enabled f ∧ r = Store.flanger_rate f ∧
     d = Store.flanger_depth f ∧ fb = Store.flanger_feedback f ∧
     x = Store.flanger_mix f) ∧
  (Timeline.applyParameters recorded).2 = Timeline.Returned ∧
  setFlanger (Store.flanger_enabled f) (Store.flanger_rate f)
    (Store.flanger_depth f) (Store.flanger_feedback f) (Store.flanger_mix f)
    ∈ (Timeline.applyParameters recorded).1 ∧
  (preset ∈ getAllPresets → Store.flanger_rate f ≠ Store.flanger_depth f).
Proof.
  intros f applied stored recorded.
  assert (Happ : ∀ p e r d fb x,
            Store.effects p = effects preset →
            setFlanger e r d fb x ∈ (Timeline.applyParameters p).1 →
            e = Store.flanger_enabled f ∧ r = Store.flanger_rate f ∧
            d = Store.flanger_depth f ∧ fb = Store.flanger_feedback f ∧
            x = Store.flanger_mix f).
  { intros p e r d fb x Hp Hin. unfold Timeline.applyParameters in Hin. rewrite Hp in Hin.
    destruct (Store.filter p); cbn [fst app] in Hin;
      repeat (apply elem_of_cons in Hin as [Heq|Hin]; [by simplify_eq|]);
      by apply elem_of_nil in Hin. }
  split_and!.
  - intros e r d fb x Hin. unfold applied, PresetSelector.applyPresetInternal in Hin.
    cbn [snd] in Hin.
    repeat (apply elem_of_cons in Hin as [Heq|Hin]; [by simplify_eq|]).
    by apply elem_of_nil in Hin.
  - unfold applied, PresetSelector.applyPresetInternal. cbn [snd].
    do 9 apply list_elem_of_further. apply list_elem_of_here.
  - intros e r d fb x. by apply Happ.
  - intros e r d fb x. by apply Happ.
  - done.
  - unfold recorded, Timeline.applyParameters, PatternRecorder.capture.
    cbn [Store.filter fst app Store.effects].
    do 13 apply list_elem_of_further. apply list_elem_of_here.
  - intros Hp. unfold f. unfold getAllPresets, artistPresets in Hp.
    repeat (apply elem_of_cons in Hp as [->|Hp]; [by vm_compute|]).
    by apply elem_of_nil in Hp.
Qed.

End PresetClaims.

Module GeneratedFacts.
Import Engine Timeline GeneratedPatterns.


End GeneratedFacts.

Module GeneratedClaims.
Import Engine Timeline GeneratedPatterns.



End GeneratedClaims.

(** ** The end of the clip that owns the parameters *)

Module AbortFacts.
Import Engine Timeline.

Lemma mhas_mremove cid (m : list (string * list Z)) :
  Ordered.mhas cid (Ordered.mremove cid m) = false.
Proof.
  destruct (Ordered.mhas cid (Ordered.mremove cid m)) eqn:E; [|done].
  apply OrderedFacts.mhas_keys in E. apply list_elem_of_fmap in E as ([c n] & Hc & Hin).
  cbn in Hc. subst c. apply OrderedFacts.elem_of_mremove in Hin as [Hne _]. done.
Qed.

End AbortFacts.

Module AbortClaims.
Import Engine Timeline TimelineExamples.

(** When the clip that owns the parameters ends while the store has no
    filter object, which is how the store is created, the pass over the
    clips stops the pitches tracked for the clip, sets the waveform and the
    envelope of the store and is then left by an exception: the clip is no
    longer tracked but stays the owner, the clips after it in the timeline
    are not visited on that tick, and the scheduled notes are left as they
    are. *)
Theorem owner_clip_end_aborts_pass (e : Env) (beat : Qc) (pb : Playback) (log : Log)
    (clip : Store.TimelineClip) (p : Store.Pattern) (later : list Store.TimelineClip) :
  findPattern (patterns e) (Store.patternId clip) = Some p →
  isClipPlaying e beat clip p = false →
  Ordered.mhas (Store.clip_id clip) (activeClips pb) = true →
  currentParametersClipId pb = Some (Store.clip_id clip) →
  Store.filter (globalParameters e) = None →
  let r := forEachClip e beat (clip :: later) (pb, log) in
  let g := globalParameters e in
  r.2 = Thrown ∧
  calls r.1.2 =
    calls log ++
    map timelineNoteOff (default [] (Ordered.get (Store.clip_id clip) (activeClips pb))) ++
    [ setWaveform (waveformMap (Store.waveform g));
      setADSR (Store.attack (Store.adsr g)) (Store.decay (Store.adsr g))
        (Store.sustain (Store.adsr g)) (Store.release (Store.adsr g)) ] ∧
  currentParametersClipId r.1.1 = Some (Store.clip_id clip) ∧
  Ordered.mhas (Store.clip_id clip) (activeClips r.1.1) = false ∧
  scheduledNotes r.1.1 = scheduledNotes pb ∧
  r = forEachClip e beat [clip] (pb, log).
Proof.
  intros Hp Hplay Hhas Hown Hf r g.
  assert (Hstep : clipStep e beat (pb, log) clip
                  = ((clipEnded e clip pb).1.1, log ++ (clipEnded e clip pb).1.2,
                     (clipEnded e clip pb).2)).
  { unfold clipStep. rewrite Hp, Hplay, Hhas.
    by destruct (clipEnded e clip pb) as [[pb1 log1] completion]. }
  assert (Hend : clipEnded e clip pb
                 = ({| timelineNotes :=
                         fold_left (λ tn m, Ordered.remove m tn)
                           (default [] (Ordered.get (Store.clip_id clip) (activeClips pb)))
                           (timelineNotes pb);
                       lastTime := lastTime pb;
                       activeClips := Ordered.mremove (Store.clip_id clip) (activeClips pb);
                       hasLooped := hasLooped pb;
                       activeClipsWithParams :=
                         activeClipsWithParams pb ∖ {[Store.clip_id clip]};
                       currentParametersClipId := currentParametersClipId pb;
                       scheduledNotes := scheduledNotes pb |},
                    tag (ClipEnded (Store.clip_id clip))
                      (map timelineNoteOff
                         (default [] (Ordered.get (Store.clip_id clip) (activeClips pb))) ++
                       [ setWaveform (waveformMap (Store.waveform g));
                         setADSR (Store.attack (Store.adsr g)) (Store.decay (Store.adsr g))
                           (Store.sustain (Store.adsr g)) (Store.release (Store.adsr g)) ]),
                    Thrown)).
  { unfold clipEnded. rewrite (bool_decide_eq_true_2 _ Hown).
    by rewrite (TimelineFacts.applyParameters_no_filter _ Hf). }
  assert (Hr : ∀ clips, forEachClip e beat (clip :: clips) (pb, log)
                        = ((clipEnded e clip pb).1.1, log ++ (clipEnded e clip pb).1.2, Thrown)).
  { intros clips. cbn [forEachClip]. rewrite Hstep, Hend. done. }
  unfold r. rewrite !Hr, Hend. cbn [fst snd].
  split_and!; try done.
  - by rewrite PoolFacts.calls_app, PoolFacts.calls_tag.
  - apply AbortFacts.mhas_mremove.
Qed.

Lemma owner_clip_end_aborts_pass_witness :
  let pb := (runTicks ownerEnds fresh [0%Qc]).1 in
  let r := forEachClip ownerEnds (Num.ofZ 1) [clipAt "B" "sq" 0 0; clipAt "C" "sq" 1 1]
             (pb, []) in
  let g := globalParameters ownerEnds in
  r.2 = Thrown ∧
  calls r.1.2 =
    calls [] ++
    map timelineNoteOff
      (default [] (Ordered.get (Store.clip_id (clipAt "B" "sq" 0 0)) (activeClips pb))) ++
    [ setWaveform (waveformMap (Store.waveform g));
      setADSR (Store.attack (Store.adsr g)) (Store.decay (Store.adsr g))
        (Store.sustain (Store.adsr g)) (Store.release (Store.adsr g)) ] ∧
  currentParametersClipId r.1.1 = Some (Store.clip_id (clipAt "B" "sq" 0 0)) ∧
  Ordered.mhas (Store.clip_id (clipAt "B" "sq" 0 0)) (activeClips r.1.1) = false ∧
  scheduledNotes r.1.1 = scheduledNotes pb ∧
  r = forEachClip ownerEnds (Num.ofZ 1) [clipAt "B" "sq" 0 0] (pb, []).
Proof.
  apply (owner_clip_end_aborts_pass ownerEnds (Num.ofZ 1)
           (runTicks ownerEnds fresh [0%Qc]).1 [] (clipAt "B" "sq" 0 0)
           (openNote "sq" (Some (withWaveform Store.square)))
           [clipAt "C" "sq" 1 1]); by vm_compute.
Defined.

End AbortClaims.
